(** * A contact book with birthdays: the model of [exercise.py]

    The development embeds the data model of the contact manager
    ([Phone], [Birthday], [Record], [AddressBook]), the birthday
    scheduling of [AddressBook.get_upcoming_birthdays], the command
    handlers behind [input_error], and the command loop of [main] with
    [process_command]; it proves what the specification says about
    them, and then further properties the code has.  The console is a
    trace of events; the pickle file is outside the model.

    Python values are modelled as follows.
    - A [str] is the list of its Unicode code points.
    - A [datetime] is the record of its seven fields.
    - An exception is a value of [Exn]; a call that may raise returns
      [Exn + A].
    - [Record] objects are mutable and shared: they live in a heap, the
      address book maps names to heap addresses, and every operation
      runs in a state-and-exception monad over the [World].
    - [datetime.today()] reads a clock that the world carries; every
      call is a new reading.

    The library functions the program calls ([str.isdigit],
    [datetime.strptime], [replace], comparison, subtraction, [weekday],
    [strftime], adding a [timedelta]) are modelled after CPython 3.11
    on Linux, where [strftime] is the one of glibc. *)

From Stdlib Require Import ZArith NArith Lia List Bool String Ascii.
From stdpp Require Import base tactics option list numbers.

Local Open Scope Z_scope.

(** ** Strings *)

(** A Python [str]: a sequence of code points. *)
Abbreviation str := (list N).

(** The [str] of an ASCII literal. *)
Definition lit (s : string) : str :=
  map N_of_ascii (list_ascii_of_string s).

(** [sep.join(parts)] *)
Fixpoint join (sep : str) (parts : list str) : str :=
  match parts with
  | [] => []
  | [p] => p
  | p :: ps => p ++ sep ++ join sep ps
  end.

(** ** The Unicode character database (version 14.0, as CPython 3.11 ships it) *)

Module Unicode.

(** Code points of general category Nd (Numeric_Type=Decimal), as
    inclusive ranges.  Every range starts at a digit zero and its
    length is a multiple of ten. *)
Definition decimal_ranges : list (N * N) :=
[
  (48, 57); (1632, 1641); (1776, 1785); (1984, 1993); (2406, 2415);
  (2534, 2543); (2662, 2671); (2790, 2799); (2918, 2927); (3046, 3055);
  (3174, 3183); (3302, 3311); (3430, 3439); (3558, 3567); (3664, 3673);
  (3792, 3801); (3872, 3881); (4160, 4169); (4240, 4249); (6112, 6121);
  (6160, 6169); (6470, 6479); (6608, 6617); (6784, 6793); (6800, 6809);
  (6992, 7001); (7088, 7097); (7232, 7241); (7248, 7257); (42528, 42537);
  (43216, 43225); (43264, 43273); (43472, 43481); (43504, 43513); (43600, 43609);
  (44016, 44025); (65296, 65305); (66720, 66729); (68912, 68921); (69734, 69743);
  (69872, 69881); (69942, 69951); (70096, 70105); (70384, 70393); (70736, 70745);
  (70864, 70873); (71248, 71257); (71360, 71369); (71472, 71481); (71904, 71913);
  (72016, 72025); (72784, 72793); (73040, 73049); (73120, 73129); (92768, 92777);
  (92864, 92873); (93008, 93017); (120782, 120831); (123200, 123209); (123632, 123641);
  (125264, 125273); (130032, 130041)
]%N.

(** Code points with Numeric_Type=Digit: superscripts, subscripts,
    circled digits and the like. *)
Definition digit_ranges : list (N * N) :=
[
  (178, 179); (185, 185); (4969, 4977); (6618, 6618); (8304, 8304);
  (8308, 8313); (8320, 8329); (9312, 9320); (9332, 9340); (9352, 9360);
  (9450, 9450); (9461, 9469); (9471, 9471); (10102, 10110); (10112, 10120);
  (10122, 10130); (68160, 68163); (69216, 69224); (69714, 69722); (127232, 127242)
]%N.

Definition in_range (c : N) (r : N * N) : bool :=
  (fst r <=? c)%N && (c <=? snd r)%N.

Definition in_ranges (rs : list (N * N)) (c : N) : bool :=
  existsb (in_range c) rs.

(** [c.isdecimal()], which is also what [\d] matches in a [str]
    pattern of the [re] module. *)
Definition isdecimal (c : N) : bool := in_ranges decimal_ranges c.

(** [c.isdigit()]: Numeric_Type is Digit or Decimal. *)
Definition isdigit (c : N) : bool :=
  in_ranges decimal_ranges c || in_ranges digit_ranges c.

(** The value of a decimal digit, as [int] reads it. *)
Definition decimal_value (c : N) : Z :=
  match find (in_range c) decimal_ranges with
  | Some r => Z.of_N ((c - fst r) mod 10)
  | None => 0
  end.

(** The ten ASCII digits. *)
Definition is_ascii_digit (c : N) : bool := (48 <=? c)%N && (c <=? 57)%N.

End Unicode.

(** [s.isdigit()]: every character is a digit and there is at least one. *)
Definition str_isdigit (s : str) : bool :=
  negb (Nat.eqb (length s) 0) && forallb Unicode.isdigit s.

(** [int(s)] for a run of decimal digits, possibly after blanks (the
    only strings [strptime] hands to [int]). *)
Definition int_of_digits (s : str) : Z :=
  fold_left (fun acc c => if (c =? 32)%N then acc else 10 * acc + Unicode.decimal_value c) s 0.

(** [str(n)] for a natural number, most significant digit first. *)
Fixpoint decimal_rev (fuel : nat) (n : N) : str :=
  match fuel with
  | O => []
  | S fuel' =>
      ((48 + n mod 10)%N) ::
      (if (n <? 10)%N then [] else decimal_rev fuel' (n / 10)%N)
  end.

Definition str_of_N (n : N) : str :=
  rev (decimal_rev (S (N.to_nat (N.log2 n))) n).

Definition str_of_nat (n : nat) : str := str_of_N (N.of_nat n).

(** A number padded with zeros on the left to [width] characters. *)
Definition zero_pad (width : nat) (n : N) : str :=
  let s := str_of_N n in
  replicate (width - length s)%nat 48%N ++ s.


(** ** Exceptions *)

(** The exception classes the program meets.  [input_error] catches the
    first three; an [OverflowError] is the one [datetime] arithmetic
    raises on leaving the supported range of dates. *)
Inductive ExnClass := ValueError | IndexError | KeyError | OverflowError.

(** What an exception was raised with.  Two messages quote a string with
    [repr], whose escaping rules are not modelled: they keep the string,
    and [exn_str] renders it with the [repr] it is given. *)
Inductive Message :=
| Text (s : str)
| TimeDataMismatch (data : str)
| Quoted (key : str).

Record Exn := Raise { exn_class : ExnClass; exn_message : Message }.

(** [str(e)] *)
Definition exn_str (repr : str -> str) (e : Exn) : str :=
  match exn_message e with
  | Text s => s
  | TimeDataMismatch data =>
      lit "time data " ++ repr data ++ lit " does not match format '%d.%m.%Y'"
  | Quoted key => repr key
  end.

(** A call that returns [A] or raises. *)
Definition Result (A : Type) : Type := Exn + A.

Definition ok {A} (a : A) : Result A := inr a.
Definition raise {A} (c : ExnClass) (m : str) : Result A := inl (Raise c (Text m)).

Definition rbind {A B} (r : Result A) (k : A -> Result B) : Result B :=
  match r with
  | inl e => inl e
  | inr a => k a
  end.

Declare Scope result_scope.
Delimit Scope result_scope with result.
Notation "'try' x := r 'in' k" := (rbind r (fun x => k))
  (at level 10, x name, r at level 100, k at level 200) : result_scope.

(** ** The [datetime] module *)

Module Datetime.

Record datetime := mkdatetime {
  year : Z; month : Z; day : Z;
  hour : Z; minute : Z; second : Z; microsecond : Z
}.

Definition MINYEAR : Z := 1.
Definition MAXYEAR : Z := 9999.

Definition is_leap (y : Z) : bool :=
  (y mod 4 =? 0) && (negb (y mod 100 =? 0) || (y mod 400 =? 0)).

Definition days_in_month (y m : Z) : Z :=
  if m =? 2 then (if is_leap y then 29 else 28)
  else if (m =? 4) || (m =? 6) || (m =? 9) || (m =? 11) then 30
  else 31.

(** Number of days before January 1st of year [y]. *)
Definition days_before_year (y : Z) : Z :=
  let y' := y - 1 in y' * 365 + y' / 4 - y' / 100 + y' / 400.

(** Number of days in year [y] before the first day of month [m]. *)
Definition days_before_month (y m : Z) : Z :=
  fold_left (fun acc k => acc + days_in_month y k)
            (map Z.of_nat (seq 1 (Z.to_nat (m - 1)))) 0.

(** [d.toordinal()]: January 1st of year 1 is day 1. *)
Definition toordinal (d : datetime) : Z :=
  days_before_year (year d) + days_before_month (year d) (month d) + day d.

(** [d.weekday()]: Monday is 0, Saturday 5, Sunday 6. *)
Definition weekday (d : datetime) : Z := (toordinal d + 6) mod 7.

(** The check every constructor runs on a date. *)
Definition check_date_fields (y m d : Z) : Result unit :=
  if negb ((MINYEAR <=? y) && (y <=? MAXYEAR)) then
    raise ValueError (lit "year " ++ (if y <? 0 then lit "-" else []) ++
                      str_of_N (Z.to_N (Z.abs y)) ++ lit " is out of range")
  else if negb ((1 <=? m) && (m <=? 12)) then
    raise ValueError (lit "month must be in 1..12")
  else if negb ((1 <=? d) && (d <=? days_in_month y m)) then
    raise ValueError (lit "day is out of range for month")
  else ok tt.

(** [d.replace(year=y)] *)
Definition replace_year (d : datetime) (y : Z) : Result datetime :=
  (try _ := check_date_fields y (month d) (day d) in
   ok (mkdatetime y (month d) (day d) (hour d) (minute d) (second d) (microsecond d)))%result.

(** [a < b]: the fields are compared in order. *)
Fixpoint lex_lt (a b : list Z) : bool :=
  match a, b with
  | x :: a', y :: b' => (x <? y) || ((x =? y) && lex_lt a' b')
  | _, _ => false
  end.

Definition fields (d : datetime) : list Z :=
  [year d; month d; day d; hour d; minute d; second d; microsecond d].

Definition lt (a b : datetime) : bool := lex_lt (fields a) (fields b).

(** [(a - b).days]: a [timedelta] keeps its seconds and microseconds
    non-negative, so the day count is rounded down. *)
Definition seconds_of_day (d : datetime) : Z :=
  second d + minute d * 60 + hour d * 3600.

Definition sub_days (a b : datetime) : Z :=
  (toordinal a - toordinal b) +
  ((seconds_of_day a - seconds_of_day b) * 1000000
   + (microsecond a - microsecond b)) / (86400 * 1000000).

(** The day after [d], at the same time of day. *)
Definition tomorrow (d : datetime) : datetime :=
  if day d <? days_in_month (year d) (month d) then
    mkdatetime (year d) (month d) (day d + 1) (hour d) (minute d) (second d) (microsecond d)
  else if month d <? 12 then
    mkdatetime (year d) (month d + 1) 1 (hour d) (minute d) (second d) (microsecond d)
  else
    mkdatetime (year d + 1) 1 1 (hour d) (minute d) (second d) (microsecond d).

(** [d + timedelta(days=n)] *)
Definition add_days (n : nat) (d : datetime) : Result datetime :=
  let d' := Nat.iter n tomorrow d in
  if year d' <=? MAXYEAR then ok d'
  else raise OverflowError (lit "date value out of range").

(** [d.strftime("%d.%m.%Y")].  The fields are written by the [strftime]
    of the C library: day and month with two digits, and the year, by
    glibc, as the number it is, without padding.  A year below 1000 has
    fewer than four digits then ([05.03.999]); C libraries that pad the
    year differ there, and from year 1000 on all agree. *)
Definition strftime_dmY (d : datetime) : str :=
  zero_pad 2 (Z.to_N (day d)) ++ lit "." ++
  zero_pad 2 (Z.to_N (month d)) ++ lit "." ++
  str_of_N (Z.to_N (year d)).

(** A well-formed date and a well-formed time of day, as every
    constructor guarantees them. *)
Definition valid_date (d : datetime) : Prop :=
  MINYEAR <= year d <= MAXYEAR /\ 1 <= month d <= 12 /\
  1 <= day d <= days_in_month (year d) (month d).

Definition valid_time (d : datetime) : Prop :=
  0 <= hour d < 24 /\ 0 <= minute d < 60 /\ 0 <= second d < 60 /\
  0 <= microsecond d < 1000000.

End Datetime.
Import Datetime.

(** ** [datetime.strptime(data, "%d.%m.%Y")]

    The library turns the format into the regular expression
    [(?P<d>3[0-1]|[1-2]\d|0[1-9]|[1-9]| [1-9])\.(?P<m>1[0-2]|0[1-9]|[1-9])\.(?P<Y>\d\d\d\d)],
    matches it at the start of the data, insists that the match reaches
    the end of the data, reads the three groups with [int] and builds
    the date, which checks the fields. *)

Module Strptime.

Definition CharClass := N -> bool.

Definition ch (a : ascii) : N := N_of_ascii a.
Definition one (a : ascii) : CharClass := N.eqb (ch a).
Definition rng (lo hi : ascii) : CharClass :=
  fun c => (ch lo <=? c)%N && (c <=? ch hi)%N.
Definition digit : CharClass := Unicode.isdecimal.

(** A sequence of character classes against the start of [s]: the
    text matched and what follows it. *)
Fixpoint match_seq (cs : list CharClass) (s : str) : option (str * str) :=
  match cs, s with
  | [], _ => Some ([], s)
  | p :: cs', c :: s' =>
      if p c then
        match match_seq cs' s' with
        | Some (m, r) => Some (c :: m, r)
        | None => None
        end
      else None
  | _ :: _, [] => None
  end.

(** The alternatives of a group, tried from left to right. *)
Definition match_group (alts : list (list CharClass)) (s : str) : list (str * str) :=
  omap (fun alt => match_seq alt s) alts.

Definition re_d : list (list CharClass) :=
  [ [one "3"; rng "0" "1"]; [rng "1" "2"; digit]; [one "0"; rng "1" "9"];
    [rng "1" "9"]; [one " "; rng "1" "9"] ].
Definition re_m : list (list CharClass) :=
  [ [one "1"; rng "0" "2"]; [one "0"; rng "1" "9"]; [rng "1" "9"] ].
Definition re_Y : list (list CharClass) := [ [digit; digit; digit; digit] ].
Definition re_dot : list (list CharClass) := [ [one "."] ].

(** What a match found: the three groups and the data after the match. *)
Record Found := mkFound { d : str; m : str; Y : str; unconverted : str }.

(** Every way the whole pattern matches, in the order a backtracking
    matcher meets them. *)
Definition matches (data : str) : list Found :=
  flat_map (fun '(d, r1) =>
  flat_map (fun '(_, r2) =>
  flat_map (fun '(m, r3) =>
  flat_map (fun '(_, r4) =>
  map (fun '(Y, r5) => mkFound d m Y r5)
    (match_group re_Y r4))
    (match_group re_dot r3))
    (match_group re_m r2))
    (match_group re_dot r1))
    (match_group re_d data).

(** [format_regex.match(data)]: the first of them. *)
Definition regex_match (data : str) : option Found := head (matches data).

Definition strptime_dmY (data : str) : Result datetime :=
  match regex_match data with
  | None => inl (Raise ValueError (TimeDataMismatch data))
  | Some found =>
      match unconverted found with
      | _ :: _ =>
          raise ValueError (lit "unconverted data remains: " ++ unconverted found)
      | [] =>
          let year := int_of_digits (Y found) in
          let month := int_of_digits (m found) in
          let day := int_of_digits (d found) in
          (try _ := check_date_fields year month day in
           ok (mkdatetime year month day 0 0 0 0))%result
      end
  end.

End Strptime.

Definition strptime_dmY := Strptime.strptime_dmY.

(** ** Field values

    A [Name], [Phone] or [Birthday] object only ever holds the string it
    was built from and is never shared, so it is represented by that
    string; the constructors return it or raise. *)

Definition is_valid_phone (phone : str) : bool :=
  str_isdigit phone && Nat.eqb (length phone) 10.

Definition Phone (value : str) : Result str :=
  if negb (is_valid_phone value) then
    raise ValueError (lit "Invalid phone number format. Phone should consist of 10 digits.")
  else ok value.

Definition Birthday (value : str) : Result str :=
  match strptime_dmY value with
  | inr _ => ok value
  | inl e =>
      match exn_class e with
      | ValueError => raise ValueError (lit "Invalid date format. Use DD.MM.YYYY")
      | _ => inl e
      end
  end.

(** ** Objects and the world

    A [Record] object is mutable and reachable both from the address
    book and from whoever holds a reference to it, so records live in a
    heap and are passed around by address. *)

(** The state of one [Record] object. *)
Record RecordState := mkRecord {
  name : str;
  phones : list str;
  birthday : option str
}.

Global Instance RecordState_inhabited : Inhabited RecordState :=
  populate (mkRecord [] [] None).

(** The world a command runs in: the [Record] objects, the [data]
    dictionary of the address book (an insertion-ordered association
    list from names to records), and the wall clock, of which [ticks]
    readings have been taken so far. *)
Record World := mkWorld {
  heap : list RecordState;
  data : list (str * nat);
  clock : nat -> datetime;
  ticks : nat
}.

Definition with_heap (h : list RecordState) (w : World) : World :=
  mkWorld h (data w) (clock w) (ticks w).
Definition with_data (d : list (str * nat)) (w : World) : World :=
  mkWorld (heap w) d (clock w) (ticks w).
Definition with_ticks (t : nat) (w : World) : World :=
  mkWorld (heap w) (data w) (clock w) t.

(** A computation: it returns or raises, and leaves a world behind
    either way (what was mutated before a [raise] stays mutated). *)
Definition M (A : Type) : Type := World -> Result A * World.

Definition ret {A} (a : A) : M A := fun w => (inr a, w).
Definition throw {A} (c : ExnClass) (m : str) : M A := fun w => (raise c m, w).
Definition lift {A} (r : Result A) : M A := fun w => (r, w).
Definition bind {A B} (c : M A) (k : A -> M B) : M B :=
  fun w => match c w with
           | (inl e, w') => (inl e, w')
           | (inr a, w') => k a w'
           end.

Declare Scope py_scope.
Delimit Scope py_scope with py.
Notation "x <- c ;; k" := (bind c (fun x => k))
  (at level 100, c at next level, right associativity) : py_scope.
Notation "c ;; k" := (bind c (fun _ => k))
  (at level 100, right associativity) : py_scope.
Local Open Scope py_scope.

(** The object at an address.  Every address the program holds is that
    of an object; outside the heap, where no run of the program looks,
    the lookup yields an empty record and the update does nothing. *)
Definition get_record (self : nat) : M RecordState :=
  fun w => (inr (heap w !!! self), w).

Definition set_record (self : nat) (r : RecordState) : M unit :=
  fun w => (inr tt, with_heap (<[self := r]> (heap w)) w).

(** [datetime.today()]: one more reading of the clock. *)
Definition datetime_today : M datetime :=
  fun w => (inr (clock w (ticks w)), with_ticks (S (ticks w)) w).

(** ** class Record *)

Module Rec.

(** [Record(name)]: a fresh object. *)
Definition init (name : str) : M nat :=
  fun w => (inr (length (heap w)),
            with_heap (heap w ++ [mkRecord name [] None]) w).

Definition add_phone (self : nat) (phone : str) : M unit :=
  p <- lift (Phone phone) ;;
  r <- get_record self ;;
  set_record self (mkRecord (name r) (phones r ++ [p]) (birthday r)).

(** The loop of [remove_phone]; [i] is the position of the head of [ps]
    in [self.phones].  [self.phones.remove(p)] removes the object [p]
    itself, the one at position [i]. *)
Fixpoint remove_phone_loop (self : nat) (phone : str) (i : nat) (ps : list str)
  : M (option nat) :=
  match ps with
  | [] => ret None
  | p :: ps' =>
      if decide (p = phone) then
        r <- get_record self ;;
        set_record self (mkRecord (name r) (delete i (phones r)) (birthday r)) ;;
        ret (Some self)
      else remove_phone_loop self phone (S i) ps'
  end.

Definition remove_phone (self : nat) (phone : str) : M (option nat) :=
  r <- get_record self ;;
  remove_phone_loop self phone 0 (phones r).

(** The loop of [edit_phone] over [enumerate(self.phones)]. *)
Fixpoint edit_phone_loop (self : nat) (old_phone new_phone : str) (i : nat)
                         (ps : list str) : M nat :=
  match ps with
  | [] => throw ValueError (lit "Phone number not found")
  | p :: ps' =>
      if decide (p = old_phone) then
        v <- lift (Phone new_phone) ;;
        r <- get_record self ;;
        set_record self (mkRecord (name r) (<[i := v]> (phones r)) (birthday r)) ;;
        ret self
      else edit_phone_loop self old_phone new_phone (S i) ps'
  end.

Definition edit_phone (self : nat) (old_phone new_phone : str) : M nat :=
  r <- get_record self ;;
  edit_phone_loop self old_phone new_phone 0 (phones r).

Definition add_birthday (self : nat) (birthday : str) : M unit :=
  b <- lift (Birthday birthday) ;;
  r <- get_record self ;;
  set_record self (mkRecord (name r) (phones r) (Some b)).

Definition get_days_to_birthday (self : nat) : M (option Z) :=
  r <- get_record self ;;
  match birthday r with
  | Some value =>
      today <- datetime_today ;;
      birthday_date <- lift (strptime_dmY value) ;;
      next_birthday <- lift (replace_year birthday_date (year today)) ;;
      next_birthday <-
        (if lt next_birthday today
         then lift (replace_year next_birthday (year today + 1))
         else ret next_birthday) ;;
      ret (Some (sub_days next_birthday today))
  | None => ret None
  end.

End Rec.

(** ** class AddressBook *)

(** [d[k] = v] on an insertion-ordered dictionary: an existing key keeps
    its place, a new one goes last. *)
Fixpoint dict_set (k : str) (v : nat) (d : list (str * nat)) : list (str * nat) :=
  match d with
  | [] => [(k, v)]
  | (k', v') :: d' =>
      if decide (k' = k) then (k', v) :: d' else (k', v') :: dict_set k v d'
  end.

(** [d.get(k, None)] *)
Fixpoint dict_get (k : str) (d : list (str * nat)) : option nat :=
  match d with
  | [] => None
  | (k', v') :: d' => if decide (k' = k) then Some v' else dict_get k d'
  end.

(** One item of the list [get_upcoming_birthdays] returns. *)
Record Entry := mkEntry { entry_name : str; entry_birthday : str }.

Module AddressBook.

Definition add_record (record : nat) : M unit :=
  r <- get_record record ;;
  fun w => (inr tt, with_data (dict_set (name r) record (data w)) w).

Definition find (name : str) : M (option nat) :=
  fun w => (inr (dict_get name (data w)), w).

(** The loop of [get_upcoming_birthdays] over [self.data.values()]. *)
Fixpoint upcoming_loop (today : datetime) (days : Z) (records : list nat)
                       (upcoming_birthdays : list Entry) : M (list Entry) :=
  match records with
  | [] => ret upcoming_birthdays
  | record :: rest =>
      r <- get_record record ;;
      match birthday r with
      | Some value =>
          days_to_birthday <- Rec.get_days_to_birthday record ;;
          match days_to_birthday with
          | Some n =>
              if n <=? days then
                birthday_date <- lift (strptime_dmY value) ;;
                next_birthday <- lift (replace_year birthday_date (year today)) ;;
                next_birthday <-
                  (if lt next_birthday today
                   then lift (replace_year next_birthday (year today + 1))
                   else ret next_birthday) ;;
                next_birthday <-
                  (if weekday next_birthday =? 5
                   then lift (add_days 2 next_birthday)
                   else if weekday next_birthday =? 6
                   then lift (add_days 1 next_birthday)
                   else ret next_birthday) ;;
                upcoming_loop today days rest
                  (upcoming_birthdays ++
                   [mkEntry (name r) (strftime_dmY next_birthday)])
              else upcoming_loop today days rest upcoming_birthdays
          | None => upcoming_loop today days rest upcoming_birthdays
          end
      | None => upcoming_loop today days rest upcoming_birthdays
      end
  end.

Definition get_upcoming_birthdays (days : Z) : M (list Entry) :=
  today <- datetime_today ;;
  fun w => upcoming_loop today days (map snd (data w)) [] w.

End AddressBook.

(** ** The command handlers *)

Section Handlers.

(** [repr] of a string, and of a [Record] object (which shows its
    address in memory): neither is fixed by the program. *)
Variable repr_str : str -> str.
Variable repr_object : nat -> str.

(** The decorator: the three exception classes become the handler's
    answer, anything else goes through. *)
Definition input_error (handler : list str -> M str) : list str -> M str :=
  fun args w =>
    match handler args w with
    | (inl e, w') =>
        match exn_class e with
        | KeyError | ValueError | IndexError => (inr (exn_str repr_str e), w')
        | _ => (inl e, w')
        end
    | (inr answer, w') => (inr answer, w')
    end.

Definition not_enough_values (at_least : bool) (expected got : nat) : str :=
  lit "not enough values to unpack (expected " ++
  (if at_least then lit "at least " else []) ++
  str_of_nat expected ++ lit ", got " ++ str_of_nat got ++ lit ")".

Definition too_many_values (expected : nat) : str :=
  lit "too many values to unpack (expected " ++ str_of_nat expected ++ lit ")".

(** The functions the decorator is applied to. *)

Definition add_contact__wrapped (args : list str) : M str :=
  match args with
  | name :: phone :: _ =>
      found <- AddressBook.find name ;;
      rm <- match found with
            | None =>
                record <- Rec.init name ;;
                AddressBook.add_record record ;;
                ret (record, lit "Contact added.")
            | Some record => ret (record, lit "Contact updated.")
            end ;;
      match phone with
      | _ :: _ => Rec.add_phone (fst rm) phone
      | [] => ret tt
      end ;;
      ret (snd rm)
  | _ => throw ValueError (not_enough_values true 2 (length args))
  end.

Definition change_contact__wrapped (args : list str) : M str :=
  match args with
  | [name; old_phone; new_phone] =>
      record <- AddressBook.find name ;;
      match record with
      | Some record =>
          Rec.edit_phone record old_phone new_phone ;;
          ret (lit "Phone number updated for " ++ name ++ lit ".")
      | None => ret (lit "Contact not found.")
      end
  | _ :: _ :: _ :: _ :: _ => throw ValueError (too_many_values 3)
  | _ => throw ValueError (not_enough_values false 3 (length args))
  end.

Definition show_phone__wrapped (args : list str) : M str :=
  match args with
  | name :: _ =>
      record <- AddressBook.find name ;;
      match record with
      | Some record =>
          r <- get_record record ;;
          ret (join (lit ", ") (phones r))
      | None => ret (lit "Contact not found.")
      end
  | [] => throw IndexError (lit "list index out of range")
  end.

(** [str(book)] is the [repr] of the dictionary. *)
Definition show_all__wrapped (args : list str) : M str :=
  fun w =>
    (inr (lit "{" ++
          join (lit ", ")
               (map (fun kv => repr_str (fst kv) ++ lit ": " ++ repr_object (snd kv))
                    (data w)) ++
          lit "}"), w).

Definition add_birthday__wrapped (args : list str) : M str :=
  match args with
  | [name; birthday] =>
      record <- AddressBook.find name ;;
      match record with
      | Some record =>
          Rec.add_birthday record birthday ;;
          ret (lit "Birthday added for " ++ name ++ lit ".")
      | None => ret (lit "Contact not found.")
      end
  | _ :: _ :: _ :: _ => throw ValueError (too_many_values 2)
  | _ => throw ValueError (not_enough_values false 2 (length args))
  end.

Definition show_birthday__wrapped (args : list str) : M str :=
  match args with
  | name :: _ =>
      record <- AddressBook.find name ;;
      match record with
      | Some record =>
          r <- get_record record ;;
          match birthday r with
          | Some value => ret value
          | None => ret (lit "Contact or birthday not found.")
          end
      | None => ret (lit "Contact or birthday not found.")
      end
  | [] => throw IndexError (lit "list index out of range")
  end.

Definition birthdays__wrapped (args : list str) : M str :=
  upcoming_birthdays <- AddressBook.get_upcoming_birthdays 7 ;;
  match upcoming_birthdays with
  | [] => ret (lit "No birthdays in the next 7 days.")
  | _ :: _ =>
      ret (join (lit (String "010" EmptyString))
             (map (fun item => entry_name item ++ lit ": " ++ entry_birthday item)
                  upcoming_birthdays))
  end.

(** The handlers as the program defines them. *)
Definition add_contact := input_error add_contact__wrapped.
Definition change_contact := input_error change_contact__wrapped.
Definition show_phone := input_error show_phone__wrapped.
Definition show_all := input_error show_all__wrapped.
Definition add_birthday := input_error add_birthday__wrapped.
Definition show_birthday := input_error show_birthday__wrapped.
Definition birthdays := input_error birthdays__wrapped.

Inductive Handler :=
| AddContact | ChangeContact | ShowPhone | ShowAll
| AddBirthday | ShowBirthday | Birthdays.

Definition wrapped (h : Handler) : list str -> M str :=
  match h with
  | AddContact => add_contact__wrapped
  | ChangeContact => change_contact__wrapped
  | ShowPhone => show_phone__wrapped
  | ShowAll => show_all__wrapped
  | AddBirthday => add_birthday__wrapped
  | ShowBirthday => show_birthday__wrapped
  | Birthdays => birthdays__wrapped
  end.

Definition handler (h : Handler) : list str -> M str := input_error (wrapped h).

End Handlers.

(** ** Splitting on whitespace *)

(** The code points [str.isspace] accepts, which are the separators of
    [str.split()] (Unicode 14.0), as inclusive ranges. *)
Definition whitespace_ranges : list (N * N) :=
[
  (9, 13); (28, 32); (133, 133); (160, 160); (5760, 5760); (8192, 8202);
  (8232, 8233); (8239, 8239); (8287, 8287); (12288, 12288)
]%N.

Definition isspace (c : N) : bool := Unicode.in_ranges whitespace_ranges c.

(** The string without its leading whitespace. *)
Fixpoint skip_whitespace (s : str) : str :=
  match s with
  | [] => []
  | c :: s' => if isspace c then skip_whitespace s' else s
  end.

(** The longest prefix without whitespace, and what follows it. *)
Fixpoint word_and_rest (s : str) : str * str :=
  match s with
  | [] => ([], [])
  | c :: s' =>
      if isspace c then ([], s)
      else (c :: fst (word_and_rest s'), snd (word_and_rest s'))
  end.

(** [s.split()]: the words of [s], runs of whitespace being the
    separators.  [fuel] bounds the number of words; the length of [s]
    is enough. *)
Fixpoint split_words (fuel : nat) (s : str) : list str :=
  match fuel with
  | O => []
  | S fuel' =>
      match skip_whitespace s with
      | [] => []
      | c :: s' =>
          fst (word_and_rest (c :: s')) ::
          split_words fuel' (snd (word_and_rest (c :: s')))
      end
  end.

Definition str_split (s : str) : list str := split_words (length s) s.

(** [s.split(maxsplit=1)]: the first word, and what follows the
    whitespace after it, if anything does; whitespace at the end of that
    rest is kept. *)
Definition str_split_maxsplit_1 (s : str) : list str :=
  match skip_whitespace s with
  | [] => []
  | c :: s' =>
      fst (word_and_rest (c :: s')) ::
      match skip_whitespace (snd (word_and_rest (c :: s'))) with
      | [] => []
      | rest => [rest]
      end
  end.

(** ** The console *)

(** What the program does to the outside, in the order it does it:
    [print] a text, prompt for a line with [input], and hand the book
    to [save_data].  The file [save_data] writes is outside the model:
    the event keeps the objects and the dictionary as they are at the
    call, and the call is taken to return. *)
Inductive Event :=
| Printed (text : str)
| Prompted (prompt : str)
| Saved (objects : list RecordState) (book : list (str * nat)).

(** [Record.__str__] *)
Definition Record_str_name : str :=
  [
   1030; 1084; 39; 1103; 58; 32
  ]%N.
Definition Record_str_phones : str :=
  [
   44; 32; 1058; 1077; 1083; 1077; 1092; 1086; 1085; 1080; 58; 32
  ]%N.
Definition Record_str_birthday : str :=
  [
   44; 32; 1044; 1077; 1085; 1100; 32; 1085; 1072; 1088; 1086; 1076; 1078;
   1077; 1085; 1085; 1103; 58; 32
  ]%N.

Definition Record_str (r : RecordState) : str :=
  Record_str_name ++ name r ++
  Record_str_phones ++ join (lit ", ") (phones r) ++
  Record_str_birthday ++
  match birthday r with
  | Some value => value
  | None => lit "N/A"
  end.

(** The text of [ConsoleInterface.show_help]. *)
Definition help_message : str :=
  [
   10; 32; 32; 32; 32; 32; 32; 32; 32; 1057; 1087; 1080; 1089; 1086; 1082;
   32; 1076; 1086; 1089; 1090; 1091; 1087; 1085; 1080; 1093; 32; 1082; 1086;
   1084; 1072; 1085; 1076; 58; 10; 32; 32; 32; 32; 32; 32; 32; 32; 45; 32;
   104; 101; 108; 108; 111; 58; 32; 1055; 1088; 1080; 1074; 1110; 1090; 1072;
   1085; 1085; 1103; 10; 32; 32; 32; 32; 32; 32; 32; 32; 45; 32; 97; 100;
   100; 32; 60; 1110; 1084; 39; 1103; 62; 32; 60; 1090; 1077; 1083; 1077;
   1092; 1086; 1085; 62; 58; 32; 1044; 1086; 1076; 1072; 1090; 1080; 32;
   1085; 1086; 1074; 1080; 1081; 32; 1082; 1086; 1085; 1090; 1072; 1082;
   1090; 10; 32; 32; 32; 32; 32; 32; 32; 32; 45; 32; 99; 104; 97; 110; 103;
   101; 32; 60; 1110; 1084; 39; 1103; 62; 32; 60; 1089; 1090; 1072; 1088;
   1080; 1081; 32; 1090; 1077; 1083; 1077; 1092; 1086; 1085; 62; 32; 60;
   1085; 1086; 1074; 1080; 1081; 32; 1090; 1077; 1083; 1077; 1092; 1086;
   1085; 62; 58; 32; 1047; 1084; 1110; 1085; 1080; 1090; 1080; 32; 1085;
   1086; 1084; 1077; 1088; 32; 1090; 1077; 1083; 1077; 1092; 1086; 1085;
   1091; 32; 1082; 1086; 1085; 1090; 1072; 1082; 1090; 1091; 10; 32; 32; 32;
   32; 32; 32; 32; 32; 45; 32; 112; 104; 111; 110; 101; 32; 60; 1110; 1084;
   39; 1103; 62; 58; 32; 1055; 1086; 1082; 1072; 1079; 1072; 1090; 1080; 32;
   1085; 1086; 1084; 1077; 1088; 1080; 32; 1090; 1077; 1083; 1077; 1092;
   1086; 1085; 1091; 32; 1082; 1086; 1085; 1090; 1072; 1082; 1090; 1091; 10;
   32; 32; 32; 32; 32; 32; 32; 32; 45; 32; 97; 108; 108; 58; 32; 1055; 1086;
   1082; 1072; 1079; 1072; 1090; 1080; 32; 1074; 1089; 1110; 32; 1082; 1086;
   1085; 1090; 1072; 1082; 1090; 1080; 10; 32; 32; 32; 32; 32; 32; 32; 32;
   45; 32; 97; 100; 100; 45; 98; 105; 114; 116; 104; 100; 97; 121; 32; 60;
   1110; 1084; 39; 1103; 62; 32; 60; 1076; 1072; 1090; 1072; 62; 58; 32;
   1044; 1086; 1076; 1072; 1090; 1080; 32; 1076; 1077; 1085; 1100; 32; 1085;
   1072; 1088; 1086; 1076; 1078; 1077; 1085; 1085; 1103; 32; 1082; 1086;
   1085; 1090; 1072; 1082; 1090; 1091; 32; 40; 1092; 1086; 1088; 1084; 1072;
   1090; 32; 1076; 1072; 1090; 1080; 58; 32; 68; 68; 46; 77; 77; 46; 89; 89;
   89; 89; 41; 10; 32; 32; 32; 32; 32; 32; 32; 32; 45; 32; 115; 104; 111;
   119; 45; 98; 105; 114; 116; 104; 100; 97; 121; 32; 60; 1110; 1084; 39;
   1103; 62; 58; 32; 1055; 1086; 1082; 1072; 1079; 1072; 1090; 1080; 32;
   1076; 1077; 1085; 1100; 32; 1085; 1072; 1088; 1086; 1076; 1078; 1077;
   1085; 1085; 1103; 32; 1082; 1086; 1085; 1090; 1072; 1082; 1090; 1091; 10;
   32; 32; 32; 32; 32; 32; 32; 32; 45; 32; 98; 105; 114; 116; 104; 100; 97;
   121; 115; 58; 32; 1055; 1086; 1082; 1072; 1079; 1072; 1090; 1080; 32;
   1082; 1086; 1085; 1090; 1072; 1082; 1090; 1080; 32; 1079; 32; 1076; 1085;
   1103; 1084; 1080; 32; 1085; 1072; 1088; 1086; 1076; 1078; 1077; 1085;
   1085; 1103; 32; 1091; 32; 1085; 1072; 1081; 1073; 1083; 1080; 1078; 1095;
   1110; 32; 55; 32; 1076; 1085; 1110; 1074; 10; 32; 32; 32; 32; 32; 32; 32;
   32; 45; 32; 99; 108; 111; 115; 101; 47; 101; 120; 105; 116; 58; 32; 1042;
   1080; 1081; 1090; 1080; 32; 1079; 32; 1087; 1088; 1086; 1075; 1088; 1072;
   1084; 1080; 10; 32; 32; 32; 32; 32; 32; 32; 32
  ]%N.

Module ConsoleInterface.

Definition show_message (message : str) : list Event := [Printed message].

Definition show_contacts (contacts : list RecordState) : list Event :=
  map (fun contact => Printed (Record_str contact)) contacts.

Definition show_help : list Event := [Printed help_message].

End ConsoleInterface.

(** ** The command loop *)

(** How a run of the program ends: [main] returns, or an exception
    leaves it; [EOFError] is what [input] raises when there is no line
    left to read. *)
Inductive Ending :=
| Returned
| Raised (e : Exn)
| EOFError.

Record Run := mkRun {
  ending : Ending;
  events : list Event;
  final : World
}.

(** A run after the events [es]. *)
Definition after (es : list Event) (r : Run) : Run :=
  mkRun (ending r) (es ++ events r) (final r).

Section CommandLoop.

Variable repr_str : str -> str.

(** [str.lower], whose case mapping is not modelled. *)
Variable lower : str -> str.

(** [process_command]: what it shows, and whether the loop goes on. *)
Definition process_command (command args : str) : M (list Event * bool) :=
  if decide (command = lit "hello") then
    ret (ConsoleInterface.show_message (lit "How can I help you?"), true)
  else if decide (command = lit "add") then
    answer <- add_contact repr_str (str_split args) ;;
    ret (ConsoleInterface.show_message answer, true)
  else if decide (command = lit "change") then
    answer <- change_contact repr_str (str_split args) ;;
    ret (ConsoleInterface.show_message answer, true)
  else if decide (command = lit "phone") then
    answer <- show_phone repr_str (str_split args) ;;
    ret (ConsoleInterface.show_message answer, true)
  else if decide (command = lit "all") then
    fun w =>
      (inr (ConsoleInterface.show_contacts (map (fun a => heap w !!! a) (map snd (data w))),
            true), w)
  else if decide (command = lit "add-birthday") then
    answer <- add_birthday repr_str (str_split args) ;;
    ret (ConsoleInterface.show_message answer, true)
  else if decide (command = lit "show-birthday") then
    answer <- show_birthday repr_str (str_split args) ;;
    ret (ConsoleInterface.show_message answer, true)
  else if decide (command = lit "birthdays") then
    answer <- birthdays repr_str (str_split args) ;;
    ret (ConsoleInterface.show_message answer, true)
  else if decide (command = lit "help") then
    ret (ConsoleInterface.show_help, true)
  else if decide (command ∈ [lit "close"; lit "exit"]) then
    fun w =>
      (inr (ConsoleInterface.show_message (lit "Good bye!") ++ [Saved (heap w) (data w)],
            false), w)
  else
    ret (ConsoleInterface.show_message
           (lit "Invalid command. Use 'help' to see available commands."), true).

(** The second line of the loop of [main]: the command and its
    arguments, from a line that has been put in lower case.  Unpacking
    the list [split] returns raises when it has not two items. *)
Definition command_and_args (user_input : str) : Result (str * str) :=
  if existsb (N.eqb 32) user_input then
    match str_split_maxsplit_1 user_input with
    | [command; args] => ok (command, args)
    | _ :: _ :: _ :: _ => raise ValueError (too_many_values 2)
    | items => raise ValueError (not_enough_values false 2 (length items))
    end
  else ok (user_input, []).

(** The loop of [main] on the lines [input] will return, one after the
    other. *)
Fixpoint main_loop (lines : list str) (w : World) : Run :=
  match lines with
  | [] => mkRun EOFError [Prompted (lit "Enter a command: ")] w
  | line :: lines' =>
      after [Prompted (lit "Enter a command: ")]
        match command_and_args (lower line) with
        | inl e => mkRun (Raised e) [] w
        | inr (command, args) =>
            match process_command command args w with
            | (inl e, w') => mkRun (Raised e) [] w'
            | (inr (shown, true), w') => after shown (main_loop lines' w')
            | (inr (shown, false), w') => mkRun Returned shown w'
            end
        end
  end.

(** [main], with the book [load_data] returned. *)
Definition main (lines : list str) (book : World) : Run :=
  after (ConsoleInterface.show_message (lit "Welcome to the assistant bot!"))
        (main_loop lines book).

End CommandLoop.

(** * Specification

    The notions the properties are stated with: what the specification
    calls a valid phone or date, the invariant of the address book, the
    worlds the program can reach, and the steps of the birthday
    computation by name. *)

(** ** Messages *)

Definition invalid_phone_message : str :=
  lit "Invalid phone number format. Phone should consist of 10 digits.".

Definition invalid_date_message : str := lit "Invalid date format. Use DD.MM.YYYY".

Definition not_found_message : str := lit "Phone number not found".

Definition day_out_of_range : Exn :=
  Raise ValueError (Text (lit "day is out of range for month")).

(** ** Phone numbers *)

(** Ten characters, each a digit for [str.isdigit]. *)
Definition ten_digits (s : str) : Prop :=
  length s = 10%nat /\ Forall (fun c => Unicode.isdigit c = true) s.

(** Ten characters, each one of the ASCII digits [0] to [9]. *)
Definition ten_ascii_digits (s : str) : Prop :=
  length s = 10%nat /\ Forall (fun c => Unicode.is_ascii_digit c = true) s.

(** ** Records *)

(** The first position of [x] in [l]. *)
Definition first_at (x : str) (l : list str) (i : nat) : Prop :=
  l !! i = Some x /\ forall j, (j < i)%nat -> l !! j <> Some x.

(** What a method of a record leaves alone: the address book and the
    clock. *)
Definition same_book (w w' : World) : Prop :=
  data w' = data w /\ clock w' = clock w /\ ticks w' = ticks w.

(** ** The invariant of the address book

    Every key of the dictionary is the name of the record it maps to
    (the record being an object of the heap), and, as in any dictionary,
    no key occurs twice. *)

Definition keys_equal_names (w : World) : Prop :=
  forall k record, (k, record) ∈ data w ->
    (record < length (heap w))%nat /\ name (heap w !!! record) = k.

Definition book_invariant (w : World) : Prop :=
  NoDup (map fst (data w)) /\ keys_equal_names w.

(** What every operation guarantees about the heap: objects stay, and
    they keep their names. *)
Definition names_stable (w w' : World) : Prop :=
  (length (heap w) <= length (heap w'))%nat /\
  forall record, (record < length (heap w))%nat ->
    name (heap w' !!! record) = name (heap w !!! record).

(** A computation that leaves the dictionary alone and keeps the names
    of the objects. *)
Definition stable {A} (c : M A) : Prop :=
  forall w, names_stable w (snd (c w)) /\ data (snd (c w)) = data w.

(** A computation that only reads the clock. *)
Definition read_only {A} (c : M A) : Prop :=
  forall w, heap (snd (c w)) = heap w /\ data (snd (c w)) = data w /\
            clock (snd (c w)) = clock w.

(** ** The worlds the program can be in

    One step is one call of the program's interface on objects that
    exist: creating a record, a method of a record, a method of the
    address book, or a command handler. *)
Inductive step : World -> World -> Prop :=
| step_Record nm w :
    step w (snd (Rec.init nm w))
| step_add_phone self phone w :
    (self < length (heap w))%nat -> step w (snd (Rec.add_phone self phone w))
| step_remove_phone self phone w :
    (self < length (heap w))%nat -> step w (snd (Rec.remove_phone self phone w))
| step_edit_phone self old_phone new_phone w :
    (self < length (heap w))%nat ->
    step w (snd (Rec.edit_phone self old_phone new_phone w))
| step_add_birthday self value w :
    (self < length (heap w))%nat -> step w (snd (Rec.add_birthday self value w))
| step_get_days_to_birthday self w :
    (self < length (heap w))%nat -> step w (snd (Rec.get_days_to_birthday self w))
| step_add_record record w :
    (record < length (heap w))%nat -> step w (snd (AddressBook.add_record record w))
| step_find nm w :
    step w (snd (AddressBook.find nm w))
| step_get_upcoming_birthdays days w :
    step w (snd (AddressBook.get_upcoming_birthdays days w))
| step_handler repr_str repr_object h args w :
    step w (snd (handler repr_str repr_object h args w)).

(** The program starts from an empty address book and no record. *)
Inductive reachable : World -> Prop :=
| reachable_empty clk t : reachable (mkWorld [] [] clk t)
| reachable_step w w' : reachable w -> step w w' -> reachable w'.

(** ** The handler boundary *)

(** A computation whose exceptions are all of the classes [input_error]
    catches (no [KeyError] is ever raised by the program). *)
Definition raises_caught {A} (c : M A) : Prop :=
  forall w e w', c w = (inl e, w') ->
    exn_class e = ValueError \/ exn_class e = IndexError.

(** ** Birthdays

    [get_days_to_birthday] and the loop of [get_upcoming_birthdays] both
    spell out the same steps, which are named here. *)

(** The next occurrence of a birthday seen from [today]: the one of
    this year, or the one of next year when this year's is before
    [today]. *)
Definition next_occurrence (today birthday_date : datetime) : Result datetime :=
  (try this_year := replace_year birthday_date (year today) in
   if lt this_year today then replace_year this_year (year today + 1)
   else ok this_year)%result.

(** The day count [get_days_to_birthday] returns for a birthday when the
    clock reads [now]. *)
Definition days_until (now : datetime) (value : str) : Result Z :=
  (try birthday_date := strptime_dmY value in
   try next_birthday := next_occurrence now birthday_date in
   ok (sub_days next_birthday now))%result.

(** The year [get_days_to_birthday] settles on for a birthday on day
    [d] of month [m]: the year of [today], or the next one when this
    year's date is already before [today]. *)
Definition target_year (today : datetime) (m d : Z) : Z :=
  if lt (mkdatetime (year today) m d 0 0 0 0) today then year today + 1
  else year today.

(** Saturday moves two days on, Sunday one. *)
Definition weekend_shift (d : datetime) : Result datetime :=
  if weekday d =? 5 then add_days 2 d
  else if weekday d =? 6 then add_days 1 d
  else ok d.

(** What one record with birthday [value] adds to the list, [today]
    being the reading [get_upcoming_birthdays] took and [now] the one
    [get_days_to_birthday] takes for this record. *)
Definition upcoming_entry (today now : datetime) (days : Z) (nm value : str)
  : Result (option Entry) :=
  (try n := days_until now value in
   if n <=? days then
     try birthday_date := strptime_dmY value in
     try next_birthday := next_occurrence today birthday_date in
     try shifted := weekend_shift next_birthday in
     ok (Some (mkEntry nm (strftime_dmY shifted)))
   else ok None)%result.

(** The world after one more reading of the clock. *)
Definition tick (w : World) : World := with_ticks (S (ticks w)) w.

(** The list [get_upcoming_birthdays] builds from the records [rs], in
    their order: [today] is the reading of the clock it took itself and
    [clk t] the one the first record with a birthday will get for its
    day count, [clk (S t)] the next one's, and so on. *)
Fixpoint upcoming_of (today : datetime) (clk : nat -> datetime) (t : nat)
                     (days : Z) (rs : list RecordState) : Result (list Entry) :=
  match rs with
  | [] => ok []
  | r :: rest =>
      match birthday r with
      | None => upcoming_of today clk t days rest
      | Some value =>
          (try entry := upcoming_entry today (clk t) days (name r) value in
           try entries := upcoming_of today clk (S t) days rest in
           ok (match entry with
               | Some e => e :: entries
               | None => entries
               end))%result
      end
  end.

Definition has_birthday (w : World) (record : nat) : bool :=
  match birthday (heap w !!! record) with
  | Some _ => true
  | None => false
  end.

(** The world in which the loop of [get_upcoming_birthdays], started in
    [w], asks the record that follows the records [pre] for its days:
    the clock has been read once by [get_upcoming_birthdays] and once
    for every record of [pre] with a birthday. *)
Definition asked_after (w : World) (pre : list nat) : World :=
  with_ticks (S (ticks w) + length (List.filter (has_birthday w) pre)) w.

(** The form [DD.MM.YYYY]: ten characters, ASCII digits but for the two
    dots. *)
Definition is_DD_MM_YYYY (s : str) : Prop :=
  exists d1 d2 m1 m2 y1 y2 y3 y4,
    s = [d1; d2; 46; m1; m2; 46; y1; y2; y3; y4]%N /\
    Forall (fun c => Unicode.is_ascii_digit c = true) [d1; d2; m1; m2; y1; y2; y3; y4].

(** [reported] is [next_birthday] after the weekend shift: two days
    later than a Saturday, one day later than a Sunday, the same day
    from Monday to Friday; it is never a Saturday or a Sunday. *)
Definition weekend_shifted (next_birthday reported : datetime) : Prop :=
  (weekday next_birthday = 5 ->
     add_days 2 next_birthday = inr reported /\
     toordinal reported = toordinal next_birthday + 2) /\
  (weekday next_birthday = 6 ->
     add_days 1 next_birthday = inr reported /\
     toordinal reported = toordinal next_birthday + 1) /\
  (0 <= weekday next_birthday <= 4 -> reported = next_birthday) /\
  0 <= weekday reported <= 4.

(** [reported] is the date reported for the birthday [value] when the
    clock of [get_upcoming_birthdays] reads [today]: the next
    occurrence, after the weekend shift. *)
Definition reported_for (today : datetime) (value : str) (reported : datetime) : Prop :=
  exists birthday_date next_birthday,
    strptime_dmY value = inr birthday_date /\
    next_occurrence today birthday_date = inr next_birthday /\
    weekend_shifted next_birthday reported.

(** [s] is the date [d] written as [DD.MM.YYYY], so that [strptime]
    reads it back as [d]. *)
Definition written_DD_MM_YYYY (d : datetime) (s : str) : Prop :=
  is_DD_MM_YYYY s /\
  strptime_dmY s = inr (mkdatetime (year d) (month d) (day d) 0 0 0 0).

(** ** The birthday strings [strptime] accepts *)

(** A day field: one digit from 1 to 9, alone or after a zero or a
    blank; or 1 or 2 and any decimal digit; or 30 or 31. *)
Definition is_day_field (f : str) : bool :=
  match f with
  | [c] => Strptime.rng "1" "9" c
  | [a; b] =>
      (Strptime.one "3" a && Strptime.rng "0" "1" b) ||
      (Strptime.rng "1" "2" a && Unicode.isdecimal b) ||
      (Strptime.one "0" a && Strptime.rng "1" "9" b) ||
      (Strptime.one " " a && Strptime.rng "1" "9" b)
  | _ => false
  end.

(** A month field: one digit from 1 to 9, alone or after a zero; or 10,
    11 or 12. *)
Definition is_month_field (f : str) : bool :=
  match f with
  | [c] => Strptime.rng "1" "9" c
  | [a; b] =>
      (Strptime.one "1" a && Strptime.rng "0" "2" b) ||
      (Strptime.one "0" a && Strptime.rng "1" "9" b)
  | _ => false
  end.

(** A year field: four decimal digits. *)
Definition is_year_field (f : str) : bool :=
  Nat.eqb (length f) 4 && forallb Unicode.isdecimal f.

(** [value] is a day field, a dot, a month field, a dot and a year
    field, and the three read as the numbers [d], [m] and [y]. *)
Definition reads_as (value : str) (y m d : Z) : Prop :=
  exists fd fm fy,
    value = fd ++ lit "." ++ fm ++ lit "." ++ fy /\
    is_day_field fd = true /\ is_month_field fm = true /\ is_year_field fy = true /\
    d = int_of_digits fd /\ m = int_of_digits fm /\ y = int_of_digits fy.

(** Day [d] of month [m] of year [y] exists. *)
Definition real_date (y m d : Z) : Prop :=
  MINYEAR <= y <= MAXYEAR /\ 1 <= m <= 12 /\ 1 <= d <= days_in_month y m.

(** The strings [Birthday] accepts. *)
Definition denotes_a_date (value : str) : Prop :=
  exists y m d, reads_as value y m d /\ real_date y m d.

(** ** Example worlds *)

(** Saturday 1 March 2025, at noon, whenever the clock is read. *)
Definition noon_1_march_2025 : nat -> datetime :=
  fun _ => mkdatetime 2025 3 1 12 0 0 0.

(** The record of the specification's example for [edit_phone]. *)
Definition two_phones : World :=
  mkWorld [mkRecord (lit "alice") [lit "1111111111"; lit "2222222222"] None] []
          noon_1_march_2025 0.

(** The records of the specification's example for [add_record]: two
    records named Alice with different phones. *)
Definition two_alices : World :=
  mkWorld [mkRecord (lit "Alice") [lit "1111111111"] (Some (lit "15.06.1990"));
           mkRecord (lit "Alice") [lit "2222222222"; lit "3333333333"] None] []
          noon_1_march_2025 0.

(** A book of six: Alice's birthday falls on Sunday 9 March, Bob's on
    Saturday 8 March, Carl has none, Dora's falls on Friday 7 March,
    Fred's on Monday 10 March and Gina's on Saturday 1 March, today. *)
Definition weekend_book : World :=
  mkWorld
    [ mkRecord (lit "alice") [lit "0123456789"] (Some (lit "09.03.1990"));
      mkRecord (lit "bob") [] (Some (lit "08.03.1985"));
      mkRecord (lit "carl") [lit "1111111111"] None;
      mkRecord (lit "dora") [] (Some (lit "7.3.2001"));
      mkRecord (lit "fred") [] (Some (lit "10.03.1999"));
      mkRecord (lit "gina") [] (Some (lit "01.03.1970")) ]
    [ (lit "alice", 0%nat); (lit "bob", 1%nat); (lit "carl", 2%nat);
      (lit "dora", 3%nat); (lit "fred", 4%nat); (lit "gina", 5%nat) ]
    noon_1_march_2025 0.

(** What [get_upcoming_birthdays(7)] returns for it. *)
Definition weekend_list : list Entry :=
  [ mkEntry (lit "alice") (lit "10.03.2025");
    mkEntry (lit "bob") (lit "10.03.2025");
    mkEntry (lit "dora") (lit "07.03.2025") ].

(** A book of two: Bob's birthday is tomorrow, Zoe's is a 29 February. *)
Definition leap_day_book : World :=
  mkWorld
    [ mkRecord (lit "bob") [] (Some (lit "02.03.1985"));
      mkRecord (lit "zoe") [] (Some (lit "29.02.2024")) ]
    [ (lit "bob", 0%nat); (lit "zoe", 1%nat) ]
    noon_1_march_2025 0.

(** The world after the command [add alice 1234567890] in an empty one. *)
Definition after_add_alice : World :=
  snd (add_contact (fun s => s) [lit "alice"; lit "1234567890"]
         (mkWorld [] [] noon_1_march_2025 0)).

(** ** The command loop *)

(** The handler [process_command] calls for a command, if it calls one
    ([all] prints the records itself, without [show_all]). *)
Definition handler_of_command (command : str) : option Handler :=
  if decide (command = lit "add") then Some AddContact
  else if decide (command = lit "change") then Some ChangeContact
  else if decide (command = lit "phone") then Some ShowPhone
  else if decide (command = lit "add-birthday") then Some AddBirthday
  else if decide (command = lit "show-birthday") then Some ShowBirthday
  else if decide (command = lit "birthdays") then Some Birthdays
  else None.

(** The book was handed to [save_data]. *)
Definition is_saved (e : Event) : bool :=
  match e with
  | Saved _ _ => true
  | _ => false
  end.

(** A line with a blank and fewer than two words: unpacking what
    [split(maxsplit=1)] returns fails. *)
Definition unpacking_fails (user_input : str) : bool :=
  existsb (N.eqb 32) user_input && (length (str_split user_input) <? 2)%nat.

(** The command of a line, when the line has one. *)
Definition command_of (user_input : str) : option str :=
  if existsb (N.eqb 32) user_input then
    match str_split user_input with
    | command :: _ :: _ => Some command
    | _ => None
    end
  else Some user_input.

(** A line whose command is [close] or [exit]. *)
Definition asks_to_leave (user_input : str) : bool :=
  match command_of user_input with
  | Some command => bool_decide (command ∈ [lit "close"; lit "exit"])
  | None => false
  end.

(** A computation that leaves an aspect [f] of the world as it is,
    whether it returns or raises. *)
Definition preserves {X A} (f : World -> X) (c : M A) : Prop :=
  forall w, f (snd (c w)) = f w.

(** An aspect of the world that is not about the records, and one that
    is not about the dictionary. *)
Definition apart_from_heap {X} (f : World -> X) : Prop :=
  forall h w, f (with_heap h w) = f w.

Definition apart_from_data {X} (f : World -> X) : Prop :=
  forall d w, f (with_data d w) = f w.

(** What no command takes from a record: its name, any of its phones
    (their number never goes down), and its birthday once it has one. *)
Definition record_kept (r r' : RecordState) : Prop :=
  name r' = name r /\
  (length (phones r) <= length (phones r'))%nat /\
  (is_Some (birthday r) -> is_Some (birthday r')).

Definition records_kept (w w' : World) : Prop :=
  (length (heap w) <= length (heap w'))%nat /\
  forall record, (record < length (heap w))%nat ->
    record_kept (heap w !!! record) (heap w' !!! record).

(** A computation after which the world is in relation [R] with the one
    before, whether it returns or raises. *)
Definition keeps (R : World -> World -> Prop) {A} (c : M A) : Prop :=
  forall w, R w (snd (c w)).

(** ** The errors of the handlers

    The three kinds of error of the specification.  In the code each is
    an exception raised with the text that describes it: a failed
    validation and a phone that is not found are [ValueError]s of the
    program's own, a wrong number of arguments is the [ValueError] of
    the unpacking or the [IndexError] of [args[0]]. *)
Inductive ErrorKind := ValidationError | NotFoundError | ArgumentError.

(** The errors of the three kinds a handler raises on an argument list:
    the kind, the class of the exception and its description. *)
Inductive handler_error : Handler -> list str -> ErrorKind -> ExnClass -> str -> Prop :=
| add_contact_few args :
    (length args < 2)%nat ->
    handler_error AddContact args ArgumentError ValueError
                  (not_enough_values true 2 (length args))
| add_contact_phone nm phone rest :
    is_valid_phone phone = false ->
    handler_error AddContact (nm :: phone :: rest) ValidationError ValueError
                  invalid_phone_message
| change_contact_few args :
    (length args < 3)%nat ->
    handler_error ChangeContact args ArgumentError ValueError
                  (not_enough_values false 3 (length args))
| change_contact_many args :
    (3 < length args)%nat ->
    handler_error ChangeContact args ArgumentError ValueError (too_many_values 3)
| change_contact_phone nm old_phone new_phone :
    is_valid_phone new_phone = false ->
    handler_error ChangeContact [nm; old_phone; new_phone] ValidationError ValueError
                  invalid_phone_message
| change_contact_missing nm old_phone new_phone :
    handler_error ChangeContact [nm; old_phone; new_phone] NotFoundError ValueError
                  not_found_message
| show_phone_none :
    handler_error ShowPhone [] ArgumentError IndexError (lit "list index out of range")
| add_birthday_few args :
    (length args < 2)%nat ->
    handler_error AddBirthday args ArgumentError ValueError
                  (not_enough_values false 2 (length args))
| add_birthday_many args :
    (2 < length args)%nat ->
    handler_error AddBirthday args ArgumentError ValueError (too_many_values 2)
| add_birthday_date nm value :
    ~ denotes_a_date value ->
    handler_error AddBirthday [nm; value] ValidationError ValueError invalid_date_message
| show_birthday_none :
    handler_error ShowBirthday [] ArgumentError IndexError (lit "list index out of range").

(** The lines of the answer of [birthdays], one for each entry. *)
Definition birthday_lines (l : list Entry) : list str :=
  map (fun item => entry_name item ++ lit ": " ++ entry_birthday item) l.

(** The answer of [birthdays] for the list [l] of upcoming birthdays. *)
Definition birthdays_answer (l : list Entry) : str :=
  match l with
  | [] => lit "No birthdays in the next 7 days."
  | _ :: _ => join (lit (String "010" EmptyString)) (birthday_lines l)
  end.

(** A session of the example book: a contact is added, given a birthday
    and shown, and the program is left. *)
Definition session : list str :=
  [ lit "add hank 0501234567";
    lit "add-birthday hank 2.3.1990";
    lit "phone hank";
    lit "exit" ].

(** A session that goes wrong at its second line, a command with a
    blank after it. *)
Definition session_with_a_blank : list str :=
  [ lit "add hank 0501234567"; lit "hello "; lit "exit" ].

(** * Properties *)

(** ** Phone numbers *)

Lemma ascii_digit_isdigit c :
  Unicode.is_ascii_digit c = true -> Unicode.isdigit c = true.
Proof.
  unfold Unicode.is_ascii_digit, Unicode.isdigit. intros H.
  apply orb_true_iff. left.
  unfold Unicode.in_ranges, Unicode.decimal_ranges.
  cbn [existsb]. unfold Unicode.in_range at 1. cbn [fst snd].
  now rewrite H.
Qed.

Lemma is_valid_phone_spec s : is_valid_phone s = true <-> ten_digits s.
Proof.
  unfold is_valid_phone, str_isdigit, ten_digits.
  rewrite !andb_true_iff, negb_true_iff, Nat.eqb_eq, Nat.eqb_neq.
  rewrite List.Forall_forall, forallb_forall.
  split; [intros [[_ H] L]; auto | intros [L H]; repeat split; auto; lia].
Qed.

Lemma Phone_valid s : is_valid_phone s = true -> Phone s = ok s.
Proof. intros H. unfold Phone. now rewrite H. Qed.

Lemma Phone_invalid s :
  is_valid_phone s = false -> Phone s = raise ValueError invalid_phone_message.
Proof. intros H. unfold Phone. now rewrite H. Qed.

(** C4, as amended: [Phone(value)] succeeds exactly when [value] has ten
    characters that are all digits in the sense of [str.isdigit] (the
    ASCII digits among them, but also other Unicode digits); it then
    stores [value] as it is, leading zeros included, and otherwise
    raises the [ValueError] of the validation. *)
Theorem Phone_accepts_ten_unicode_digits (value : str) :
  (Phone value = ok value <-> ten_digits value) /\
  (forall stored, Phone value = ok stored -> stored = value) /\
  (~ ten_digits value <-> Phone value = raise ValueError invalid_phone_message) /\
  (ten_ascii_digits value -> Phone value = ok value).
Proof.
  rewrite <- is_valid_phone_spec.
  destruct (is_valid_phone value) eqn:E.
  - rewrite (Phone_valid _ E).
    split; [tauto|]. split; [intros stored; unfold ok; congruence|].
    split; [|tauto]. split; [intros H; exfalso; now apply H | discriminate].
  - rewrite (Phone_invalid _ E).
    split; [split; discriminate|]. split; [discriminate|].
    split; [split; [reflexivity | discriminate]|].
    intros [L H]. exfalso.
    assert (is_valid_phone value = true); [|congruence].
    apply is_valid_phone_spec. split; [exact L|].
    eapply List.Forall_impl; [|exact H]. apply ascii_digit_isdigit.
Qed.

(** The phone numbers of the specification's examples, and one with a
    leading zero. *)
Example Phone_examples :
  Phone (lit "1234567890") = ok (lit "1234567890") /\
  Phone (lit "0000000001") = ok (lit "0000000001") /\
  Phone (lit "12345") = raise ValueError invalid_phone_message /\
  Phone (lit "12345678ab") = raise ValueError invalid_phone_message /\
  Phone (lit "") = raise ValueError invalid_phone_message.
Proof. repeat split. Qed.

(** C4 as the specification states it fails: ten superscript twos
    (U+00B2) are no ASCII digits, yet [str.isdigit] takes them and the
    phone is built. *)
Lemma Phone_superscript_twos_accepted :
  Phone (replicate 10 178%N) = ok (replicate 10 178%N) /\
  ~ ten_ascii_digits (replicate 10 178%N).
Proof.
  split; [reflexivity|].
  intros [_ H]. inversion H as [|? ? H1 _]. discriminate H1.
Qed.

(** ** Records *)

(** The object at [self] after its state was set. *)
Lemma lookup_set_record (h : list RecordState) (self : nat) (r : RecordState) :
  (self < length h)%nat -> <[self := r]> h !!! self = r.
Proof. intros H. now apply list_lookup_total_insert_eq. Qed.

Lemma lookup_set_record_other (h : list RecordState) (self other : nat) (r : RecordState) :
  other <> self -> <[self := r]> h !!! other = h !!! other.
Proof. intros H. apply list_lookup_total_insert_ne. congruence. Qed.

Lemma add_phone_run (w : World) (self : nat) (phone : str) :
  Rec.add_phone self phone w =
  if is_valid_phone phone then
    (inr tt,
     with_heap (<[self := mkRecord (name (heap w !!! self))
                                   (phones (heap w !!! self) ++ [phone])
                                   (birthday (heap w !!! self))]> (heap w)) w)
  else (raise ValueError invalid_phone_message, w).
Proof.
  unfold Rec.add_phone, bind, lift, Phone.
  destruct (is_valid_phone phone); reflexivity.
Qed.

(** C10: [add_phone] builds the [Phone] first.  When the string fails
    the validation the call raises and nothing at all has changed (the
    record's phones, name and birthday are as before); when it passes,
    the phone goes to the end of the record's phones and nothing else
    changes. *)
Theorem add_phone_raises_before_mutating (w : World) (self : nat) (phone : str) :
  (is_valid_phone phone = false ->
     Rec.add_phone self phone w = (raise ValueError invalid_phone_message, w)) /\
  (is_valid_phone phone = true -> (self < length (heap w))%nat ->
     exists w', Rec.add_phone self phone w = (inr tt, w') /\
       phones (heap w' !!! self) = phones (heap w !!! self) ++ [phone] /\
       name (heap w' !!! self) = name (heap w !!! self) /\
       birthday (heap w' !!! self) = birthday (heap w !!! self) /\
       (forall other, other <> self -> heap w' !!! other = heap w !!! other) /\
       same_book w w').
Proof.
  rewrite add_phone_run. split; intros E; rewrite E; [reflexivity|].
  intros Hself. eexists. split; [reflexivity|]. cbn.
  rewrite lookup_set_record by exact Hself. cbn.
  repeat split; auto. intros other Hne. now apply lookup_set_record_other.
Qed.

Lemma first_at_head x l : first_at x (x :: l) 0.
Proof. split; [reflexivity | intros j H; lia]. Qed.

Lemma first_at_tail x y l i : y <> x -> first_at x (y :: l) i ->
  exists i', i = S i' /\ first_at x l i'.
Proof.
  intros Hne [H1 H2]. destruct i as [|i']; [cbn in H1; congruence|].
  exists i'. split; [reflexivity|]. split; [exact H1|].
  intros j Hj. apply (H2 (S j)). lia.
Qed.

Lemma edit_phone_loop_found self old_phone new_phone :
  forall ps i k w, first_at old_phone ps k ->
  Rec.edit_phone_loop self old_phone new_phone i ps w =
  if is_valid_phone new_phone then
    (inr self,
     with_heap (<[self := mkRecord (name (heap w !!! self))
                                   (<[(i + k)%nat := new_phone]> (phones (heap w !!! self)))
                                   (birthday (heap w !!! self))]> (heap w)) w)
  else (raise ValueError invalid_phone_message, w).
Proof.
  induction ps as [|p ps IH]; intros i k w Hk.
  - destruct Hk as [Hk _]. discriminate Hk.
  - cbn [Rec.edit_phone_loop]. destruct (decide (p = old_phone)) as [->|Hne].
    + assert (k = 0)%nat as ->.
      { destruct k as [|k]; [reflexivity|]. destruct Hk as [_ Hk].
        exfalso. apply (Hk 0%nat); [lia | reflexivity]. }
      rewrite Nat.add_0_r. unfold bind, lift, Phone.
      destruct (is_valid_phone new_phone); reflexivity.
    + destruct (first_at_tail _ _ _ _ Hne Hk) as (k' & -> & Hk').
      rewrite (IH (S i) k' w Hk'). now rewrite Nat.add_succ_r.
Qed.

Lemma edit_phone_loop_missing self old_phone new_phone :
  forall ps i w, old_phone ∉ ps ->
  Rec.edit_phone_loop self old_phone new_phone i ps w =
  (raise ValueError not_found_message, w).
Proof.
  induction ps as [|p ps IH]; intros i w Hnot; [reflexivity|].
  cbn [Rec.edit_phone_loop]. destruct (decide (p = old_phone)) as [->|Hne].
  - exfalso. apply Hnot. left.
  - apply IH. intros Hin. apply Hnot. now right.
Qed.

(** C5: [edit_phone(old, new)] puts a validated [Phone(new)] at the
    position of the first phone equal to [old]: the sequence keeps its
    length, every other position keeps its phone, and name and birthday
    stay; it raises the not-found [ValueError], changing nothing, when no
    phone equals [old] (and the validation error, changing nothing, when
    [old] is there but [new] is no valid phone). *)
Theorem edit_phone_replaces_first_in_place
    (w : World) (self : nat) (old_phone new_phone : str) :
  (forall i, first_at old_phone (phones (heap w !!! self)) i ->
     (is_valid_phone new_phone = true -> (self < length (heap w))%nat ->
        exists w', Rec.edit_phone self old_phone new_phone w = (inr self, w') /\
          phones (heap w' !!! self) = <[i := new_phone]> (phones (heap w !!! self)) /\
          length (phones (heap w' !!! self)) = length (phones (heap w !!! self)) /\
          phones (heap w' !!! self) !! i = Some new_phone /\
          (forall j, j <> i ->
             phones (heap w' !!! self) !! j = phones (heap w !!! self) !! j) /\
          name (heap w' !!! self) = name (heap w !!! self) /\
          birthday (heap w' !!! self) = birthday (heap w !!! self) /\
          (forall other, other <> self -> heap w' !!! other = heap w !!! other) /\
          same_book w w') /\
     (is_valid_phone new_phone = false ->
        Rec.edit_phone self old_phone new_phone w =
        (raise ValueError invalid_phone_message, w))) /\
  (old_phone ∉ phones (heap w !!! self) ->
     Rec.edit_phone self old_phone new_phone w =
     (raise ValueError not_found_message, w)).
Proof.
  unfold Rec.edit_phone, bind, get_record. split.
  - intros i Hi. rewrite (edit_phone_loop_found _ _ _ _ 0%nat i w Hi). cbn [Nat.add].
    split; intros E; rewrite E; [|reflexivity].
    intros Hself. eexists. split; [reflexivity|]. cbn.
    rewrite lookup_set_record by exact Hself. cbn.
    assert (i < length (phones (heap w !!! self)))%nat as Hlt.
    { destruct Hi as [Hi _]. now apply lookup_lt_Some in Hi. }
    split; [reflexivity|]. split; [apply length_insert|].
    split; [now apply list_lookup_insert_eq|].
    split; [intros j Hj; apply list_lookup_insert_ne; congruence|].
    repeat split; auto. intros other Hne. now apply lookup_set_record_other.
  - intros Hnot. now apply edit_phone_loop_missing.
Qed.

Example edit_phone_example :
  (exists w', Rec.edit_phone 0 (lit "1111111111") (lit "3333333333") two_phones = (inr 0%nat, w') /\
     phones (heap w' !!! 0%nat) = [lit "3333333333"; lit "2222222222"]) /\
  Rec.edit_phone 0 (lit "9999999999") (lit "0000000000") two_phones =
    (raise ValueError not_found_message, two_phones).
Proof. split; [eexists; split; reflexivity | reflexivity]. Qed.

(** ** The dictionary of the address book *)

Lemma dict_get_set_eq k v d : dict_get k (dict_set k v d) = Some v.
Proof.
  induction d as [|[k' v'] d IH]; cbn.
  - now rewrite decide_True.
  - destruct (decide (k' = k)) as [->|Hne]; cbn.
    + now rewrite decide_True.
    + now rewrite decide_False.
Qed.

Lemma dict_get_set_ne k k' v d :
  k' <> k -> dict_get k' (dict_set k v d) = dict_get k' d.
Proof.
  intros Hne. induction d as [|[k0 v0] d IH]; cbn.
  - rewrite decide_False; congruence.
  - destruct (decide (k0 = k)) as [->|Hne0]; cbn.
    + rewrite !decide_False; congruence.
    + destruct (decide (k0 = k')); congruence.
Qed.

Lemma dict_get_Some_elem k v d : dict_get k d = Some v -> (k, v) ∈ d.
Proof.
  induction d as [|[k0 v0] d IH]; cbn; [discriminate|].
  destruct (decide (k0 = k)) as [->|Hne].
  - intros [= ->]. left.
  - intros H. right. auto.
Qed.

Lemma dict_get_None_keys k d : dict_get k d = None -> k ∉ map fst d.
Proof.
  induction d as [|[k0 v0] d IH]; cbn.
  - intros _ H. inversion H.
  - destruct (decide (k0 = k)) as [->|Hne]; [discriminate|].
    intros H Hin. apply elem_of_cons in Hin as [->|Hin]; [congruence|].
    now apply IH.
Qed.

(** An existing key keeps its place and no entry is added. *)
Lemma dict_set_existing k v old d :
  dict_get k d = Some old -> map fst (dict_set k v d) = map fst d.
Proof.
  induction d as [|[k0 v0] d IH]; cbn; [discriminate|].
  destruct (decide (k0 = k)) as [->|Hne]; cbn; [reflexivity|].
  intros H. now rewrite IH.
Qed.

(** A new key goes last. *)
Lemma dict_set_new k v d :
  dict_get k d = None -> dict_set k v d = d ++ [(k, v)].
Proof.
  induction d as [|[k0 v0] d IH]; cbn; [reflexivity|].
  destruct (decide (k0 = k)) as [->|Hne]; [discriminate|].
  intros H. now rewrite IH.
Qed.

Lemma dict_set_NoDup k v d :
  NoDup (map fst d) -> NoDup (map fst (dict_set k v d)).
Proof.
  intros H. destruct (dict_get k d) as [old|] eqn:E.
  - now rewrite (dict_set_existing _ _ _ _ E).
  - rewrite (dict_set_new _ _ _ E), map_app. cbn.
    apply list.NoDup_app. split; [exact H|]. split; [|apply NoDup_singleton].
    intros x Hx Hk. apply list_elem_of_singleton in Hk as ->.
    now apply (dict_get_None_keys _ _ E).
Qed.

Lemma dict_set_elem k v d k' v' :
  NoDup (map fst d) -> (k', v') ∈ dict_set k v d ->
  (k' = k /\ v' = v) \/ (k' <> k /\ (k', v') ∈ d).
Proof.
  induction d as [|[k0 v0] d IH]; cbn; intros Hnd.
  - intros H. apply list_elem_of_singleton in H as [= -> ->]. now left.
  - apply list.NoDup_cons in Hnd as [Hk0 Hnd].
    destruct (decide (k0 = k)) as [->|Hne]; intros H;
      apply elem_of_cons in H as [[= -> ->]|H].
    + now left.
    + right. split; [|now right].
      intros ->. apply Hk0. apply list_elem_of_fmap. now exists (k, v').
    + right. split; [exact Hne|]. left.
    + destruct (IH Hnd H) as [?|[? ?]]; [now left|]. right. split; [assumption|]. now right.
Qed.

(** ** The invariant of the address book *)

Lemma names_stable_refl w : names_stable w w.
Proof. split; auto. Qed.

Lemma names_stable_trans w1 w2 w3 :
  names_stable w1 w2 -> names_stable w2 w3 -> names_stable w1 w3.
Proof.
  intros [L1 N1] [L2 N2]. split; [lia|].
  intros record H. rewrite N2 by lia. now apply N1.
Qed.

Lemma invariant_stable w w' :
  book_invariant w -> names_stable w w' -> data w' = data w -> book_invariant w'.
Proof.
  intros [Hnd Hk] [L N] D. split; [now rewrite D|].
  intros k record Hin. rewrite D in Hin. destruct (Hk k record Hin) as [Hlt Hname].
  split; [lia|]. now rewrite N.
Qed.

Lemma stable_ret {A} (a : A) : stable (ret a).
Proof. intros w. split; [apply names_stable_refl | reflexivity]. Qed.

Lemma stable_throw {A} c m : stable (@throw A c m).
Proof. intros w. split; [apply names_stable_refl | reflexivity]. Qed.

Lemma stable_lift {A} (r : Result A) : stable (lift r).
Proof. intros w. split; [apply names_stable_refl | reflexivity]. Qed.

Lemma stable_bind {A B} (c : M A) (k : A -> M B) :
  stable c -> (forall a, stable (k a)) -> stable (bind c k).
Proof.
  intros Hc Hk w. unfold bind. specialize (Hc w).
  destruct (c w) as [[e|a] w1]; cbn in *; [exact Hc|].
  specialize (Hk a w1). destruct Hc as [N1 D1], Hk as [N2 D2].
  split; [eapply names_stable_trans; eassumption | congruence].
Qed.

Lemma stable_get_record self : stable (get_record self).
Proof. intros w. split; [apply names_stable_refl | reflexivity]. Qed.

Lemma stable_today : stable datetime_today.
Proof. intros w. split; [split; cbn; auto | reflexivity]. Qed.

(** Writing back the state of [self] under the name it has. *)
Lemma stable_set_record self ps b :
  forall w, names_stable w (snd (set_record self (mkRecord (name (heap w !!! self)) ps b) w)) /\
            data (snd (set_record self (mkRecord (name (heap w !!! self)) ps b) w)) = data w.
Proof.
  intros w. cbn. split; [|reflexivity]. split; cbn.
  - now rewrite length_insert.
  - intros record H. destruct (decide (record = self)) as [->|Hne].
    + now rewrite lookup_set_record.
    + now rewrite lookup_set_record_other.
Qed.


Lemma names_stable_set w self ps b :
  names_stable w
    (with_heap (<[self := mkRecord (name (heap w !!! self)) ps b]> (heap w)) w).
Proof. exact (proj1 (stable_set_record self ps b w)). Qed.

Lemma stable_add_phone self phone : stable (Rec.add_phone self phone).
Proof.
  intros w. rewrite add_phone_run. destruct (is_valid_phone phone); cbn.
  - split; [apply names_stable_set | reflexivity].
  - split; [apply names_stable_refl | reflexivity].
Qed.

Lemma stable_remove_phone_loop self phone :
  forall ps i, stable (Rec.remove_phone_loop self phone i ps).
Proof.
  induction ps as [|p ps IH]; intros i; cbn [Rec.remove_phone_loop].
  - apply stable_ret.
  - destruct (decide (p = phone)); [|apply IH].
    intros w. cbn. split; [apply names_stable_set | reflexivity].
Qed.

Lemma stable_remove_phone self phone : stable (Rec.remove_phone self phone).
Proof.
  apply stable_bind; [apply stable_get_record|].
  intros r. apply stable_remove_phone_loop.
Qed.

Lemma stable_edit_phone_loop self old_phone new_phone :
  forall ps i, stable (Rec.edit_phone_loop self old_phone new_phone i ps).
Proof.
  induction ps as [|p ps IH]; intros i; cbn [Rec.edit_phone_loop].
  - apply stable_throw.
  - destruct (decide (p = old_phone)); [|apply IH].
    intros w. unfold bind, lift. destruct (Phone new_phone) as [err|v]; cbn.
    + split; [apply names_stable_refl | reflexivity].
    + split; [apply names_stable_set | reflexivity].
Qed.

Lemma stable_edit_phone self old_phone new_phone :
  stable (Rec.edit_phone self old_phone new_phone).
Proof.
  apply stable_bind; [apply stable_get_record|].
  intros r. apply stable_edit_phone_loop.
Qed.

Lemma stable_add_birthday self value : stable (Rec.add_birthday self value).
Proof.
  intros w. unfold Rec.add_birthday, bind, lift. destruct (Birthday value) as [err|b]; cbn.
  - split; [apply names_stable_refl | reflexivity].
  - split; [apply names_stable_set | reflexivity].
Qed.

Lemma read_only_ret {A} (a : A) : read_only (ret a).
Proof. intros w. now cbn. Qed.

Lemma read_only_lift {A} (r : Result A) : read_only (lift r).
Proof. intros w. now cbn. Qed.

Lemma read_only_bind {A B} (c : M A) (k : A -> M B) :
  read_only c -> (forall a, read_only (k a)) -> read_only (bind c k).
Proof.
  intros Hc Hk w. unfold bind. specialize (Hc w).
  destruct (c w) as [[e|a] w1]; cbn in *; [exact Hc|].
  destruct Hc as (H1 & H2 & H3), (Hk a w1) as (K1 & K2 & K3).
  repeat split; congruence.
Qed.

Lemma read_only_get_record self : read_only (get_record self).
Proof. intros w. now cbn. Qed.

Lemma read_only_today : read_only datetime_today.
Proof. intros w. now cbn. Qed.

Lemma read_only_stable {A} (c : M A) : read_only c -> stable c.
Proof.
  intros H w. destruct (H w) as (Hh & Hd & _). split; [|exact Hd].
  split; rewrite Hh; auto.
Qed.

Create HintDb readonly.
#[local] Hint Resolve read_only_ret read_only_lift read_only_get_record
  read_only_today : readonly.

Ltac read_only_step :=
  first [ apply read_only_bind; [|intros ?]
        | match goal with
          | |- read_only (match ?x with _ => _ end) => destruct x
          | |- read_only (if ?x then _ else _) => destruct x
          end
        | solve [auto with readonly] ].

Lemma read_only_get_days_to_birthday self :
  read_only (Rec.get_days_to_birthday self).
Proof. unfold Rec.get_days_to_birthday. repeat read_only_step. Qed.

Lemma read_only_upcoming_loop today days :
  forall records upcoming,
    read_only (AddressBook.upcoming_loop today days records upcoming).
Proof.
  induction records as [|record rest IH]; intros upcoming;
    cbn [AddressBook.upcoming_loop]; [apply read_only_ret|].
  apply read_only_bind; [apply read_only_get_record|]. intros r.
  destruct (birthday r); [|apply IH].
  apply read_only_bind; [apply read_only_get_days_to_birthday|]. intros [n|]; [|apply IH].
  destruct (n <=? days); [|apply IH].
  repeat (apply read_only_bind; [repeat read_only_step | intros ?]).
  apply IH.
Qed.

Lemma read_only_get_upcoming_birthdays days :
  read_only (AddressBook.get_upcoming_birthdays days).
Proof.
  apply read_only_bind; [apply read_only_today|]. intros today w.
  apply read_only_upcoming_loop.
Qed.

Lemma read_only_find k : read_only (AddressBook.find k).
Proof. intros w. now cbn. Qed.

Lemma invariant_after_stable {A} (c : M A) w :
  stable c -> book_invariant w -> book_invariant (snd (c w)).
Proof. intros Hc Hw. destruct (Hc w). eapply invariant_stable; eassumption. Qed.

Lemma invariant_init nm w :
  book_invariant w -> book_invariant (snd (Rec.init nm w)).
Proof.
  intros Hw. eapply invariant_stable; [exact Hw| |reflexivity].
  split; cbn; [rewrite length_app; lia|].
  intros record H. now rewrite lookup_total_app_l.
Qed.

Lemma invariant_add_record record w :
  book_invariant w -> (record < length (heap w))%nat ->
  book_invariant (snd (AddressBook.add_record record w)).
Proof.
  intros [Hnd Hk] Hlt. split; cbn; [now apply dict_set_NoDup|].
  intros k r Hin. cbn in *.
  apply dict_set_elem in Hin as [[-> ->]|[_ Hin]]; [auto | now apply Hk | exact Hnd].
Qed.

Lemma find_in_book k w record :
  book_invariant w -> dict_get k (data w) = Some record ->
  (record < length (heap w))%nat /\ name (heap w !!! record) = k.
Proof. intros [_ Hk] H. apply Hk. now apply dict_get_Some_elem. Qed.

Section HandlerInvariant.

Variable repr_str : str -> str.
Variable repr_object : nat -> str.

Lemma input_error_world h args w :
  snd (input_error repr_str h args w) = snd (h args w).
Proof.
  unfold input_error. destruct (h args w) as [[e|a] w']; [|reflexivity].
  now destruct (exn_class e).
Qed.

Lemma invariant_add_contact args w :
  book_invariant w -> book_invariant (snd (add_contact__wrapped args w)).
Proof.
  intros Hw. destruct args as [|nm [|phone rest]]; try exact Hw.
  cbn [add_contact__wrapped]. unfold bind at 1. unfold AddressBook.find at 1.
  destruct (dict_get nm (data w)) as [record|] eqn:E.
  - unfold bind at 1. cbn [ret fst snd].
    apply invariant_after_stable; [|exact Hw].
    apply stable_bind; [|intros; apply stable_ret].
    destruct phone; [apply stable_ret | apply stable_add_phone].
  - set (w1 := snd (AddressBook.add_record (length (heap w)) (snd (Rec.init nm w)))).
    assert (book_invariant w1) as H1.
    { apply invariant_add_record; [now apply invariant_init|].
      cbn. rewrite length_app. cbn. lia. }
    set (rest_of_call := fun rm : nat * str =>
           bind (match phone with
                 | [] => ret tt
                 | _ :: _ => Rec.add_phone (fst rm) phone
                 end) (fun _ => ret (snd rm))).
    change (book_invariant
              (snd (rest_of_call (length (heap w), lit "Contact added.") w1))).
    apply invariant_after_stable; [|exact H1].
    apply stable_bind; [|intros; apply stable_ret].
    destruct phone; [apply stable_ret | apply stable_add_phone].
Qed.

Lemma stable_change_contact args : stable (change_contact__wrapped args).
Proof.
  destruct args as [|nm [|old_phone [|new_phone [|x rest]]]]; cbn;
    try apply stable_throw.
  apply stable_bind; [apply read_only_stable, read_only_find|].
  intros [record|]; [|apply stable_ret].
  apply stable_bind; [apply stable_edit_phone | intros; apply stable_ret].
Qed.

Lemma stable_show_phone args : stable (show_phone__wrapped args).
Proof.
  destruct args as [|nm rest]; cbn; [apply stable_throw|].
  apply stable_bind; [apply read_only_stable, read_only_find|].
  intros [record|]; [|apply stable_ret].
  apply stable_bind; [apply stable_get_record | intros; apply stable_ret].
Qed.

Lemma stable_show_all args : stable (show_all__wrapped repr_str repr_object args).
Proof. intros w. split; [apply names_stable_refl | reflexivity]. Qed.

Lemma stable_add_birthday_handler args : stable (add_birthday__wrapped args).
Proof.
  destruct args as [|nm [|value [|x rest]]]; cbn; try apply stable_throw.
  apply stable_bind; [apply read_only_stable, read_only_find|].
  intros [record|]; [|apply stable_ret].
  apply stable_bind; [apply stable_add_birthday | intros; apply stable_ret].
Qed.

Lemma stable_show_birthday args : stable (show_birthday__wrapped args).
Proof.
  destruct args as [|nm rest]; cbn; [apply stable_throw|].
  apply stable_bind; [apply read_only_stable, read_only_find|].
  intros [record|]; [|apply stable_ret].
  apply stable_bind; [apply stable_get_record|].
  intros r. destruct (birthday r); apply stable_ret.
Qed.

Lemma stable_birthdays args : stable (birthdays__wrapped args).
Proof.
  apply stable_bind; [apply read_only_stable, read_only_get_upcoming_birthdays|].
  intros [|item items]; apply stable_ret.
Qed.

Lemma invariant_handler h args w :
  book_invariant w ->
  book_invariant (snd (handler repr_str repr_object h args w)).
Proof.
  intros Hw. unfold handler. rewrite input_error_world.
  destruct h; cbn [wrapped];
    [ now apply invariant_add_contact
    | apply invariant_after_stable; [apply stable_change_contact | exact Hw]
    | apply invariant_after_stable; [apply stable_show_phone | exact Hw]
    | apply invariant_after_stable; [apply stable_show_all | exact Hw]
    | apply invariant_after_stable; [apply stable_add_birthday_handler | exact Hw]
    | apply invariant_after_stable; [apply stable_show_birthday | exact Hw]
    | apply invariant_after_stable; [apply stable_birthdays | exact Hw] ].
Qed.

End HandlerInvariant.

Lemma step_invariant w w' : step w w' -> book_invariant w -> book_invariant w'.
Proof.
  intros Hs Hw. destruct Hs.
  - now apply invariant_init.
  - apply invariant_after_stable; [apply stable_add_phone | exact Hw].
  - apply invariant_after_stable; [apply stable_remove_phone | exact Hw].
  - apply invariant_after_stable; [apply stable_edit_phone | exact Hw].
  - apply invariant_after_stable; [apply stable_add_birthday | exact Hw].
  - apply invariant_after_stable;
      [apply read_only_stable, read_only_get_days_to_birthday | exact Hw].
  - now apply invariant_add_record.
  - exact Hw.
  - apply invariant_after_stable;
      [apply read_only_stable, read_only_get_upcoming_birthdays | exact Hw].
  - now apply invariant_handler.
Qed.

Lemma reachable_invariant w : reachable w -> book_invariant w.
Proof.
  induction 1 as [clk t|w w' _ IH Hs].
  - split; cbn; [apply NoDup_nil_2|]. intros k record H. inversion H.
  - eapply step_invariant; eassumption.
Qed.

(** C9: in every world the program can reach from an empty address
    book, each key of the dictionary is the name of the record stored
    under it; so what [find] returns for a name is a record of that
    name. *)
Theorem reachable_keys_equal_names (w : World) :
  reachable w ->
  (forall k record, (k, record) ∈ data w -> name (heap w !!! record) = k) /\
  (forall k record, AddressBook.find k w = (inr (Some record), w) ->
     name (heap w !!! record) = k).
Proof.
  intros Hr. pose proof (reachable_invariant w Hr) as Hw. split.
  - intros k record Hin. now apply (proj2 Hw).
  - intros k record H. unfold AddressBook.find in H.
    assert (dict_get k (data w) = Some record) as E by congruence.
    now apply (find_in_book k w record Hw).
Qed.

Lemma dict_get_elem k v d :
  NoDup (map fst d) -> (k, v) ∈ d -> dict_get k d = Some v.
Proof.
  induction d as [|[k0 v0] d IH]; cbn; intros Hnd Hin; [inversion Hin|].
  apply list.NoDup_cons in Hnd as [Hk0 Hnd].
  apply elem_of_cons in Hin as [[= -> ->]|Hin].
  - now rewrite decide_True.
  - rewrite decide_False; [now apply IH|].
    intros ->. apply Hk0. apply list_elem_of_fmap. now exists (k, v).
Qed.

(** C7: [add_record] never raises and stores the record under its name.
    When the name is already a key, the key keeps its place, no entry is
    added and the entry now holds the new record object; so after two
    calls with records of one name, [find] returns the second record
    (with its phones and birthday, whatever the first had), and the
    first is no longer in the book. *)
Theorem add_record_overwrites (w : World) (record : nat) :
  exists w',
    AddressBook.add_record record w = (inr tt, w') /\
    heap w' = heap w /\
    AddressBook.find (name (heap w !!! record)) w' = (inr (Some record), w') /\
    (forall k, k <> name (heap w !!! record) ->
       dict_get k (data w') = dict_get k (data w)) /\
    (forall old, dict_get (name (heap w !!! record)) (data w) = Some old ->
       map fst (data w') = map fst (data w)) /\
    (forall second, name (heap w !!! second) = name (heap w !!! record) ->
       exists w'',
         AddressBook.add_record second w' = (inr tt, w'') /\
         heap w'' = heap w /\
         AddressBook.find (name (heap w !!! record)) w'' = (inr (Some second), w'') /\
         map fst (data w'') = map fst (data w') /\
         (book_invariant w -> (record < length (heap w))%nat ->
          (second < length (heap w))%nat -> second <> record ->
          record ∉ map snd (data w''))).
Proof.
  eexists. split; [reflexivity|]. cbn.
  split; [reflexivity|]. unfold AddressBook.find. cbn.
  split; [now rewrite dict_get_set_eq|].
  split; [intros k Hk; now apply dict_get_set_ne|].
  split; [intros old Hold; now apply (dict_set_existing _ _ old)|].
  intros second Hname. eexists. split; [reflexivity|]. cbn. rewrite Hname.
  split; [reflexivity|]. split; [now rewrite dict_get_set_eq|].
  split; [apply (dict_set_existing _ _ record); apply dict_get_set_eq|].
  intros Hw Hr Hs Hne Hin.
  set (n := name (heap w !!! record)) in *.
  assert (book_invariant
            (with_data (dict_set n second (dict_set n record (data w))) w)) as [Hnd Hk].
  { pose proof (invariant_add_record record w Hw Hr) as H1. cbn in H1. fold n in H1.
    pose proof (invariant_add_record second _ H1 Hs) as H2. cbn in H2.
    now rewrite Hname in H2. }
  cbn in Hnd, Hk. apply list_elem_of_fmap in Hin as [[k r] [Hr' Hin]].
  cbn in Hr'. subst r. destruct (Hk k record Hin) as [_ Hkn]. cbn in Hkn. fold n in Hkn.
  subst k. apply (dict_get_elem _ _ _ Hnd) in Hin.
  rewrite dict_get_set_eq in Hin. congruence.
Qed.

Example add_record_twice :
  exists w', (AddressBook.add_record 0 ;; AddressBook.add_record 1) two_alices = (inr tt, w') /\
    data w' = [(lit "Alice", 1%nat)] /\
    AddressBook.find (lit "Alice") w' = (inr (Some 1%nat), w') /\
    phones (heap w' !!! 1%nat) = [lit "2222222222"; lit "3333333333"] /\
    birthday (heap w' !!! 1%nat) = None.
Proof. eexists. repeat split. Qed.

(** ** Birthdays: what the two methods compute

    The methods compute exactly the named steps, on the clock readings
    they take. *)

Lemma get_days_to_birthday_run self w :
  Rec.get_days_to_birthday self w =
  match birthday (heap w !!! self) with
  | Some value =>
      (match days_until (clock w (ticks w)) value with
       | inl e => inl e
       | inr n => inr (Some n)
       end, tick w)
  | None => (inr None, w)
  end.
Proof.
  unfold Rec.get_days_to_birthday, bind, get_record. cbn [fst snd].
  destruct (birthday (heap w !!! self)) as [value|]; [|reflexivity].
  unfold datetime_today, lift, days_until, next_occurrence, rbind. fold (tick w).
  destruct (strptime_dmY value) as [e|bd]; [reflexivity|].
  destruct (replace_year bd (year (clock w (ticks w)))) as [e|nb]; [reflexivity|].
  destruct (lt nb (clock w (ticks w))); [|reflexivity].
  destruct (replace_year nb (year (clock w (ticks w)) + 1)); reflexivity.
Qed.

Lemma upcoming_loop_cons today days record rest upcoming w :
  AddressBook.upcoming_loop today days (record :: rest) upcoming w =
  match birthday (heap w !!! record) with
  | None => AddressBook.upcoming_loop today days rest upcoming w
  | Some value =>
      match upcoming_entry today (clock w (ticks w)) days
                           (name (heap w !!! record)) value with
      | inl e => (inl e, tick w)
      | inr None => AddressBook.upcoming_loop today days rest upcoming (tick w)
      | inr (Some entry) =>
          AddressBook.upcoming_loop today days rest (upcoming ++ [entry]) (tick w)
      end
  end.
Proof.
  cbn [AddressBook.upcoming_loop]. unfold bind at 1. unfold get_record at 1.
  destruct (birthday (heap w !!! record)) as [value|] eqn:Eb; [|reflexivity].
  unfold bind at 1. rewrite get_days_to_birthday_run, Eb.
  unfold upcoming_entry, rbind.
  destruct (days_until (clock w (ticks w)) value) as [e|n]; [reflexivity|].
  destruct (n <=? days); [|reflexivity].
  unfold bind, lift, ret, next_occurrence, weekend_shift, rbind, ok.
  destruct (strptime_dmY value) as [e|bd]; [reflexivity|].
  destruct (replace_year bd (year today)) as [e|nb]; [reflexivity|].
  destruct (lt nb today); cbv beta iota.
  - destruct (replace_year nb (year today + 1)) as [e|nb']; [reflexivity|].
    destruct (weekday nb' =? 5); [destruct (add_days 2 nb'); reflexivity|].
    destruct (weekday nb' =? 6); [destruct (add_days 1 nb'); reflexivity|].
    reflexivity.
  - destruct (weekday nb =? 5); [destruct (add_days 2 nb); reflexivity|].
    destruct (weekday nb =? 6); [destruct (add_days 1 nb); reflexivity|].
    reflexivity.
Qed.

(** ** The calendar *)

Lemma check_date_fields_ok y m d :
  check_date_fields y m d = inr tt <->
  MINYEAR <= y <= MAXYEAR /\ 1 <= m <= 12 /\ 1 <= d <= days_in_month y m.
Proof.
  unfold check_date_fields, MINYEAR, MAXYEAR, raise, ok.
  destruct (1 <=? y) eqn:Y1, (y <=? 9999) eqn:Y2, (1 <=? m) eqn:M1, (m <=? 12) eqn:M2,
    (1 <=? d) eqn:D1, (d <=? days_in_month y m) eqn:D2; cbn;
    rewrite ?Z.leb_le, ?Z.leb_gt in *;
    (split; [try discriminate; intros _; lia | try reflexivity; intros H; lia]).
Qed.

Lemma check_date_fields_raises y m d e :
  check_date_fields y m d = inl e -> exn_class e = ValueError.
Proof.
  unfold check_date_fields, raise, ok.
  repeat match goal with
         | |- context [if ?b then _ else _] => destruct b
         end; intros [= <-]; reflexivity.
Qed.

Lemma replace_year_ok d y d' :
  replace_year d y = inr d' ->
  d' = mkdatetime y (month d) (day d) (hour d) (minute d) (second d) (microsecond d) /\
  valid_date d'.
Proof.
  unfold replace_year, rbind. destruct (check_date_fields y (month d) (day d)) as [e|[]] eqn:E;
    [discriminate|].
  intros [= <-]. split; [reflexivity|]. now apply check_date_fields_ok in E.
Qed.

Lemma replace_year_raises d y e :
  replace_year d y = inl e -> exn_class e = ValueError.
Proof.
  unfold replace_year, rbind. destruct (check_date_fields y (month d) (day d)) as [e'|[]] eqn:E;
    [|discriminate].
  intros [= <-]. now apply check_date_fields_raises in E.
Qed.

(** The table [_DAYS_BEFORE_MONTH] of the library, with the leap day. *)
Lemma days_before_month_table y m :
  1 <= m <= 12 ->
  days_before_month y m =
  nth (Z.to_nat (m - 1)) [0; 31; 59; 90; 120; 151; 181; 212; 243; 273; 304; 334] 0
  + (if (2 <? m) && is_leap y then 1 else 0).
Proof.
  intros Hm.
  assert (m = 1 \/ m = 2 \/ m = 3 \/ m = 4 \/ m = 5 \/ m = 6 \/ m = 7 \/ m = 8 \/
          m = 9 \/ m = 10 \/ m = 11 \/ m = 12) as Hcases by lia.
  unfold days_before_month, days_in_month.
  destruct (is_leap y);
    repeat (destruct Hcases as [->|Hcases]; [reflexivity|]); subst m; reflexivity.
Qed.

(** Sums of a variable and closed numbers: the numbers are computed. *)
Ltac closed_sum :=
  repeat match goal with
         | |- context [?base + ?t] =>
             is_var base; let v := eval vm_compute in t in progress change t with v
         | |- context [?a + ?t] =>
             lazymatch t with Zpos _ => fail | Z0 => fail | _ => idtac end;
             let v := eval vm_compute in t in
             lazymatch v with Zpos _ => idtac | Z0 => idtac end;
             progress change t with v
         end;
  lia.

Lemma days_before_next_year y :
  days_before_year (y + 1) = days_before_year y + (if is_leap y then 366 else 365).
Proof.
  unfold days_before_year, is_leap.
  replace (y + 1 - 1) with y by lia.
  destruct (y mod 4 =? 0) eqn:E4, (y mod 100 =? 0) eqn:E100, (y mod 400 =? 0) eqn:E400;
    cbn; rewrite ?Z.eqb_eq, ?Z.eqb_neq in *;
    Z.div_mod_to_equations; lia.
Qed.

Lemma toordinal_tomorrow d :
  valid_date d -> toordinal (tomorrow d) = toordinal d + 1.
Proof.
  destruct d as [y m dd h mi s us]. intros (Hy & Hm & Hd). cbn in Hy, Hm, Hd.
  unfold tomorrow. cbn [year month day hour minute second microsecond].
  destruct (dd <? days_in_month y m) eqn:E1.
  - unfold toordinal. cbn. lia.
  - apply Z.ltb_ge in E1. assert (dd = days_in_month y m) as Ed by lia.
    destruct (m <? 12) eqn:E2.
    + apply Z.ltb_lt in E2. unfold toordinal.
      cbn [year month day hour minute second microsecond]. rewrite Ed.
      rewrite !days_before_month_table by lia.
      assert (m = 1 \/ m = 2 \/ m = 3 \/ m = 4 \/ m = 5 \/ m = 6 \/ m = 7 \/ m = 8 \/
              m = 9 \/ m = 10 \/ m = 11) as Hcases by lia.
      unfold days_in_month. generalize (days_before_year y). intros base.
      destruct (is_leap y);
        repeat (destruct Hcases as [->|Hcases]; [closed_sum|]); subst m; closed_sum.
    + apply Z.ltb_ge in E2. assert (m = 12) as Em by lia. subst m.
      unfold toordinal. cbn [year month day hour minute second microsecond].
      rewrite Ed, days_before_next_year.
      rewrite !days_before_month_table by lia. unfold days_in_month.
      generalize (days_before_year y). intros base.
      destruct (is_leap y); closed_sum.
Qed.

Lemma days_in_month_bounds y m : 28 <= days_in_month y m <= 31.
Proof.
  unfold days_in_month.
  destruct (m =? 2); [destruct (is_leap y); lia|].
  destruct ((m =? 4) || (m =? 6) || (m =? 9) || (m =? 11)); lia.
Qed.

(** The day after a date is a date, except that the year may be 10000. *)
Lemma tomorrow_fields d :
  valid_date d ->
  1 <= year (tomorrow d) <= MAXYEAR + 1 /\ 1 <= month (tomorrow d) <= 12 /\
  1 <= day (tomorrow d) <= days_in_month (year (tomorrow d)) (month (tomorrow d)) /\
  (year (tomorrow d) = year d \/ (year (tomorrow d) = year d + 1 /\ month d = 12 /\ day d = 31)).
Proof.
  intros (Hy & Hm & Hd). unfold tomorrow, MINYEAR, MAXYEAR in *.
  destruct (day d <? days_in_month (year d) (month d)) eqn:E1; cbn.
  - apply Z.ltb_lt in E1. lia.
  - apply Z.ltb_ge in E1. destruct (month d <? 12) eqn:E2; cbn.
    + apply Z.ltb_lt in E2.
      pose proof (days_in_month_bounds (year d) (month d + 1)). lia.
    + apply Z.ltb_ge in E2.
      pose proof (days_in_month_bounds (year d + 1) 1).
      assert (month d = 12) as Em by lia.
      assert (days_in_month (year d) (month d) = 31) as E31 by (rewrite Em; reflexivity).
      lia.
Qed.

Lemma weekday_range d : 0 <= weekday d <= 6.
Proof. unfold weekday. pose proof (Z.mod_pos_bound (toordinal d + 6) 7). lia. Qed.

Lemma weekday_tomorrow d :
  valid_date d -> weekday (tomorrow d) = (weekday d + 1) mod 7.
Proof.
  intros H. unfold weekday. rewrite (toordinal_tomorrow d H).
  Z.div_mod_to_equations. lia.
Qed.

(** The last day the library knows, 31 December 9999, is a Friday. *)
Lemma weekday_last_day d :
  year d = MAXYEAR -> month d = 12 -> day d = 31 -> weekday d = 4.
Proof. unfold weekday, toordinal. intros -> -> ->. reflexivity. Qed.

Lemma tomorrow_valid d :
  valid_date d -> weekday d <> 4 -> valid_date (tomorrow d).
Proof.
  intros Hv Hw. destruct (tomorrow_fields d Hv) as (Hy & Hm & Hd & Hyear).
  split; [|split; assumption]. unfold MINYEAR, MAXYEAR in *.
  destruct Hyear as [E|(E & Em & Ed)]; [destruct Hv as (? & _); unfold MINYEAR, MAXYEAR in *; lia|].
  destruct (Z.eq_dec (year d) 9999) as [E9|E9].
  - exfalso. apply Hw. now apply weekday_last_day.
  - destruct Hv as (? & _). unfold MINYEAR, MAXYEAR in *. lia.
Qed.

Lemma tomorrow_time d :
  hour (tomorrow d) = hour d /\ minute (tomorrow d) = minute d /\
  second (tomorrow d) = second d /\ microsecond (tomorrow d) = microsecond d.
Proof.
  unfold tomorrow.
  destruct (day d <? days_in_month (year d) (month d)); [now cbn|].
  destruct (month d <? 12); now cbn.
Qed.

(** The weekend shift never leaves the calendar: it returns a date that
    many days later, at the same time of day, and that date is a
    weekday. *)
Lemma weekend_shift_ok d :
  valid_date d ->
  exists d', weekend_shift d = inr d' /\ valid_date d' /\
    toordinal d' = toordinal d +
                   (if weekday d =? 5 then 2 else if weekday d =? 6 then 1 else 0) /\
    0 <= weekday d' <= 4.
Proof.
  intros Hv. unfold weekend_shift, add_days. pose proof (weekday_range d) as Hr.
  destruct (weekday d =? 5) eqn:E5; [|destruct (weekday d =? 6) eqn:E6].
  - apply Z.eqb_eq in E5.
    change (Nat.iter 2 tomorrow d) with (tomorrow (tomorrow d)).
    assert (valid_date (tomorrow d)) as Hv1 by (apply tomorrow_valid; [exact Hv | lia]).
    assert (weekday (tomorrow d) = 6) as Hw1
      by (rewrite weekday_tomorrow, E5 by exact Hv; reflexivity).
    assert (valid_date (tomorrow (tomorrow d))) as Hv2 by (apply tomorrow_valid; [exact Hv1 | lia]).
    assert ((year (tomorrow (tomorrow d)) <=? MAXYEAR) = true) as Hle.
    { apply Z.leb_le. destruct Hv2 as ((_ & ?) & _). assumption. }
    rewrite Hle.
    eexists. split; [reflexivity|]. split; [exact Hv2|].
    rewrite !toordinal_tomorrow by assumption.
    rewrite weekday_tomorrow, Hw1 by exact Hv1.
    change ((6 + 1) mod 7) with 0. cbv beta iota. lia.
  - apply Z.eqb_eq in E6.
    change (Nat.iter 1 tomorrow d) with (tomorrow d).
    assert (valid_date (tomorrow d)) as Hv1 by (apply tomorrow_valid; [exact Hv | lia]).
    assert ((year (tomorrow d) <=? MAXYEAR) = true) as Hle.
    { apply Z.leb_le. destruct Hv1 as ((_ & ?) & _). assumption. }
    rewrite Hle.
    eexists. split; [reflexivity|]. split; [exact Hv1|].
    rewrite toordinal_tomorrow by assumption.
    rewrite weekday_tomorrow, E6 by exact Hv.
    change ((6 + 1) mod 7) with 0. cbv beta iota. lia.
  - apply Z.eqb_neq in E5, E6. eexists. split; [reflexivity|]. split; [exact Hv|].
    cbv beta iota. lia.
Qed.

Lemma next_occurrence_ok today bd nb :
  next_occurrence today bd = inr nb ->
  valid_date nb /\ month nb = month bd /\ day nb = day bd /\
  (year nb = year today \/ year nb = year today + 1).
Proof.
  unfold next_occurrence, rbind.
  destruct (replace_year bd (year today)) as [e|this_year] eqn:E1; [discriminate|].
  apply replace_year_ok in E1 as [-> Hv1].
  match goal with |- context [lt ?a ?b] => destruct (lt a b) end.
  - intros E2. apply replace_year_ok in E2 as [-> Hv2]. cbn. auto.
  - intros [= <-]. cbn. auto.
Qed.

Lemma next_occurrence_raises today bd e :
  next_occurrence today bd = inl e -> exn_class e = ValueError.
Proof.
  unfold next_occurrence, rbind.
  destruct (replace_year bd (year today)) as [e1|this_year] eqn:E1.
  - intros [= <-]. now apply replace_year_raises in E1.
  - destruct (lt this_year today); [apply replace_year_raises | discriminate].
Qed.

Lemma strptime_raises value e :
  strptime_dmY value = inl e -> exn_class e = ValueError.
Proof.
  unfold strptime_dmY, Strptime.strptime_dmY, rbind.
  destruct (Strptime.regex_match value) as [found|]; [|intros [= <-]; reflexivity].
  destruct (Strptime.unconverted found); [|intros [= <-]; reflexivity].
  match goal with |- context [check_date_fields ?y ?m ?d] =>
    destruct (check_date_fields y m d) as [e'|[]] eqn:E end; [|discriminate].
  intros [= <-]. now apply check_date_fields_raises in E.
Qed.

Lemma days_until_raises now value e :
  days_until now value = inl e -> exn_class e = ValueError.
Proof.
  unfold days_until, rbind.
  destruct (strptime_dmY value) as [e1|bd] eqn:E1; [intros [= <-]; now apply strptime_raises in E1|].
  destruct (next_occurrence now bd) as [e2|nb] eqn:E2; [|discriminate].
  intros [= <-]. now apply next_occurrence_raises in E2.
Qed.

(** Whatever one record makes [get_upcoming_birthdays] raise is a
    [ValueError]: the weekend shift never overflows. *)
Lemma upcoming_entry_raises today now days nm value e :
  upcoming_entry today now days nm value = inl e -> exn_class e = ValueError.
Proof.
  unfold upcoming_entry, rbind.
  destruct (days_until now value) as [e1|n] eqn:E1;
    [intros [= <-]; now apply days_until_raises in E1|].
  destruct (n <=? days); [|discriminate].
  destruct (strptime_dmY value) as [e2|bd] eqn:E2;
    [intros [= <-]; now apply strptime_raises in E2|].
  destruct (next_occurrence today bd) as [e3|nb] eqn:E3;
    [intros [= <-]; now apply next_occurrence_raises in E3|].
  apply next_occurrence_ok in E3 as (Hv & _).
  destruct (weekend_shift_ok nb Hv) as (d' & -> & _). discriminate.
Qed.

(** ** The handler boundary *)

Lemma caught_ret {A} (a : A) : raises_caught (ret a).
Proof. intros w e w' H. discriminate H. Qed.

Lemma caught_throw_ValueError {A} m : raises_caught (@throw A ValueError m).
Proof. intros w e w' [= <- _]. now left. Qed.

Lemma caught_throw_IndexError {A} m : raises_caught (@throw A IndexError m).
Proof. intros w e w' [= <- _]. now right. Qed.

Lemma caught_lift {A} (r : Result A) :
  (forall e, r = inl e -> exn_class e = ValueError) -> raises_caught (lift r).
Proof. intros Hr w e w' [= -> _]. left. now apply Hr. Qed.

Lemma caught_bind {A B} (c : M A) (k : A -> M B) :
  raises_caught c -> (forall a, raises_caught (k a)) -> raises_caught (bind c k).
Proof.
  intros Hc Hk w e w'. unfold bind.
  destruct (c w) as [[e1|a] w1] eqn:E.
  - intros [= <- <-]. eapply Hc; eassumption.
  - apply Hk.
Qed.

Lemma caught_get_record self : raises_caught (get_record self).
Proof. intros w e w' H. discriminate H. Qed.

Lemma caught_set_record self r : raises_caught (set_record self r).
Proof. intros w e w' H. discriminate H. Qed.

Lemma caught_find k : raises_caught (AddressBook.find k).
Proof. intros w e w' H. discriminate H. Qed.

Lemma caught_init nm : raises_caught (Rec.init nm).
Proof. intros w e w' H. discriminate H. Qed.

Lemma caught_add_record record : raises_caught (AddressBook.add_record record).
Proof. intros w e w' H. discriminate H. Qed.

Lemma Phone_raises value e : Phone value = inl e -> exn_class e = ValueError.
Proof. unfold Phone. destruct (is_valid_phone value); [discriminate | now intros [= <-]]. Qed.

Lemma Birthday_raises value e :
  Birthday value = inl e -> e = Raise ValueError (Text invalid_date_message).
Proof.
  unfold Birthday. destruct (strptime_dmY value) as [e1|d] eqn:E; [|discriminate].
  rewrite (strptime_raises _ _ E). now intros [= <-].
Qed.

Lemma caught_add_phone self phone : raises_caught (Rec.add_phone self phone).
Proof.
  apply caught_bind; [apply caught_lift, Phone_raises|]. intros p.
  apply caught_bind; [apply caught_get_record | intros r; apply caught_set_record].
Qed.

Lemma caught_edit_phone_loop self old_phone new_phone :
  forall ps i, raises_caught (Rec.edit_phone_loop self old_phone new_phone i ps).
Proof.
  induction ps as [|p ps IH]; intros i; cbn [Rec.edit_phone_loop];
    [apply caught_throw_ValueError|].
  destruct (decide (p = old_phone)); [|apply IH].
  apply caught_bind; [apply caught_lift, Phone_raises|]. intros v.
  apply caught_bind; [apply caught_get_record|]. intros r.
  apply caught_bind; [apply caught_set_record | intros; apply caught_ret].
Qed.

Lemma caught_edit_phone self old_phone new_phone :
  raises_caught (Rec.edit_phone self old_phone new_phone).
Proof.
  apply caught_bind; [apply caught_get_record | intros r; apply caught_edit_phone_loop].
Qed.

Lemma caught_add_birthday self value : raises_caught (Rec.add_birthday self value).
Proof.
  apply caught_bind.
  - apply caught_lift. intros e H. now rewrite (Birthday_raises _ _ H).
  - intros b. apply caught_bind; [apply caught_get_record | intros r; apply caught_set_record].
Qed.

Lemma caught_upcoming_loop today days :
  forall records upcoming, raises_caught (AddressBook.upcoming_loop today days records upcoming).
Proof.
  induction records as [|record rest IH]; intros upcoming w e w'.
  - discriminate.
  - rewrite upcoming_loop_cons.
    destruct (birthday (heap w !!! record)) as [value|]; [|apply IH].
    destruct (upcoming_entry _ _ _ _ _) as [e1|[entry|]] eqn:E; [|apply IH|apply IH].
    intros [= <- _]. left. eapply upcoming_entry_raises; eassumption.
Qed.

Lemma caught_get_upcoming_birthdays days :
  raises_caught (AddressBook.get_upcoming_birthdays days).
Proof.
  apply caught_bind; [intros w e w' H; discriminate H|].
  intros today w. apply caught_upcoming_loop.
Qed.

Section HandlerBoundary.

Variable repr_str : str -> str.
Variable repr_object : nat -> str.

Lemma caught_wrapped h args : raises_caught (wrapped repr_str repr_object h args).
Proof.
  destruct h; cbn [wrapped].
  - destruct args as [|nm [|phone rest]]; cbn [add_contact__wrapped];
      try apply caught_throw_ValueError.
    apply caught_bind; [apply caught_find|]. intros found.
    apply caught_bind.
    { destruct found; [apply caught_ret|].
      apply caught_bind; [apply caught_init|]. intros record.
      apply caught_bind; [apply caught_add_record | intros; apply caught_ret]. }
    intros rm. apply caught_bind; [|intros; apply caught_ret].
    destruct phone; [apply caught_ret | apply caught_add_phone].
  - destruct args as [|nm [|old_phone [|new_phone [|x rest]]]]; cbn [change_contact__wrapped];
      try apply caught_throw_ValueError.
    apply caught_bind; [apply caught_find|]. intros [record|]; [|apply caught_ret].
    apply caught_bind; [apply caught_edit_phone | intros; apply caught_ret].
  - destruct args as [|nm rest]; cbn [show_phone__wrapped];
      [apply caught_throw_IndexError|].
    apply caught_bind; [apply caught_find|]. intros [record|]; [|apply caught_ret].
    apply caught_bind; [apply caught_get_record | intros; apply caught_ret].
  - intros w e w' H. discriminate H.
  - destruct args as [|nm [|value [|x rest]]]; cbn [add_birthday__wrapped];
      try apply caught_throw_ValueError.
    apply caught_bind; [apply caught_find|]. intros [record|]; [|apply caught_ret].
    apply caught_bind; [apply caught_add_birthday | intros; apply caught_ret].
  - destruct args as [|nm rest]; cbn [show_birthday__wrapped];
      [apply caught_throw_IndexError|].
    apply caught_bind; [apply caught_find|]. intros [record|]; [|apply caught_ret].
    apply caught_bind; [apply caught_get_record|].
    intros r. destruct (birthday r); apply caught_ret.
  - apply caught_bind; [apply caught_get_upcoming_birthdays|].
    intros [|item items]; apply caught_ret.
Qed.

End HandlerBoundary.

(** ** Birthdays on 29 February *)

Lemma leap_then_next_not y : is_leap y = true -> is_leap (y + 1) = false.
Proof.
  unfold is_leap. intros H. apply andb_true_iff in H as [H4 _].
  apply Z.eqb_eq in H4. apply andb_false_iff. left. apply Z.eqb_neq.
  Z.div_mod_to_equations. lia.
Qed.

Lemma strptime_midnight value bd :
  strptime_dmY value = inr bd ->
  valid_date bd /\ hour bd = 0 /\ minute bd = 0 /\ second bd = 0 /\ microsecond bd = 0.
Proof.
  unfold strptime_dmY, Strptime.strptime_dmY, rbind.
  destruct (Strptime.regex_match value) as [found|]; [|discriminate].
  destruct (Strptime.unconverted found); [|discriminate].
  match goal with |- context [check_date_fields ?y ?m ?d] =>
    destruct (check_date_fields y m d) as [e'|[]] eqn:E end; [discriminate|].
  intros [= <-]. apply check_date_fields_ok in E. cbn. auto.
Qed.

Lemma replace_year_feb29 bd y :
  month bd = 2 -> day bd = 29 -> MINYEAR <= y <= MAXYEAR ->
  replace_year bd y =
  if is_leap y
  then inr (mkdatetime y 2 29 (hour bd) (minute bd) (second bd) (microsecond bd))
  else inl day_out_of_range.
Proof.
  intros Hm Hd Hy. unfold replace_year, check_date_fields, rbind. rewrite Hm, Hd.
  unfold MINYEAR, MAXYEAR in *.
  assert ((1 <=? y) && (y <=? 9999) = true) as -> by (apply andb_true_iff; lia).
  cbn [negb]. change ((1 <=? 2) && (2 <=? 12)) with true. cbn [negb].
  unfold days_in_month. change (2 =? 2) with true. cbv beta iota.
  destruct (is_leap y); reflexivity.
Qed.

(** C6: for a record whose birthday is a 29 February, when the clock
    reads a valid date, [get_days_to_birthday] raises the [ValueError]
    of the date constructor, and returns nothing, whenever the year it
    settles on is no leap year; indeed it raises whenever this year is
    no leap year, and also when this year is one but 29 February is
    already past, and it returns a day count only in what remains: in a
    leap year, up to midnight of 29 February. *)
Theorem feb29_birthday_raises_outside_leap_years
    (w : World) (self : nat) (value : str) (birthday_date : datetime) :
  birthday (heap w !!! self) = Some value ->
  strptime_dmY value = inr birthday_date ->
  month birthday_date = 2 -> day birthday_date = 29 ->
  valid_date (clock w (ticks w)) ->
  let today := clock w (ticks w) in
  (is_leap (target_year today 2 29) = false ->
     Rec.get_days_to_birthday self w = (inl day_out_of_range, tick w)) /\
  (is_leap (year today) = false ->
     Rec.get_days_to_birthday self w = (inl day_out_of_range, tick w)) /\
  (is_leap (target_year today 2 29) = true -> is_leap (year today) = true ->
     exists n, Rec.get_days_to_birthday self w = (inr (Some n), tick w)).
Proof.
  intros Hb Hs Hm Hd Hv today. rewrite get_days_to_birthday_run, Hb.
  unfold days_until, next_occurrence, rbind. rewrite Hs. fold today.
  destruct (strptime_midnight _ _ Hs) as (_ & Hh & Hmi & Hse & Hus).
  assert (MINYEAR <= year today <= MAXYEAR) as Hy by apply Hv.
  rewrite (replace_year_feb29 _ _ Hm Hd Hy), Hh, Hmi, Hse, Hus.
  unfold target_year.
  destruct (is_leap (year today)) eqn:Eleap.
  - destruct (lt (mkdatetime (year today) 2 29 0 0 0 0) today) eqn:Elt.
    + assert (MINYEAR <= year today + 1 <= MAXYEAR) as Hy1.
      { unfold MINYEAR, MAXYEAR in *. split; [lia|].
        destruct (Z.eq_dec (year today) 9999) as [E|E]; [|lia].
        rewrite E in Eleap. discriminate Eleap. }
      rewrite (replace_year_feb29 (mkdatetime (year today) 2 29 0 0 0 0) _ eq_refl eq_refl Hy1).
      rewrite (leap_then_next_not _ Eleap).
      repeat split. intros H. discriminate H.
    + repeat split; try discriminate; try congruence. intros _ _. eexists. reflexivity.
  - repeat split; try discriminate.
Qed.

(** ** The list of upcoming birthdays *)

Lemma upcoming_loop_run today days :
  forall records upcoming w,
    fst (AddressBook.upcoming_loop today days records upcoming w) =
    match upcoming_of today (clock w) (ticks w) days (map (fun a => heap w !!! a) records) with
    | inl e => inl e
    | inr entries => inr (upcoming ++ entries)
    end.
Proof.
  induction records as [|record rest IH]; intros upcoming w.
  - cbn. now rewrite app_nil_r.
  - rewrite upcoming_loop_cons. cbn [map upcoming_of].
    destruct (birthday (heap w !!! record)) as [value|]; [|apply IH].
    unfold rbind.
    destruct (upcoming_entry today (clock w (ticks w)) days (name (heap w !!! record)) value)
      as [e|[entry|]]; [reflexivity| |].
    + rewrite IH. cbn.
      destruct (upcoming_of today (clock w) (S (ticks w)) days _); [reflexivity|].
      now rewrite <- app_assoc.
    + rewrite IH. cbn.
      now destruct (upcoming_of today (clock w) (S (ticks w)) days _).
Qed.

Lemma get_upcoming_birthdays_run days w :
  fst (AddressBook.get_upcoming_birthdays days w) =
  upcoming_of (clock w (ticks w)) (clock w) (S (ticks w)) days
              (map (fun a => heap w !!! a) (map snd (data w))).
Proof.
  unfold AddressBook.get_upcoming_birthdays, bind, datetime_today.
  rewrite upcoming_loop_run. cbn.
  now destruct (upcoming_of _ _ _ _ _).
Qed.

(** Records without a birthday add nothing. *)
Lemma upcoming_of_filter today clk days :
  forall rs t,
    upcoming_of today clk t days rs =
    upcoming_of today clk t days
      (List.filter (fun r => match birthday r with Some _ => true | None => false end) rs).
Proof.
  induction rs as [|r rest IH]; intros t; [reflexivity|].
  cbn [upcoming_of List.filter]. destruct (birthday r) as [value|] eqn:E.
  - cbn [upcoming_of]. rewrite E. unfold rbind.
    destruct (upcoming_entry today (clk t) days (name r) value); [reflexivity|].
    now rewrite IH.
  - apply IH.
Qed.

(** Every entry comes from a record. *)
Lemma upcoming_of_entries today clk days :
  forall rs t l, upcoming_of today clk t days rs = inr l ->
  forall entry, entry ∈ l ->
  exists r value now, r ∈ rs /\ birthday r = Some value /\
    upcoming_entry today now days (name r) value = inr (Some entry).
Proof.
  induction rs as [|r rest IH]; intros t l H entry Hin.
  - injection H as <-. inversion Hin.
  - cbn [upcoming_of] in H. destruct (birthday r) as [value|] eqn:E.
    + unfold rbind in H.
      destruct (upcoming_entry today (clk t) days (name r) value) as [e|o] eqn:E1; [discriminate|].
      destruct (upcoming_of today clk (S t) days rest) as [e|entries] eqn:E2; [discriminate|].
      injection H as <-.
      assert (o = Some entry \/ entry ∈ entries) as [->|Hin'].
      { destruct o as [e0|]; [|now right].
        apply elem_of_cons in Hin as [->|Hin]; [now left | now right]. }
      * exists r, value, (clk t). split; [left|]. now split.
      * destruct (IH _ _ E2 entry Hin') as (r' & value' & now & Hr' & Hres).
        exists r', value', now. split; [now right | exact Hres].
    + destruct (IH _ _ H entry Hin) as (r' & value' & now & Hr' & Hres).
      exists r', value', now. split; [now right | exact Hres].
Qed.

Lemma upcoming_entry_name today now days nm value entry :
  upcoming_entry today now days nm value = inr (Some entry) -> entry_name entry = nm.
Proof.
  unfold upcoming_entry, rbind.
  destruct (days_until now value); [discriminate|].
  destruct (_ <=? days); [|discriminate].
  destruct (strptime_dmY value); [discriminate|].
  destruct (next_occurrence today _); [discriminate|].
  destruct (weekend_shift _); [discriminate|].
  now intros [= <-].
Qed.

(** With the record [r] in the middle: its entry, if any, stands between
    the entries of the records before and after it. *)
Lemma upcoming_of_middle today clk days :
  forall pre t r post l,
    upcoming_of today clk t days (pre ++ r :: post) = inr l ->
    exists before after,
      l = before ++
          match birthday r with
          | Some value =>
              match upcoming_entry today
                      (clk (t + length (List.filter
                         (fun r => match birthday r with Some _ => true | None => false end)
                         pre))%nat) days (name r) value with
              | inr (Some entry) => [entry]
              | _ => []
              end
          | None => []
          end ++ after /\
      (forall e, e ∈ before -> exists r', r' ∈ pre /\ entry_name e = name r') /\
      (forall e, e ∈ after -> exists r', r' ∈ post /\ entry_name e = name r') /\
      match birthday r with
      | Some value =>
          exists o, upcoming_entry today
                      (clk (t + length (List.filter
                         (fun r => match birthday r with Some _ => true | None => false end)
                         pre))%nat) days (name r) value = inr o
      | None => True
      end.
Proof.
  induction pre as [|r0 pre IH]; intros t r post l H.
  - cbn [app] in H. cbn [List.filter length]. rewrite Nat.add_0_r.
    cbn [upcoming_of] in H. destruct (birthday r) as [value|] eqn:E.
    + unfold rbind in H.
      destruct (upcoming_entry today (clk t) days (name r) value) as [e|o] eqn:E1; [discriminate|].
      destruct (upcoming_of today clk (S t) days post) as [e|entries] eqn:E2; [discriminate|].
      injection H as <-. exists [], entries. split; [now destruct o|].
      split; [intros e He; inversion He|]. split; [|now exists o].
      intros e He. destruct (upcoming_of_entries _ _ _ _ _ _ E2 e He) as (r' & v & now & Hr' & _ & Hres).
      exists r'. split; [exact Hr'|]. now apply upcoming_entry_name in Hres.
    + exists [], l. split; [reflexivity|]. split; [intros e He; inversion He|]. split; [|exact I].
      intros e He. destruct (upcoming_of_entries _ _ _ _ _ _ H e He) as (r' & v & now & Hr' & _ & Hres).
      exists r'. split; [exact Hr'|]. now apply upcoming_entry_name in Hres.
  - cbn [app upcoming_of] in H. cbn [List.filter].
    destruct (birthday r0) as [value0|] eqn:E0.
    + unfold rbind in H.
      destruct (upcoming_entry today (clk t) days (name r0) value0) as [e|o] eqn:E1; [discriminate|].
      destruct (upcoming_of today clk (S t) days (pre ++ r :: post)) as [e|entries] eqn:E2;
        [discriminate|].
      injection H as <-.
      destruct (IH _ _ _ _ E2) as (before & after & -> & Hb & Ha & Hr).
      cbn [length]. rewrite Nat.add_succ_r. cbn [Nat.add] in Hr |- *.
      exists (match o with Some e => e :: before | None => before end), after.
      split; [now destruct o|]. split; [|split; assumption].
      intros e He.
      assert (o = Some e \/ e ∈ before) as [->|He'].
      { destruct o as [e0|]; [|now right].
        apply elem_of_cons in He as [->|He]; [now left | now right]. }
      * exists r0. split; [left|]. now apply upcoming_entry_name in E1.
      * destruct (Hb e He') as (r' & Hr' & Hn). exists r'. split; [now right | exact Hn].
    + destruct (IH _ _ _ _ H) as (before & after & -> & Hb & Ha & Hr).
      exists before, after. split; [reflexivity|]. split; [|split; assumption].
      intros e He. destruct (Hb e He) as (r' & Hr' & Hn). exists r'. split; [now right | exact Hn].
Qed.

Lemma filter_map_swap {A B} (f : B -> bool) (g : A -> B) (l : list A) :
  List.filter f (map g l) = map g (List.filter (fun a => f (g a)) l).
Proof.
  induction l as [|a l IH]; [reflexivity|]. cbn. destruct (f (g a)); cbn; now rewrite IH.
Qed.

Lemma upcoming_entry_due today now days nm value o :
  upcoming_entry today now days nm value = inr o ->
  exists n, days_until now value = inr n /\ (is_Some o <-> n <= days).
Proof.
  unfold upcoming_entry, rbind.
  destruct (days_until now value) as [e|n]; [discriminate|].
  intros H. exists n. split; [reflexivity|].
  destruct (n <=? days) eqn:E.
  - apply Z.leb_le in E.
    destruct (strptime_dmY value); [discriminate|].
    destruct (next_occurrence today _); [discriminate|].
    destruct (weekend_shift _); [discriminate|].
    injection H as <-. split; [auto | intros _; eauto].
  - apply Z.leb_gt in E. injection H as <-. split; [intros [x Hx]; discriminate | lia].
Qed.

(** In a book that satisfies its invariant the records have the names
    of their keys, so no two of them have the same name. *)
Lemma book_names w :
  book_invariant w ->
  map name (map (fun a => heap w !!! a) (map snd (data w))) = map fst (data w).
Proof.
  intros [_ Hk]. unfold keys_equal_names in Hk.
  induction (data w) as [|[k record] d IH]; [reflexivity|].
  cbn. f_equal.
  - apply (Hk k record). left.
  - apply IH. intros k' record' Hin. apply Hk. now right.
Qed.

(** C1, as amended: whenever [get_upcoming_birthdays(days)] returns a
    list, the list has an entry for a record with a birthday exactly
    when the day count it got from the record's [get_days_to_birthday]
    is at most [days] (so a count of exactly [days] is in, a count of
    [days + 1] is out), and it has none for a record without a
    birthday; such records are skipped altogether, the outcome being
    that of the book without them. *)
Theorem upcoming_birthdays_within_horizon (w : World) (days : Z) :
  fst (AddressBook.get_upcoming_birthdays days w) =
  fst (AddressBook.get_upcoming_birthdays days
         (with_data (List.filter (fun kv => has_birthday w (snd kv)) (data w)) w)) /\
  forall l w',
    AddressBook.get_upcoming_birthdays days w = (inr l, w') ->
    book_invariant w ->
    forall pre record post,
      map snd (data w) = pre ++ record :: post ->
      match birthday (heap w !!! record) with
      | None => name (heap w !!! record) ∉ map entry_name l
      | Some _ =>
          exists n,
            fst (Rec.get_days_to_birthday record (asked_after w pre)) = inr (Some n) /\
            (name (heap w !!! record) ∈ map entry_name l <-> n <= days) /\
            (n = days -> name (heap w !!! record) ∈ map entry_name l) /\
            (n = days + 1 -> name (heap w !!! record) ∉ map entry_name l)
      end.
Proof.
  split.
  - rewrite !get_upcoming_birthdays_run. cbn [heap data clock ticks with_data].
    rewrite upcoming_of_filter. f_equal.
    rewrite filter_map_swap, filter_map_swap. reflexivity.
  - intros l w' Hrun Hinv pre record post Hsplit.
    assert (fst (AddressBook.get_upcoming_birthdays days w) = inr l) as H by now rewrite Hrun.
    rewrite get_upcoming_birthdays_run, Hsplit, map_app in H. cbn [map] in H.
    pose proof (book_names w Hinv) as Hnames.
    rewrite Hsplit, !map_app in Hnames. cbn [map] in Hnames.
    assert (NoDup (map name (map (fun a => heap w !!! a) pre) ++
                   name (heap w !!! record) ::
                   map name (map (fun a => heap w !!! a) post))) as Hnd
      by (rewrite Hnames; apply Hinv).
    apply list.NoDup_app in Hnd as (_ & Hpre & Hnd).
    apply list.NoDup_cons in Hnd as (Hpost & _).
    destruct (upcoming_of_middle _ _ _ _ _ _ _ _ H) as (before & after & Hl & Hb & Ha & Hr).
    assert (name (heap w !!! record) ∉ map entry_name before) as Hnb.
    { intros Hin. apply list_elem_of_fmap in Hin as (e & He & Hin).
      destruct (Hb e Hin) as (r' & Hr' & Hn).
      apply (Hpre (name r')); [apply list_elem_of_fmap; eauto | rewrite <- Hn, <- He; left]. }
    assert (name (heap w !!! record) ∉ map entry_name after) as Hna.
    { intros Hin. apply list_elem_of_fmap in Hin as (e & He & Hin).
      destruct (Ha e Hin) as (r' & Hr' & Hn).
      apply Hpost. rewrite He, Hn. apply list_elem_of_fmap; eauto. }
    rewrite filter_map_swap, length_map in Hl, Hr.
    destruct (birthday (heap w !!! record)) as [value|] eqn:Eb.
    + destruct Hr as [o Ho]. rewrite Ho in Hl.
      destruct (upcoming_entry_due _ _ _ _ _ _ Ho) as (n & Hn & Hdue).
      exists n.
      assert (name (heap w !!! record) ∈ map entry_name l <-> n <= days) as Hiff.
      { rewrite <- Hdue, Hl, !map_app, !elem_of_app. split.
        - intros [Hin|[Hin|Hin]]; [contradiction| |contradiction].
          destruct o; [eauto | inversion Hin].
        - intros [e ->]. right. left. cbn.
          rewrite (upcoming_entry_name _ _ _ _ _ _ Ho). left. }
      split; [|split; [exact Hiff | split; intros ->; rewrite Hiff; lia]].
      rewrite get_days_to_birthday_run. cbn [heap clock ticks asked_after with_ticks].
      rewrite Eb. cbn [fst].
      change (fun a : nat =>
                match birthday (heap w !!! a) with Some _ => true | None => false end)
        with (has_birthday w) in Hn.
      now rewrite Hn.
    + rewrite Hl, !map_app, !elem_of_app. cbn.
      intros [Hin|[Hin|Hin]]; [contradiction | inversion Hin | contradiction].
Qed.

(** ** The birthday strings [strptime] accepts *)

Lemma match_seq_spec cs :
  forall s t r,
    Strptime.match_seq cs s = Some (t, r) <->
    s = t ++ r /\ Forall2 (fun (p : Strptime.CharClass) c => p c = true) cs t.
Proof.
  induction cs as [|p cs IH]; intros s t r.
  - cbn. split.
    + intros [= <- <-]. split; [reflexivity | apply Forall2_nil].
    + intros [-> H]. inversion H. reflexivity.
  - destruct s as [|c s]; cbn.
    + split; [discriminate|]. intros [E H]. inversion H; subst. discriminate E.
    + destruct (p c) eqn:Ep.
      * destruct (Strptime.match_seq cs s) as [[t' r']|] eqn:E.
        -- apply IH in E as [-> H]. split.
           ++ intros [= <- <-]. split; [reflexivity | now constructor].
           ++ intros [E' H']. inversion H' as [|? c' ? t'' Hc Ht]; subst.
              injection E' as <- E'.
              assert (Strptime.match_seq cs (t' ++ r') = Some (t'', r)) as E2
                by (apply IH; now split).
              assert (Strptime.match_seq cs (t' ++ r') = Some (t', r')) as E3
                by (apply IH; now split).
              congruence.
        -- split; [discriminate|]. intros [E' H']. inversion H' as [|? c' ? t'' Hc Ht]; subst.
           injection E' as <- ->.
           assert (Strptime.match_seq cs (t'' ++ r) = Some (t'', r)) as E2
             by (apply IH; now split).
           congruence.
      * split; [discriminate|]. intros [E' H']. inversion H' as [|? c' ? t'' Hc Ht]; subst.
        injection E' as <- _. congruence.
Qed.

Lemma match_group_spec alts s t r :
  (t, r) ∈ Strptime.match_group alts s <->
  s = t ++ r /\ exists alt, alt ∈ alts /\
                 Forall2 (fun (p : Strptime.CharClass) c => p c = true) alt t.
Proof.
  unfold Strptime.match_group. rewrite list_elem_of_omap. split.
  - intros (alt & Hin & H). apply match_seq_spec in H as [-> H]. eauto.
  - intros (-> & alt & Hin & H). exists alt. split; [exact Hin|].
    apply match_seq_spec. now split.
Qed.

Ltac alternatives H :=
  repeat (apply elem_of_cons in H as [->|H]); [..|inversion H].

Ltac two_chars H :=
  inversion H as [|? ? ? ? ?Ha H']; subst; clear H;
  inversion H' as [|? ? ? ? ?Hb H'']; subst; clear H';
  inversion H''; subst; clear H''.

Ltac one_char H :=
  inversion H as [|? ? ? ? ?Ha H']; subst; clear H;
  inversion H'; subst; clear H'.

Ltac in_list := solve [repeat first [left | right]].

Lemma day_field_alt t :
  is_day_field t = true <->
  exists alt, alt ∈ Strptime.re_d /\
    Forall2 (fun (p : Strptime.CharClass) c => p c = true) alt t.
Proof.
  split.
  - destruct t as [|a [|b [|]]]; cbn [is_day_field]; try discriminate.
    + intros H. exists [Strptime.rng "1" "9"]. split; [unfold Strptime.re_d; in_list|].
      repeat constructor. exact H.
    + rewrite !orb_true_iff, !andb_true_iff. intros [[[[Ha Hb]|[Ha Hb]]|[Ha Hb]]|[Ha Hb]].
      * exists [Strptime.one "3"; Strptime.rng "0" "1"].
        split; [unfold Strptime.re_d; in_list | repeat constructor; assumption].
      * exists [Strptime.rng "1" "2"; Strptime.digit].
        split; [unfold Strptime.re_d; in_list | repeat constructor; assumption].
      * exists [Strptime.one "0"; Strptime.rng "1" "9"].
        split; [unfold Strptime.re_d; in_list | repeat constructor; assumption].
      * exists [Strptime.one " "; Strptime.rng "1" "9"].
        split; [unfold Strptime.re_d; in_list | repeat constructor; assumption].
  - intros (alt & Hin & H). unfold Strptime.re_d in Hin. alternatives Hin.
    + two_chars H. cbn [is_day_field]. now rewrite Ha, Hb.
    + two_chars H. cbn [is_day_field]. unfold Strptime.digit in Hb.
      rewrite Ha, Hb. now rewrite orb_true_r.
    + two_chars H. cbn [is_day_field]. rewrite Ha, Hb. now rewrite !orb_true_r.
    + one_char H. cbn [is_day_field]. exact Ha.
    + two_chars H. cbn [is_day_field]. rewrite Ha, Hb. now rewrite !orb_true_r.
Qed.

Lemma month_field_alt t :
  is_month_field t = true <->
  exists alt, alt ∈ Strptime.re_m /\
    Forall2 (fun (p : Strptime.CharClass) c => p c = true) alt t.
Proof.
  split.
  - destruct t as [|a [|b [|]]]; cbn [is_month_field]; try discriminate.
    + intros H. exists [Strptime.rng "1" "9"]. split; [unfold Strptime.re_m; in_list|].
      repeat constructor. exact H.
    + rewrite !orb_true_iff, !andb_true_iff. intros [[Ha Hb]|[Ha Hb]].
      * exists [Strptime.one "1"; Strptime.rng "0" "2"].
        split; [unfold Strptime.re_m; in_list | repeat constructor; assumption].
      * exists [Strptime.one "0"; Strptime.rng "1" "9"].
        split; [unfold Strptime.re_m; in_list | repeat constructor; assumption].
  - intros (alt & Hin & H). unfold Strptime.re_m in Hin. alternatives Hin.
    + two_chars H. cbn [is_month_field]. now rewrite Ha, Hb.
    + two_chars H. cbn [is_month_field]. rewrite Ha, Hb. now rewrite !orb_true_r.
    + one_char H. cbn [is_month_field]. exact Ha.
Qed.

Lemma year_field_alt t :
  is_year_field t = true <->
  exists alt, alt ∈ Strptime.re_Y /\
    Forall2 (fun (p : Strptime.CharClass) c => p c = true) alt t.
Proof.
  unfold is_year_field, Strptime.re_Y, Strptime.digit. split.
  - destruct t as [|a [|b [|c [|d [|]]]]]; cbn; try discriminate.
    rewrite !andb_true_iff. intros (Ha & Hb & Hc & Hd & _).
    eexists. split; [left|]. repeat constructor; assumption.
  - intros (alt & Hin & H). alternatives Hin.
    inversion H as [|? ? ? ? ?Ha H1]; subst; clear H.
    inversion H1 as [|? ? ? ? ?Hb H2]; subst; clear H1.
    inversion H2 as [|? ? ? ? ?Hc H3]; subst; clear H2.
    inversion H3 as [|? ? ? ? ?Hd H4]; subst; clear H3.
    inversion H4; subst. cbn [length Nat.eqb forallb andb]. now rewrite Ha, Hb, Hc, Hd.
Qed.

Lemma dot_alt t :
  t = [46%N] <->
  exists alt, alt ∈ Strptime.re_dot /\
    Forall2 (fun (p : Strptime.CharClass) c => p c = true) alt t.
Proof.
  unfold Strptime.re_dot. split.
  - intros ->. eexists. split; [left|]. repeat constructor.
  - intros (alt & Hin & H). alternatives Hin. one_char H.
    unfold Strptime.one, Strptime.ch in Ha. apply N.eqb_eq in Ha. now subst.
Qed.

Lemma matches_spec data found :
  found ∈ Strptime.matches data <->
  data = Strptime.d found ++ [46%N] ++ Strptime.m found ++ [46%N] ++
         Strptime.Y found ++ Strptime.unconverted found /\
  is_day_field (Strptime.d found) = true /\
  is_month_field (Strptime.m found) = true /\
  is_year_field (Strptime.Y found) = true.
Proof.
  rewrite day_field_alt, month_field_alt, year_field_alt.
  unfold Strptime.matches. rewrite list_elem_of_In, in_flat_map. split.
  - intros ([fd r1] & H1 & H). apply in_flat_map in H as ([dot1 r2] & H2 & H).
    apply in_flat_map in H as ([fm r3] & H3 & H).
    apply in_flat_map in H as ([dot2 r4] & H4 & H).
    apply in_map_iff in H as ([fy r5] & <- & H5).
    apply list_elem_of_In, match_group_spec in H1 as (-> & A1).
    apply list_elem_of_In, match_group_spec in H2 as (-> & A2).
    apply list_elem_of_In, match_group_spec in H3 as (-> & A3).
    apply list_elem_of_In, match_group_spec in H4 as (-> & A4).
    apply list_elem_of_In, match_group_spec in H5 as (-> & A5).
    apply dot_alt in A2 as ->. apply dot_alt in A4 as ->.
    cbn [Strptime.d Strptime.m Strptime.Y Strptime.unconverted].
    repeat split; assumption.
  - destruct found as [fd fm fy rest]. cbn [Strptime.d Strptime.m Strptime.Y Strptime.unconverted].
    intros (-> & A1 & A3 & A5).
    exists (fd, [46%N] ++ fm ++ [46%N] ++ fy ++ rest). split.
    { apply list_elem_of_In, match_group_spec. now split. }
    apply in_flat_map. exists ([46%N], fm ++ [46%N] ++ fy ++ rest). split.
    { apply list_elem_of_In, match_group_spec. split; [reflexivity | now apply dot_alt]. }
    apply in_flat_map. exists (fm, [46%N] ++ fy ++ rest). split.
    { apply list_elem_of_In, match_group_spec. now split. }
    apply in_flat_map. exists ([46%N], fy ++ rest). split.
    { apply list_elem_of_In, match_group_spec. split; [reflexivity | now apply dot_alt]. }
    apply in_map_iff. exists (fy, rest). split; [reflexivity|].
    apply list_elem_of_In, match_group_spec. now split.
Qed.

Lemma day_field_no_dot f : is_day_field f = true -> 46%N ∉ f.
Proof.
  destruct f as [|a [|b [|]]]; cbn [is_day_field]; try discriminate; intros H Hin.
  - apply list_elem_of_singleton in Hin as <-. discriminate H.
  - apply elem_of_cons in Hin as [<-|Hin]; [discriminate H|].
    apply list_elem_of_singleton in Hin as <-.
    rewrite !orb_true_iff, !andb_true_iff in H.
    destruct H as [[[[_ H]|[_ H]]|[_ H]]|[_ H]]; discriminate H.
Qed.

Lemma month_field_no_dot f : is_month_field f = true -> 46%N ∉ f.
Proof.
  destruct f as [|a [|b [|]]]; cbn [is_month_field]; try discriminate; intros H Hin.
  - apply list_elem_of_singleton in Hin as <-. discriminate H.
  - apply elem_of_cons in Hin as [<-|Hin]; [discriminate H|].
    apply list_elem_of_singleton in Hin as <-.
    rewrite !orb_true_iff, !andb_true_iff in H.
    destruct H as [[_ H]|[_ H]]; discriminate H.
Qed.

(** A string is cut at its first separator in one way only. *)
Lemma split_at_first (sep : N) :
  forall a a' b b', sep ∉ a -> sep ∉ a' ->
    a ++ sep :: b = a' ++ sep :: b' -> a = a' /\ b = b'.
Proof.
  induction a as [|x a IH]; intros [|x' a'] b b' Ha Ha' E; cbn in E.
  - injection E as <-. now split.
  - injection E as <- _. exfalso. apply Ha'. left.
  - injection E as -> _. exfalso. apply Ha. left.
  - injection E as <- E. destruct (IH a' b b') as [-> ->]; auto.
    + intros H. apply Ha. now right.
    + intros H. apply Ha'. now right.
Qed.

Lemma year_field_length f : is_year_field f = true -> length f = 4%nat.
Proof. unfold is_year_field. intros H. apply andb_true_iff in H as [H _]. now apply Nat.eqb_eq. Qed.

(** The pattern matches a well-formed string in one way, up to its
    end. *)
Lemma regex_match_fields fd fm fy :
  is_day_field fd = true -> is_month_field fm = true -> is_year_field fy = true ->
  Strptime.regex_match (fd ++ [46%N] ++ fm ++ [46%N] ++ fy) =
  Some (Strptime.mkFound fd fm fy []).
Proof.
  intros Hd Hm Hy. unfold Strptime.regex_match.
  set (data := fd ++ [46%N] ++ fm ++ [46%N] ++ fy).
  assert (Strptime.mkFound fd fm fy [] ∈ Strptime.matches data) as Hin.
  { apply matches_spec. cbn [Strptime.d Strptime.m Strptime.Y Strptime.unconverted].
    now rewrite app_nil_r. }
  destruct (Strptime.matches data) as [|x l] eqn:E; [inversion Hin|].
  cbn [head]. f_equal.
  assert (x ∈ Strptime.matches data) as Hx by (rewrite E; left).
  apply matches_spec in Hx as (Hdata & Xd & Xm & Xy).
  destruct x as [xd xm xy rest]. cbn [Strptime.d Strptime.m Strptime.Y Strptime.unconverted] in *.
  unfold data in Hdata. cbn [app] in Hdata.
  apply split_at_first in Hdata as [<- Hdata];
    [|now apply day_field_no_dot|now apply day_field_no_dot].
  apply split_at_first in Hdata as [<- Hdata];
    [|now apply month_field_no_dot|now apply month_field_no_dot].
  apply year_field_length in Hy, Xy.
  assert (length rest = 0%nat) as Hrest.
  { apply (f_equal length) in Hdata. rewrite length_app in Hdata. lia. }
  destruct rest; [|discriminate Hrest]. rewrite app_nil_r in Hdata. now subst.
Qed.

(** What [strptime] accepts, and what it reads. *)
Lemma strptime_accepts value dt :
  strptime_dmY value = inr dt <->
  exists y m d, reads_as value y m d /\ real_date y m d /\ dt = mkdatetime y m d 0 0 0 0.
Proof.
  unfold strptime_dmY, Strptime.strptime_dmY, rbind. split.
  - destruct (Strptime.regex_match value) as [found|] eqn:E; [|discriminate].
    destruct (Strptime.unconverted found) eqn:Er; [|discriminate].
    match goal with |- context [check_date_fields ?y ?m ?d] =>
      destruct (check_date_fields y m d) as [e'|[]] eqn:Ec end; [discriminate|].
    intros [= <-]. apply check_date_fields_ok in Ec.
    assert (found ∈ Strptime.matches value) as Hin.
    { unfold Strptime.regex_match in E. destruct (Strptime.matches value); [discriminate|].
      injection E as ->. left. }
    apply matches_spec in Hin as (Hdata & Xd & Xm & Xy). rewrite Er, app_nil_r in Hdata.
    eexists _, _, _. split; [|split; [exact Ec | reflexivity]].
    exists (Strptime.d found), (Strptime.m found), (Strptime.Y found).
    repeat split; assumption.
  - intros (y & m & d & (fd & fm & fy & -> & Hd & Hm & Hy & -> & -> & ->) & Hreal & ->).
    change (lit ".") with [46%N].
    rewrite (regex_match_fields fd fm fy Hd Hm Hy).
    cbn [Strptime.d Strptime.m Strptime.Y Strptime.unconverted].
    apply check_date_fields_ok in Hreal. now rewrite Hreal.
Qed.

Lemma Birthday_run value :
  Birthday value =
  match strptime_dmY value with
  | inr _ => ok value
  | inl _ => raise ValueError invalid_date_message
  end.
Proof.
  unfold Birthday. destruct (strptime_dmY value) as [e|d] eqn:E; [|reflexivity].
  now rewrite (strptime_raises _ _ E).
Qed.

Lemma denotes_a_date_strptime value :
  denotes_a_date value <-> exists dt, strptime_dmY value = inr dt.
Proof.
  split.
  - intros (y & m & d & Hr & Hd). exists (mkdatetime y m d 0 0 0 0).
    apply strptime_accepts. exists y, m, d. auto.
  - intros (dt & H). apply strptime_accepts in H as (y & m & d & Hr & Hd & _).
    now exists y, m, d.
Qed.

(** C3, as amended: [Birthday(value)] succeeds, storing [value] as it
    is, exactly when [value] is a day, a dot, a month, a dot and a
    four-digit year that denote a real calendar date, where day and
    month may be written with one digit or two (and a one-digit day
    after a blank); every other string raises the [ValueError] of the
    validation.  So 29.02.2024 and 1.1.2024 are accepted, 29.02.2023 and
    31.04.2024 are not. *)
Theorem Birthday_accepts_what_strptime_reads (value : str) :
  (Birthday value = ok value <-> denotes_a_date value) /\
  (forall stored, Birthday value = ok stored -> stored = value) /\
  (~ denotes_a_date value <-> Birthday value = raise ValueError invalid_date_message) /\
  Birthday (lit "29.02.2024") = ok (lit "29.02.2024") /\
  Birthday (lit "1.1.2024") = ok (lit "1.1.2024") /\
  Birthday (lit "29.02.2023") = raise ValueError invalid_date_message /\
  Birthday (lit "31.04.2024") = raise ValueError invalid_date_message.
Proof.
  rewrite denotes_a_date_strptime, Birthday_run.
  split; [|split; [|split; [|repeat split]]].
  - destruct (strptime_dmY value) as [e|dt].
    + split; [discriminate | intros [dt' H]; discriminate H].
    + split; [eauto | reflexivity].
  - destruct (strptime_dmY value); [discriminate | unfold ok; congruence].
  - destruct (strptime_dmY value) as [e|dt].
    + split; [reflexivity | intros _ [dt' H]; discriminate H].
    + split; [intros H; exfalso; apply H; eauto | discriminate].
Qed.

(** C3 as the specification states it fails: [1.1.2024] has one-digit
    fields, so it is not of the form [DD.MM.YYYY], yet [strptime] reads
    it as 1 January 2024 and the birthday is built. *)
Lemma Birthday_one_digit_fields_accepted :
  Birthday (lit "1.1.2024") = ok (lit "1.1.2024") /\
  strptime_dmY (lit "1.1.2024") = inr (mkdatetime 2024 1 1 0 0 0 0) /\
  length (lit "1.1.2024") = 8%nat /\
  (is_DD_MM_YYYY (lit "1.1.2024") -> False).
Proof.
  repeat split. intros (d1 & d2 & m1 & m2 & y1 & y2 & y3 & y4 & E & _). discriminate E.
Qed.

(** Every real date written as [DD.MM.YYYY] is read back as that date. *)
Lemma day_field_roundtrip n :
  1 <= n <= 31 -> is_day_field (zero_pad 2 (Z.to_N n)) = true /\
                  int_of_digits (zero_pad 2 (Z.to_N n)) = n.
Proof.
  intros Hn.
  assert (forallb (fun n => is_day_field (zero_pad 2 (Z.to_N n)) &&
                            (int_of_digits (zero_pad 2 (Z.to_N n)) =? n))
                  (map Z.of_nat (seq 1 31)) = true) as H by (vm_compute; reflexivity).
  rewrite forallb_forall in H. specialize (H n).
  rewrite andb_true_iff, Z.eqb_eq in H. apply H.
  apply in_map_iff. exists (Z.to_nat n). split; [lia|]. apply in_seq. lia.
Qed.

Lemma month_field_roundtrip n :
  1 <= n <= 12 -> is_month_field (zero_pad 2 (Z.to_N n)) = true /\
                  int_of_digits (zero_pad 2 (Z.to_N n)) = n.
Proof.
  intros Hn.
  assert (forallb (fun n => is_month_field (zero_pad 2 (Z.to_N n)) &&
                            (int_of_digits (zero_pad 2 (Z.to_N n)) =? n))
                  (map Z.of_nat (seq 1 12)) = true) as H by (vm_compute; reflexivity).
  rewrite forallb_forall in H. specialize (H n).
  rewrite andb_true_iff, Z.eqb_eq in H. apply H.
  apply in_map_iff. exists (Z.to_nat n). split; [lia|]. apply in_seq. lia.
Qed.

Lemma year_field_roundtrip n :
  1 <= n <= 9999 -> is_year_field (zero_pad 4 (Z.to_N n)) = true /\
                    int_of_digits (zero_pad 4 (Z.to_N n)) = n.
Proof.
  intros Hn.
  assert (forallb (fun n => is_year_field (zero_pad 4 (Z.to_N n)) &&
                            (int_of_digits (zero_pad 4 (Z.to_N n)) =? n))
                  (map Z.of_nat (seq 1 (Z.to_nat 9999))) = true) as H
    by (vm_compute; reflexivity).
  rewrite forallb_forall in H. specialize (H n).
  rewrite andb_true_iff, Z.eqb_eq in H. apply H.
  apply in_map_iff. exists (Z.to_nat n). split; [lia|]. apply in_seq. lia.
Qed.

(** From year 1000 on the year has four digits as it is. *)
Lemma str_of_N_four_digits n :
  (1000 <= n < 10000)%N -> str_of_N n = zero_pad 4 n.
Proof.
  intros Hn.
  assert (forallb (fun n => bool_decide (str_of_N n = zero_pad 4 n))
                  (map N.of_nat (seq (N.to_nat 1000) (N.to_nat 9000))) = true) as H
    by (vm_compute; reflexivity).
  rewrite forallb_forall in H. eapply bool_decide_eq_true_1. apply H.
  apply in_map_iff. exists (N.to_nat n). split; [lia|]. apply in_seq. lia.
Qed.

Lemma strftime_dmY_padded d :
  1000 <= year d <= MAXYEAR ->
  strftime_dmY d =
  zero_pad 2 (Z.to_N (day d)) ++ lit "." ++
  zero_pad 2 (Z.to_N (month d)) ++ lit "." ++
  zero_pad 4 (Z.to_N (year d)).
Proof.
  unfold MAXYEAR. intros Hy. unfold strftime_dmY.
  now rewrite str_of_N_four_digits by lia.
Qed.

Lemma strptime_strftime d :
  valid_date d -> 1000 <= year d ->
  strptime_dmY (strftime_dmY d) = inr (mkdatetime (year d) (month d) (day d) 0 0 0 0).
Proof.
  intros Hv Hfour. pose proof Hv as (Hy & Hm & Hd).
  rewrite strftime_dmY_padded by (split; [exact Hfour | apply Hy]).
  unfold MINYEAR, MAXYEAR in Hy.
  pose proof (days_in_month_bounds (year d) (month d)) as Hdim.
  apply strptime_accepts. exists (year d), (month d), (day d).
  split; [|split; [exact Hv | reflexivity]].
  destruct (day_field_roundtrip (day d)) as [D1 D2]; [lia|].
  destruct (month_field_roundtrip (month d)) as [M1 M2]; [lia|].
  destruct (year_field_roundtrip (year d)) as [Y1 Y2]; [lia|].
  eexists _, _, _. split; [reflexivity|]. repeat split; auto.
Qed.

(** ** The reported date *)

Lemma zero_pad_2 n :
  (n < 100)%N -> zero_pad 2 n = [48 + n / 10; 48 + n mod 10]%N.
Proof.
  intros Hn.
  assert (forallb (fun n => bool_decide (zero_pad 2 n = [48 + n / 10; 48 + n mod 10]%N))
                  (map N.of_nat (seq 0 100)) = true) as H by (vm_compute; reflexivity).
  rewrite forallb_forall in H. eapply bool_decide_eq_true_1. apply H.
  apply in_map_iff. exists (N.to_nat n). split; [lia|]. apply in_seq. lia.
Qed.

Lemma zero_pad_4 n :
  (n < 10000)%N ->
  zero_pad 4 n = [48 + n / 1000; 48 + (n / 100) mod 10; 48 + (n / 10) mod 10; 48 + n mod 10]%N.
Proof.
  intros Hn.
  assert (forallb (fun n => bool_decide
                    (zero_pad 4 n = [48 + n / 1000; 48 + (n / 100) mod 10;
                                     48 + (n / 10) mod 10; 48 + n mod 10]%N))
                  (map N.of_nat (seq 0 (N.to_nat 10000))) = true) as H
    by (vm_compute; reflexivity).
  rewrite forallb_forall in H. eapply bool_decide_eq_true_1. apply H.
  apply in_map_iff. exists (N.to_nat n). split; [lia|]. apply in_seq. lia.
Qed.

Lemma ascii_digit_of_small n : (n < 10)%N -> Unicode.is_ascii_digit (48 + n) = true.
Proof.
  intros H. unfold Unicode.is_ascii_digit. apply andb_true_iff.
  split; apply N.leb_le; lia.
Qed.

(** A valid date from year 1000 on is written as [DD.MM.YYYY]. *)
Lemma strftime_shape d :
  valid_date d -> 1000 <= year d -> is_DD_MM_YYYY (strftime_dmY d).
Proof.
  intros (Hy & Hm & Hd) Hfour.
  rewrite strftime_dmY_padded by (split; [exact Hfour | apply Hy]).
  unfold MINYEAR, MAXYEAR in Hy.
  pose proof (days_in_month_bounds (year d) (month d)) as Hdim.
  rewrite !zero_pad_2, zero_pad_4 by lia.
  eexists _, _, _, _, _, _, _, _. split; [reflexivity|].
  repeat apply Forall_cons_2; try apply Forall_nil_2; apply ascii_digit_of_small.
  - apply N.Div0.div_lt_upper_bound. lia.
  - now apply N.mod_lt.
  - apply N.Div0.div_lt_upper_bound. lia.
  - now apply N.mod_lt.
  - apply N.Div0.div_lt_upper_bound. lia.
  - now apply N.mod_lt.
  - now apply N.mod_lt.
  - now apply N.mod_lt.
Qed.

Lemma upcoming_entry_Some today now days nm value entry :
  upcoming_entry today now days nm value = inr (Some entry) ->
  exists birthday_date next_birthday shifted,
    strptime_dmY value = inr birthday_date /\
    next_occurrence today birthday_date = inr next_birthday /\
    weekend_shift next_birthday = inr shifted /\
    entry = mkEntry nm (strftime_dmY shifted).
Proof.
  unfold upcoming_entry, rbind.
  destruct (days_until now value); [discriminate|].
  destruct (_ <=? days); [|discriminate].
  destruct (strptime_dmY value) as [|bd] eqn:E1; [discriminate|].
  destruct (next_occurrence today bd) as [|nb] eqn:E2; [discriminate|].
  destruct (weekend_shift nb) as [|shifted] eqn:E3; [discriminate|].
  intros [= <-]. exists bd, nb, shifted. repeat split; assumption.
Qed.

Lemma weekend_shift_shifted next_birthday reported :
  valid_date next_birthday -> weekend_shift next_birthday = inr reported ->
  weekend_shifted next_birthday reported /\ valid_date reported.
Proof.
  intros Hv Hw. destruct (weekend_shift_ok next_birthday Hv) as (d' & Hw' & Hv' & Hord & Hday).
  rewrite Hw in Hw'. injection Hw' as <-. split; [|exact Hv'].
  unfold weekend_shift in Hw. unfold weekend_shifted.
  split; [|split; [|split; [|exact Hday]]].
  - intros E. rewrite E in Hw, Hord. cbn in Hw, Hord. now split.
  - intros E. rewrite E in Hw, Hord. cbn in Hw, Hord. now split.
  - intros E.
    destruct (weekday next_birthday =? 5) eqn:E5; [apply Z.eqb_eq in E5; lia|].
    destruct (weekday next_birthday =? 6) eqn:E6; [apply Z.eqb_eq in E6; lia|].
    now injection Hw as <-.
Qed.

(** The shift never goes back to an earlier year. *)
Lemma tomorrow_year d : year d <= year (tomorrow d).
Proof.
  unfold tomorrow. destruct (day d <? days_in_month (year d) (month d)); [cbn; lia|].
  destruct (month d <? 12); cbn; lia.
Qed.

Lemma weekend_shift_year next_birthday reported :
  weekend_shift next_birthday = inr reported -> year next_birthday <= year reported.
Proof.
  unfold weekend_shift, add_days.
  pose proof (tomorrow_year next_birthday) as H1.
  pose proof (tomorrow_year (tomorrow next_birthday)) as H2.
  destruct (weekday next_birthday =? 5).
  - cbn [Nat.iter nat_rect]. destruct (_ <=? MAXYEAR); [|discriminate].
    intros [= <-]. lia.
  - destruct (weekday next_birthday =? 6).
    + cbn [Nat.iter nat_rect]. destruct (_ <=? MAXYEAR); [|discriminate].
      intros [= <-]. lia.
    + intros [= <-]. lia.
Qed.

Lemma upcoming_entry_reported today now days nm value entry :
  upcoming_entry today now days nm value = inr (Some entry) ->
  entry_name entry = nm /\
  exists reported,
    reported_for today value reported /\
    entry_birthday entry = strftime_dmY reported /\
    (1000 <= year today -> written_DD_MM_YYYY reported (entry_birthday entry)).
Proof.
  intros He.
  destruct (upcoming_entry_Some _ _ _ _ _ _ He) as (bd & nb & shifted & Hs & Hn & Hw & ->).
  destruct (next_occurrence_ok _ _ _ Hn) as (Hv & _ & _ & Hyear).
  destruct (weekend_shift_shifted nb shifted Hv Hw) as (Hshift & Hv').
  pose proof (weekend_shift_year _ _ Hw) as Hlater.
  split; [reflexivity|]. exists shifted. cbn [entry_birthday].
  split; [exists bd, nb; split; [exact Hs | split; [exact Hn | exact Hshift]]|].
  split; [reflexivity|]. intros Hfour.
  assert (1000 <= year shifted) as Hfour' by lia.
  split; [now apply strftime_shape | now apply strptime_strftime].
Qed.

(** C2: every entry of the list [get_upcoming_birthdays] returns is the
    entry of a record of the book, and every record whose day count is
    within the horizon has its entry; the date of the entry is the next
    occurrence of the record's birthday (computed from the clock reading
    of [get_upcoming_birthdays]) moved on by two days when that is a
    Saturday, by one day when it is a Sunday, and not at all from Monday
    to Friday, whatever the clock reads; and when the clock reads a year
    from 1000 on, it is written as [DD.MM.YYYY], two digits for the
    day, two for the month and four for the year, which [strptime] reads
    back as the reported date (in an earlier year [strftime] writes the
    year with fewer than four digits). *)
Theorem reported_birthday_is_weekend_shifted
    (w : World) (days : Z) (l : list Entry) (w' : World) :
  AddressBook.get_upcoming_birthdays days w = (inr l, w') ->
  (forall entry, entry ∈ l ->
     exists record value reported,
       record ∈ map snd (data w) /\
       birthday (heap w !!! record) = Some value /\
       entry_name entry = name (heap w !!! record) /\
       reported_for (clock w (ticks w)) value reported /\
       entry_birthday entry = strftime_dmY reported /\
       (1000 <= year (clock w (ticks w)) ->
        written_DD_MM_YYYY reported (entry_birthday entry))) /\
  (forall pre record post value n,
     map snd (data w) = pre ++ record :: post ->
     birthday (heap w !!! record) = Some value ->
     fst (Rec.get_days_to_birthday record (asked_after w pre)) = inr (Some n) ->
     n <= days ->
     exists reported,
       mkEntry (name (heap w !!! record)) (strftime_dmY reported) ∈ l /\
       reported_for (clock w (ticks w)) value reported /\
       (1000 <= year (clock w (ticks w)) ->
        written_DD_MM_YYYY reported (strftime_dmY reported))).
Proof.
  intros Hrun.
  assert (fst (AddressBook.get_upcoming_birthdays days w) = inr l) as H by now rewrite Hrun.
  rewrite get_upcoming_birthdays_run in H. split.
  - intros entry Hin.
    destruct (upcoming_of_entries _ _ _ _ _ _ H entry Hin) as (r & value & now & Hr & Hb & He).
    apply list_elem_of_fmap in Hr as (record & -> & Hrecord).
    destruct (upcoming_entry_reported _ _ _ _ _ _ He)
      as (Hname & reported & Hrep & Hstr & Hform).
    exists record, value, reported.
    split; [exact Hrecord|]. split; [exact Hb|]. split; [exact Hname|].
    split; [exact Hrep|]. split; [exact Hstr | exact Hform].
  - intros pre record post value n Hsplit Hb Hdays Hn.
    rewrite Hsplit, map_app in H. cbn [map] in H.
    destruct (upcoming_of_middle _ _ _ _ _ _ _ _ H) as (before & after & Hl & _ & _ & Hr).
    rewrite filter_map_swap, length_map in Hl, Hr. rewrite Hb in Hl, Hr.
    destruct Hr as [o Ho]. rewrite Ho in Hl.
    destruct (upcoming_entry_due _ _ _ _ _ _ Ho) as (n' & Hn' & Hdue).
    rewrite get_days_to_birthday_run in Hdays.
    cbn [heap clock ticks asked_after with_ticks] in Hdays. rewrite Hb in Hdays.
    cbn [fst] in Hdays.
    change (fun a : nat =>
              match birthday (heap w !!! a) with Some _ => true | None => false end)
      with (has_birthday w) in Hn'.
    rewrite Hn' in Hdays. injection Hdays as ->.
    destruct (proj2 Hdue Hn) as [entry ->].
    destruct (upcoming_entry_reported _ _ _ _ _ _ Ho)
      as (Hname & reported & Hrep & Hstr & Hform).
    exists reported. rewrite <- Hstr. split; [|split; [exact Hrep | exact Hform]].
    rewrite Hl, <- Hname. destruct entry. cbn.
    apply elem_of_app. right. left.
Qed.

(** Before year 1000 the year is written as it is, with fewer than four
    digits, and [strptime] does not read the date back. *)
Example strftime_before_1000 :
  strftime_dmY (mkdatetime 999 3 5 0 0 0 0) = lit "05.03.999" /\
  strptime_dmY (lit "05.03.999") =
    inl (Raise ValueError (TimeDataMismatch (lit "05.03.999"))).
Proof. vm_compute. split; reflexivity. Qed.

(** ** The day count and the time of day

    The next occurrence is a midnight and the clock is not: unless the
    clock reads midnight exactly, the day count is one less than the
    number of calendar days between the two dates. *)

Lemma sub_days_from_midnight next_birthday today :
  hour next_birthday = 0 -> minute next_birthday = 0 -> second next_birthday = 0 ->
  microsecond next_birthday = 0 -> valid_time today ->
  sub_days next_birthday today =
  toordinal next_birthday - toordinal today -
  (if (seconds_of_day today =? 0) && (microsecond today =? 0) then 0 else 1).
Proof.
  intros Hh Hm Hs Hu (H1 & H2 & H3 & H4).
  unfold sub_days, seconds_of_day. rewrite Hh, Hm, Hs, Hu.
  destruct (second today + minute today * 60 + hour today * 3600 =? 0) eqn:E1;
    [destruct (microsecond today =? 0) eqn:E2|];
    cbn [andb]; rewrite ?Z.eqb_eq, ?Z.eqb_neq in *;
    Z.div_mod_to_equations; lia.
Qed.

(** ** Examples *)

Lemma weekend_book_run :
  AddressBook.get_upcoming_birthdays 7 weekend_book =
  (inr weekend_list, with_ticks 6 weekend_book).
Proof. vm_compute. reflexivity. Qed.

Lemma weekend_book_invariant : book_invariant weekend_book.
Proof.
  split.
  - cbn.
    repeat (apply NoDup_cons_2;
            [intros H; repeat (apply elem_of_cons in H as [H|H]; [discriminate H|]);
             inversion H|]).
    apply NoDup_nil_2.
  - intros k record H. cbn in H.
    repeat (apply elem_of_cons in H as [[= -> ->]|H]; [split; [cbn; lia | reflexivity]|]).
    inversion H.
Qed.

(** The day counts of the example.  Alice's is exactly the horizon of
    seven days, although her birthday is eight calendar days on, Fred's
    is eight, and Gina, whose birthday is today, has to wait for next
    year. *)
Example weekend_book_days :
  fst (Rec.get_days_to_birthday 0 weekend_book) = inr (Some 7) /\
  toordinal (mkdatetime 2025 3 9 0 0 0 0) - toordinal (noon_1_march_2025 0%nat) = 8 /\
  fst (Rec.get_days_to_birthday 1 weekend_book) = inr (Some 6) /\
  fst (Rec.get_days_to_birthday 2 weekend_book) = inr None /\
  fst (Rec.get_days_to_birthday 3 weekend_book) = inr (Some 5) /\
  fst (Rec.get_days_to_birthday 4 weekend_book) = inr (Some 8) /\
  fst (Rec.get_days_to_birthday 5 weekend_book) = inr (Some 364).
Proof. vm_compute. repeat split. Qed.

(** C1 as the specification states it fails: in a book with a
    29 February birthday, in a year that is no leap year, the call
    raises and returns no list at all, so Bob, whose day count is zero
    and within the horizon of seven days, is not included. *)
Lemma upcoming_fails_as_stated :
  birthday (heap leap_day_book !!! 0%nat) = Some (lit "02.03.1985") /\
  fst (Rec.get_days_to_birthday 0 (asked_after leap_day_book [])) = inr (Some 0) /\
  0 <= 7 /\
  fst (AddressBook.get_upcoming_birthdays 7 leap_day_book) = inl day_out_of_range.
Proof. vm_compute. repeat split; discriminate. Qed.

(** ** The theorems at work on the examples *)

Lemma upcoming_birthdays_within_horizon_witness :
  (exists n,
     fst (Rec.get_days_to_birthday 0 (asked_after weekend_book [])) = inr (Some n) /\
     (lit "alice" ∈ map entry_name weekend_list <-> n <= 7) /\
     (n = 7 -> lit "alice" ∈ map entry_name weekend_list) /\
     (n = 7 + 1 -> lit "alice" ∉ map entry_name weekend_list)) /\
  lit "carl" ∉ map entry_name weekend_list.
Proof.
  split.
  - exact (proj2 (upcoming_birthdays_within_horizon weekend_book 7)
             weekend_list _ weekend_book_run weekend_book_invariant
             [] 0%nat [1; 2; 3; 4; 5]%nat eq_refl).
  - exact (proj2 (upcoming_birthdays_within_horizon weekend_book 7)
             weekend_list _ weekend_book_run weekend_book_invariant
             [0; 1]%nat 2%nat [3; 4; 5]%nat eq_refl).
Defined.

Lemma reported_birthday_is_weekend_shifted_witness :
  (exists record value reported,
     record ∈ map snd (data weekend_book) /\
     birthday (heap weekend_book !!! record) = Some value /\
     lit "bob" = name (heap weekend_book !!! record) /\
     reported_for (noon_1_march_2025 0%nat) value reported /\
     lit "10.03.2025" = strftime_dmY reported /\
     written_DD_MM_YYYY reported (lit "10.03.2025")) /\
  (exists reported,
     mkEntry (lit "alice") (strftime_dmY reported) ∈ weekend_list /\
     reported_for (noon_1_march_2025 0%nat) (lit "09.03.1990") reported /\
     written_DD_MM_YYYY reported (strftime_dmY reported)).
Proof.
  assert (1000 <= year (clock weekend_book (ticks weekend_book))) as Hyear
    by (vm_compute; discriminate).
  split.
  - destruct (proj1 (reported_birthday_is_weekend_shifted weekend_book 7 weekend_list _
                       weekend_book_run) (mkEntry (lit "bob") (lit "10.03.2025")))
      as (record & value & reported & H1 & H2 & H3 & H4 & H5 & H6).
    + right. left.
    + exists record, value, reported.
      split; [exact H1|]. split; [exact H2|]. split; [exact H3|].
      split; [exact H4|]. split; [exact H5 | exact (H6 Hyear)].
  - destruct (proj2 (reported_birthday_is_weekend_shifted weekend_book 7 weekend_list _
                       weekend_book_run) [] 0%nat [1; 2; 3; 4; 5]%nat (lit "09.03.1990") 7
                eq_refl eq_refl eq_refl)
      as (reported & H1 & H2 & H3).
    + discriminate.
    + exists reported. split; [exact H1|]. split; [exact H2 | exact (H3 Hyear)].
Defined.

Lemma noon_1_march_2025_valid : valid_date (noon_1_march_2025 0%nat).
Proof. unfold valid_date, MINYEAR, MAXYEAR. cbn. lia. Qed.

Lemma feb29_birthday_raises_outside_leap_years_witness :
  Rec.get_days_to_birthday 1 leap_day_book = (inl day_out_of_range, tick leap_day_book).
Proof.
  apply (proj1 (proj2 (feb29_birthday_raises_outside_leap_years
                         leap_day_book 1 (lit "29.02.2024") (mkdatetime 2024 2 29 0 0 0 0)
                         eq_refl eq_refl eq_refl eq_refl noon_1_march_2025_valid))).
  reflexivity.
Defined.

Lemma after_add_alice_reachable : reachable after_add_alice.
Proof.
  apply (reachable_step (mkWorld [] [] noon_1_march_2025 0)); [apply reachable_empty|].
  exact (step_handler (fun s => s) (fun _ => []) AddContact
           [lit "alice"; lit "1234567890"] (mkWorld [] [] noon_1_march_2025 0)).
Qed.

Lemma reachable_keys_equal_names_witness :
  data after_add_alice = [(lit "alice", 0%nat)] /\
  name (heap after_add_alice !!! 0%nat) = lit "alice" /\
  phones (heap after_add_alice !!! 0%nat) = [lit "1234567890"].
Proof.
  split; [reflexivity|]. split; [|reflexivity].
  apply (proj1 (reachable_keys_equal_names after_add_alice after_add_alice_reachable)).
  left.
Defined.

Lemma add_phone_raises_before_mutating_witness :
  Rec.add_phone 0 (lit "12345") two_phones =
    (raise ValueError invalid_phone_message, two_phones) /\
  exists w', Rec.add_phone 0 (lit "0123456789") two_phones = (inr tt, w') /\
    phones (heap w' !!! 0%nat) =
      [lit "1111111111"; lit "2222222222"; lit "0123456789"] /\
    name (heap w' !!! 0%nat) = lit "alice" /\
    birthday (heap w' !!! 0%nat) = None.
Proof.
  split.
  - exact (proj1 (add_phone_raises_before_mutating two_phones 0 (lit "12345")) eq_refl).
  - destruct (proj2 (add_phone_raises_before_mutating two_phones 0 (lit "0123456789"))
                eq_refl (Nat.lt_0_succ 0)) as (w' & H1 & H2 & H3 & H4 & _).
    exists w'. repeat split; assumption.
Defined.

Lemma edit_phone_replaces_first_in_place_witness :
  (exists w', Rec.edit_phone 0 (lit "2222222222") (lit "3333333333") two_phones =
                (inr 0%nat, w') /\
     phones (heap w' !!! 0%nat) = [lit "1111111111"; lit "3333333333"]) /\
  Rec.edit_phone 0 (lit "2222222222") (lit "333") two_phones =
    (raise ValueError invalid_phone_message, two_phones) /\
  Rec.edit_phone 0 (lit "9999999999") (lit "0000000000") two_phones =
    (raise ValueError not_found_message, two_phones).
Proof.
  assert (first_at (lit "2222222222") (phones (heap two_phones !!! 0%nat)) 1) as Hfirst.
  { split; [reflexivity|]. intros j Hj. destruct j as [|j]; [discriminate|].
    exfalso. apply (Nat.nlt_0_r j). now apply Nat.succ_lt_mono. }
  split; [|split].
  - destruct (proj1 (proj1 (edit_phone_replaces_first_in_place
                              two_phones 0 (lit "2222222222") (lit "3333333333"))
                       1%nat Hfirst) eq_refl (Nat.lt_0_succ 0))
      as (w' & H1 & H2 & _).
    exists w'. split; assumption.
  - exact (proj2 (proj1 (edit_phone_replaces_first_in_place
                           two_phones 0 (lit "2222222222") (lit "333"))
                    1%nat Hfirst) eq_refl).
  - apply (proj2 (edit_phone_replaces_first_in_place
                    two_phones 0 (lit "9999999999") (lit "0000000000"))).
    intros H. cbn in H.
    repeat (apply elem_of_cons in H as [H|H]; [discriminate H|]). inversion H.
Defined.

(** The three kinds of failure, as the user sees them. *)
Example handler_messages :
  let empty := mkWorld [] [] noon_1_march_2025 0 in
  fst (add_contact (fun s => s) [lit "alice"; lit "12345"] empty) =
    inr invalid_phone_message /\
  fst (add_contact (fun s => s) [lit "alice"] empty) =
    inr (lit "not enough values to unpack (expected at least 2, got 1)") /\
  fst (change_contact (fun s => s)
         [lit "alice"; lit "9999999999"; lit "0000000000"] after_add_alice) =
    inr not_found_message /\
  fst (change_contact (fun s => s) [lit "alice"; lit "1234567890"] after_add_alice) =
    inr (lit "not enough values to unpack (expected 3, got 2)") /\
  fst (show_phone (fun s => s) [] after_add_alice) =
    inr (lit "list index out of range") /\
  fst (add_birthday (fun s => s) [lit "alice"; lit "31.04.2024"] after_add_alice) =
    inr invalid_date_message /\
  fst (birthdays (fun s => s) [] leap_day_book) =
    inr (lit "day is out of range for month").
Proof. vm_compute. repeat split. Qed.

(** The end-to-end example of the specification. *)
Example end_to_end :
  let run :=
    (add_contact (fun s => s) [lit "alice"; lit "1234567890"] ;;
     add_birthday (fun s => s) [lit "alice"; lit "10.03.1995"] ;;
     shown <- show_birthday (fun s => s) [lit "alice"] ;;
     change_contact (fun s => s) [lit "alice"; lit "1234567890"; lit "0987654321"] ;;
     phone <- show_phone (fun s => s) [lit "alice"] ;;
     ret (shown, phone)) in
  fst (run (mkWorld [] [] noon_1_march_2025 0)) =
  inr (lit "10.03.1995", lit "0987654321").
Proof. vm_compute. reflexivity. Qed.

(** * Further properties of the program *)

(** ** Removing a phone *)

Lemma remove_phone_loop_found self phone :
  forall ps i k w, first_at phone ps k ->
  Rec.remove_phone_loop self phone i ps w =
  (inr (Some self),
   with_heap (<[self := mkRecord (name (heap w !!! self))
                                 (delete (i + k)%nat (phones (heap w !!! self)))
                                 (birthday (heap w !!! self))]> (heap w)) w).
Proof.
  induction ps as [|p ps IH]; intros i k w Hk.
  - destruct Hk as [Hk _]. discriminate Hk.
  - cbn [Rec.remove_phone_loop]. destruct (decide (p = phone)) as [->|Hne].
    + assert (k = 0)%nat as ->.
      { destruct k as [|k]; [reflexivity|]. destruct Hk as [_ Hk].
        exfalso. apply (Hk 0%nat); [lia | reflexivity]. }
      rewrite Nat.add_0_r. reflexivity.
    + destruct (first_at_tail _ _ _ _ Hne Hk) as (k' & -> & Hk').
      rewrite (IH (S i) k' w Hk'). now rewrite Nat.add_succ_r.
Qed.

Lemma remove_phone_loop_missing self phone :
  forall ps i w, phone ∉ ps ->
  Rec.remove_phone_loop self phone i ps w = (inr None, w).
Proof.
  induction ps as [|p ps IH]; intros i w Hnot; [reflexivity|].
  cbn [Rec.remove_phone_loop]. destruct (decide (p = phone)) as [->|Hne].
  - exfalso. apply Hnot. left.
  - apply IH. intros Hin. apply Hnot. now right.
Qed.

(** X1: [remove_phone(phone)] takes out the first phone equal to
    [phone] and nothing else: the phones before and after it keep their
    order (a second copy of the number stays), name and birthday stay,
    and the record is returned.  When no phone equals [phone] it returns
    [None], raises nothing and changes nothing. *)
Theorem remove_phone_removes_the_first_only (w : World) (self : nat) (phone : str) :
  (forall i, first_at phone (phones (heap w !!! self)) i ->
     (self < length (heap w))%nat ->
     exists w', Rec.remove_phone self phone w = (inr (Some self), w') /\
       phones (heap w' !!! self) =
         take i (phones (heap w !!! self)) ++ drop (S i) (phones (heap w !!! self)) /\
       phones (heap w !!! self) =
         take i (phones (heap w !!! self)) ++ phone :: drop (S i) (phones (heap w !!! self)) /\
       S (length (phones (heap w' !!! self))) = length (phones (heap w !!! self)) /\
       name (heap w' !!! self) = name (heap w !!! self) /\
       birthday (heap w' !!! self) = birthday (heap w !!! self) /\
       (forall other, other <> self -> heap w' !!! other = heap w !!! other) /\
       same_book w w') /\
  (phone ∉ phones (heap w !!! self) ->
     Rec.remove_phone self phone w = (inr None, w)).
Proof.
  unfold Rec.remove_phone, bind, get_record. split.
  - intros i Hi Hself. rewrite (remove_phone_loop_found _ _ _ 0%nat i w Hi). cbn [Nat.add].
    eexists. split; [reflexivity|]. cbn.
    rewrite lookup_set_record by exact Hself. cbn.
    destruct Hi as [Hi _]. pose proof (lookup_lt_Some _ _ _ Hi) as Hlt.
    split; [apply delete_take_drop|].
    split; [symmetry; now apply take_drop_middle|].
    split; [rewrite length_delete by eauto; lia|].
    repeat split; auto. intros other Hne. now apply lookup_set_record_other.
  - intros Hnot. now apply remove_phone_loop_missing.
Qed.

(** ** Setting a birthday *)

Lemma add_birthday_run (w : World) (self : nat) (value : str) :
  Rec.add_birthday self value w =
  match strptime_dmY value with
  | inr _ =>
      (inr tt,
       with_heap (<[self := mkRecord (name (heap w !!! self))
                                     (phones (heap w !!! self)) (Some value)]> (heap w)) w)
  | inl _ => (raise ValueError invalid_date_message, w)
  end.
Proof.
  unfold Rec.add_birthday, bind, lift. rewrite Birthday_run.
  destruct (strptime_dmY value); reflexivity.
Qed.

(** X2: [add_birthday(value)] keeps the string as it was given: when
    [value] denotes a date the record's birthday is [value] afterwards,
    whatever it was before, and nothing else changes; when it does not,
    the call raises the [ValueError] of the validation and the birthday
    the record had stays. *)
Theorem add_birthday_stores_the_string (w : World) (self : nat) (value : str) :
  (denotes_a_date value -> (self < length (heap w))%nat ->
     exists w', Rec.add_birthday self value w = (inr tt, w') /\
       birthday (heap w' !!! self) = Some value /\
       name (heap w' !!! self) = name (heap w !!! self) /\
       phones (heap w' !!! self) = phones (heap w !!! self) /\
       (forall other, other <> self -> heap w' !!! other = heap w !!! other) /\
       same_book w w') /\
  (~ denotes_a_date value ->
     Rec.add_birthday self value w = (raise ValueError invalid_date_message, w)).
Proof.
  rewrite add_birthday_run, denotes_a_date_strptime. split.
  - intros [dt ->] Hself. eexists. split; [reflexivity|]. cbn.
    rewrite lookup_set_record by exact Hself. cbn.
    repeat split; auto. intros other Hne. now apply lookup_set_record_other.
  - intros Hnot. destruct (strptime_dmY value) as [e|dt]; [reflexivity|].
    exfalso. apply Hnot. eauto.
Qed.

(** ** The order of the calendar *)

Lemma days_before_month_step y m :
  1 <= m <= 11 ->
  days_before_month y (m + 1) = days_before_month y m + days_in_month y m.
Proof.
  intros Hm. rewrite !days_before_month_table by lia.
  assert (m = 1 \/ m = 2 \/ m = 3 \/ m = 4 \/ m = 5 \/ m = 6 \/ m = 7 \/ m = 8 \/
          m = 9 \/ m = 10 \/ m = 11) as Hcases by lia.
  unfold days_in_month.
  destruct (is_leap y);
    repeat (destruct Hcases as [->|Hcases]; [reflexivity|]); subst m; reflexivity.
Qed.

Lemma days_in_month_pos y m : 0 < days_in_month y m.
Proof. pose proof (days_in_month_bounds y m). lia. Qed.

Lemma days_before_month_mono y m :
  forall n : nat, 1 <= m -> m + Z.of_nat n <= 12 ->
  days_before_month y m <= days_before_month y (m + Z.of_nat n).
Proof.
  induction n as [|n IH]; intros H1 H2.
  - replace (m + Z.of_nat 0) with m by lia. lia.
  - replace (m + Z.of_nat (S n)) with (m + Z.of_nat n + 1) by lia.
    rewrite days_before_month_step by lia.
    pose proof (days_in_month_pos y (m + Z.of_nat n)). specialize (IH H1). lia.
Qed.

(** A month ends before any later month of the year begins. *)
Lemma days_before_later_month y m m' :
  1 <= m -> m < m' -> m' <= 12 ->
  days_before_month y m + days_in_month y m <= days_before_month y m'.
Proof.
  intros H1 H2 H3. rewrite <- days_before_month_step by lia.
  pose proof (days_before_month_mono y (m + 1) (Z.to_nat (m' - (m + 1)))) as H.
  replace (m + 1 + Z.of_nat (Z.to_nat (m' - (m + 1)))) with m' in H by lia.
  apply H; lia.
Qed.

Lemma days_in_year y :
  days_before_month y 12 + days_in_month y 12 = if is_leap y then 366 else 365.
Proof.
  rewrite days_before_month_table by lia. unfold days_in_month.
  destruct (is_leap y); reflexivity.
Qed.

(** A date of year [y] is one of the days of year [y]. *)
Lemma toordinal_in_year d :
  valid_date d ->
  days_before_year (year d) + 1 <= toordinal d <= days_before_year (year d + 1).
Proof.
  intros (Hy & Hm & Hd). unfold toordinal. rewrite days_before_next_year.
  pose proof (days_in_year (year d)) as Hlast.
  assert (0 <= days_before_month (year d) (month d)) as H0.
  { pose proof (days_before_month_mono (year d) 1 (Z.to_nat (month d - 1))) as H.
    replace (1 + Z.of_nat (Z.to_nat (month d - 1))) with (month d) in H by lia.
    change (days_before_month (year d) 1) with 0 in H. apply H; lia. }
  assert (days_before_month (year d) (month d) + days_in_month (year d) (month d) <=
          days_before_month (year d) 12 + days_in_month (year d) 12) as Hend.
  { destruct (Z.eq_dec (month d) 12) as [->|Hne]; [lia|].
    pose proof (days_before_later_month (year d) (month d) 12).
    pose proof (days_in_month_pos (year d) 12). lia. }
  destruct (is_leap (year d)); lia.
Qed.

(** Within a year the ordinal grows with the month and the day. *)
Lemma toordinal_later_in_year a b :
  valid_date a -> valid_date b -> year a = year b ->
  month a < month b \/ (month a = month b /\ day a < day b) ->
  toordinal a < toordinal b.
Proof.
  intros (Hya & Hma & Hda) (Hyb & Hmb & Hdb) Hy Hlater. unfold toordinal. rewrite Hy in *.
  destruct Hlater as [Hm|[Hm Hd]].
  - pose proof (days_before_later_month (year b) (month a) (month b)). lia.
  - rewrite Hm. lia.
Qed.

(** The same day of the next year is 365 or 366 days later. *)
Lemma toordinal_next_year y m d h mi s us :
  1 <= m <= 12 ->
  365 <= toordinal (mkdatetime (y + 1) m d h mi s us) - toordinal (mkdatetime y m d h mi s us)
      <= 366.
Proof.
  intros Hm. unfold toordinal. cbn [year month day].
  rewrite days_before_next_year, !days_before_month_table by lia.
  destruct (is_leap y) eqn:E; [rewrite (leap_then_next_not _ E)|];
    destruct (2 <? m); cbn [andb]; try destruct (is_leap (y + 1)); lia.
Qed.

Lemma lex_step x y r :
  (x <? y) || ((x =? y) && r) = true <-> x < y \/ (x = y /\ r = true).
Proof. now rewrite orb_true_iff, andb_true_iff, Z.ltb_lt, Z.eqb_eq. Qed.

Lemma lt_true a b :
  lt a b = true <->
  year a < year b \/ (year a = year b /\
  (month a < month b \/ (month a = month b /\
  (day a < day b \/ (day a = day b /\
  (hour a < hour b \/ (hour a = hour b /\
  (minute a < minute b \/ (minute a = minute b /\
  (second a < second b \/ (second a = second b /\
   microsecond a < microsecond b))))))))))).
Proof.
  unfold lt, fields. cbn [lex_lt].
  repeat setoid_rewrite lex_step.
  intuition (try discriminate; auto).
Qed.

(** What [next_occurrence] returns for a birthday read by [strptime]: a
    midnight of this year or the next one, on the birthday's day. *)
Lemma next_occurrence_midnight today birthday_date next_birthday :
  hour birthday_date = 0 -> minute birthday_date = 0 -> second birthday_date = 0 ->
  microsecond birthday_date = 0 ->
  next_occurrence today birthday_date = inr next_birthday ->
  valid_date next_birthday /\
  next_birthday = mkdatetime (year next_birthday) (month birthday_date) (day birthday_date)
                             0 0 0 0 /\
  ((lt (mkdatetime (year today) (month birthday_date) (day birthday_date) 0 0 0 0) today = false /\
    year next_birthday = year today) \/
   (lt (mkdatetime (year today) (month birthday_date) (day birthday_date) 0 0 0 0) today = true /\
    year next_birthday = year today + 1 /\
    valid_date (mkdatetime (year today) (month birthday_date) (day birthday_date) 0 0 0 0))).
Proof.
  intros Hh Hm Hs Hu. unfold next_occurrence, rbind.
  destruct (replace_year birthday_date (year today)) as [e|this_year] eqn:E1; [discriminate|].
  apply replace_year_ok in E1 as [-> Hv1]. rewrite Hh, Hm, Hs, Hu in *.
  destruct (lt _ today) eqn:Elt.
  - intros E2. apply replace_year_ok in E2 as [-> Hv2]. cbn in *. auto 10.
  - intros [= <-]. cbn. auto 10.
Qed.

Lemma days_until_count now value n :
  valid_date now -> valid_time now ->
  days_until now value = inr n ->
  exists birthday_date next_birthday,
    strptime_dmY value = inr birthday_date /\
    next_occurrence now birthday_date = inr next_birthday /\
    n = toordinal next_birthday - toordinal now -
        (if (seconds_of_day now =? 0) && (microsecond now =? 0) then 0 else 1) /\
    0 <= n <= 365.
Proof.
  intros Hvd Hvt. unfold days_until, rbind.
  destruct (strptime_dmY value) as [e|bd] eqn:Es; [discriminate|].
  destruct (next_occurrence now bd) as [e|nb] eqn:En; [discriminate|].
  intros [= <-]. exists bd, nb.
  split; [first [exact Es | reflexivity]|]. split; [first [exact En | reflexivity]|].
  destruct (strptime_midnight _ _ Es) as (Hvb & Hh & Hm & Hs & Hu).
  destruct (next_occurrence_midnight _ _ _ Hh Hm Hs Hu En) as (Hvn & Hform & Hcase).
  assert (sub_days nb now =
          toordinal nb - toordinal now -
          (if (seconds_of_day now =? 0) && (microsecond now =? 0) then 0 else 1)) as Hsub.
  { apply sub_days_from_midnight; [rewrite Hform; reflexivity ..|exact Hvt]. }
  split; [exact Hsub|]. rewrite Hsub. clear Hsub.
  pose proof (toordinal_in_year now Hvd) as Hnow.
  pose proof (toordinal_in_year nb Hvn) as Hnb.
  pose proof (days_before_next_year (year now)) as Hlen.
  destruct Hvt as (H1 & H2 & H3 & H4). unfold seconds_of_day.
  destruct Hcase as [[Hlt Hy]|(Hlt & Hy & Hvthis)].
  - (* this year's occurrence, not before now *)
    apply not_true_iff_false in Hlt. rewrite lt_true in Hlt. cbn in Hlt.
    assert (month nb = month bd /\ day nb = day bd) as [Hmo Hda]
      by (rewrite Hform; cbn; split; reflexivity).
    pose proof (toordinal_later_in_year now nb Hvd Hvn (eq_sym Hy)) as Hlater.
    assert (month now = month nb -> day now = day nb -> toordinal nb = toordinal now) as Hsame.
    { intros E1 E2. unfold toordinal. now rewrite Hy, E1, E2. }
    rewrite Hy in Hnb. rewrite Hmo, Hda in *.
    destruct (second now + minute now * 60 + hour now * 3600 =? 0) eqn:Esec;
      [destruct (microsecond now =? 0) eqn:Eus|];
      cbn [andb]; rewrite ?Z.eqb_eq, ?Z.eqb_neq in *;
      destruct (is_leap (year now)); lia.
  - (* next year's occurrence *)
    rewrite lt_true in Hlt. cbn in Hlt.
    set (this_year := mkdatetime (year now) (month bd) (day bd) 0 0 0 0) in *.
    pose proof (toordinal_later_in_year this_year now Hvthis Hvd eq_refl) as Hlater.
    cbn [month day this_year] in Hlater.
    assert (month bd = month now -> day bd = day now ->
            toordinal this_year = toordinal now) as Hsame.
    { intros E1 E2. unfold toordinal, this_year. cbn. now rewrite E1, E2. }
    assert (1 <= month bd <= 12) as Hmb by apply Hvb.
    pose proof (toordinal_next_year (year now) (month bd) (day bd) 0 0 0 0 Hmb) as Hnext.
    fold this_year in Hnext. rewrite <- Hy in Hnext. rewrite <- Hform in Hnext.
    rewrite Hy in Hnb.
    destruct (second now + minute now * 60 + hour now * 3600 =? 0) eqn:Esec;
      [destruct (microsecond now =? 0) eqn:Eus|];
      cbn [andb]; rewrite ?Z.eqb_eq, ?Z.eqb_neq in *;
      destruct (is_leap (year now)); lia.
Qed.

(** ** The day count *)

(** X3: with the clock reading a valid date and time, the day count
    [get_days_to_birthday] returns is never negative and never more than
    365; it is the number of calendar days from today to the next
    occurrence of the birthday, less one unless the clock reads midnight
    exactly. *)
Theorem days_to_birthday_is_between_0_and_365
    (w : World) (self : nat) (n : Z) (w' : World) :
  valid_date (clock w (ticks w)) -> valid_time (clock w (ticks w)) ->
  Rec.get_days_to_birthday self w = (inr (Some n), w') ->
  0 <= n <= 365 /\
  exists value birthday_date next_birthday,
    birthday (heap w !!! self) = Some value /\
    strptime_dmY value = inr birthday_date /\
    next_occurrence (clock w (ticks w)) birthday_date = inr next_birthday /\
    n = toordinal next_birthday - toordinal (clock w (ticks w)) -
        (if (seconds_of_day (clock w (ticks w)) =? 0) &&
            (microsecond (clock w (ticks w)) =? 0) then 0 else 1).
Proof.
  intros Hvd Hvt. rewrite get_days_to_birthday_run.
  destruct (birthday (heap w !!! self)) as [value|]; [|discriminate].
  destruct (days_until (clock w (ticks w)) value) as [e|n'] eqn:E; [discriminate|].
  intros [= <- <-].
  destruct (days_until_count _ _ _ Hvd Hvt E) as (bd & nb & Hs & Hn & Hcount & Hrange).
  split; [exact Hrange|]. exists value, bd, nb. auto.
Qed.

Lemma days_until_today now value birthday_date :
  strptime_dmY value = inr birthday_date ->
  valid_date now -> valid_time now ->
  month birthday_date = month now -> day birthday_date = day now ->
  seconds_of_day now <> 0 \/ microsecond now <> 0 ->
  year now < MAXYEAR -> ~ (month now = 2 /\ day now = 29) ->
  exists n, days_until now value = inr n /\ 364 <= n <= 365.
Proof.
  intros Hs Hvd Hvt Hmo Hda Htime Hyear Hfeb.
  destruct (strptime_midnight _ _ Hs) as (Hvb & Hh & Hm & Hse & Hu).
  pose proof Hvd as (Hy & Hmon & Hday). pose proof Hvt as (H1 & H2 & H3 & H4).
  unfold MINYEAR, MAXYEAR in *. unfold seconds_of_day in Htime.
  set (this_year := mkdatetime (year now) (month now) (day now) 0 0 0 0).
  assert (replace_year birthday_date (year now) = inr this_year) as E1.
  { unfold replace_year, rbind.
    assert (check_date_fields (year now) (month birthday_date) (day birthday_date) = inr tt) as ->
      by (apply check_date_fields_ok; rewrite Hmo, Hda; exact Hvd).
    unfold ok, this_year. now rewrite Hmo, Hda, Hh, Hm, Hse, Hu. }
  assert (lt this_year now = true) as Elt.
  { apply lt_true. cbn. lia. }
  set (next_year := mkdatetime (year now + 1) (month now) (day now) 0 0 0 0).
  assert (replace_year this_year (year now + 1) = inr next_year) as E2.
  { unfold replace_year, rbind. cbn [month day hour minute second microsecond this_year].
    assert (check_date_fields (year now + 1) (month now) (day now) = inr tt) as ->; [|reflexivity].
    apply check_date_fields_ok. unfold MINYEAR, MAXYEAR. split; [lia|]. split; [lia|].
    split; [lia|]. revert Hday Hfeb. unfold days_in_month.
    destruct (month now =? 2) eqn:E; [|lia]. apply Z.eqb_eq in E.
    destruct (is_leap (year now)), (is_leap (year now + 1)); lia. }
  assert (days_until now value = inr (sub_days next_year now)) as E.
  { unfold days_until, next_occurrence, rbind. now rewrite Hs, E1, Elt, E2. }
  eexists. split; [exact E|].
  destruct (days_until_count _ _ _ Hvd Hvt E) as (bd & nb & Hs' & Hn & -> & _).
  rewrite Hs in Hs'. injection Hs' as <-.
  unfold next_occurrence, rbind in Hn. rewrite E1, Elt, E2 in Hn. injection Hn as <-.
  assert (toordinal this_year = toordinal now) as Hsame by reflexivity.
  pose proof (toordinal_next_year (year now) (month now) (day now) 0 0 0 0 Hmon) as Hnext.
  fold this_year next_year in Hnext. unfold seconds_of_day.
  destruct (second now + minute now * 60 + hour now * 3600 =? 0) eqn:Esec;
    [destruct (microsecond now =? 0) eqn:Eus|];
    cbn [andb]; rewrite ?Z.eqb_eq, ?Z.eqb_neq in *; lia.
Qed.

(** X4: a birthday that falls today is seen as past once the clock has
    left midnight: [get_days_to_birthday] then counts the days to next
    year's occurrence, 364 or 365, and not 0. *)
Theorem birthday_today_counts_to_next_year
    (w : World) (self : nat) (value : str) (birthday_date : datetime) :
  birthday (heap w !!! self) = Some value ->
  strptime_dmY value = inr birthday_date ->
  valid_date (clock w (ticks w)) -> valid_time (clock w (ticks w)) ->
  month birthday_date = month (clock w (ticks w)) ->
  day birthday_date = day (clock w (ticks w)) ->
  seconds_of_day (clock w (ticks w)) <> 0 \/ microsecond (clock w (ticks w)) <> 0 ->
  year (clock w (ticks w)) < MAXYEAR ->
  ~ (month (clock w (ticks w)) = 2 /\ day (clock w (ticks w)) = 29) ->
  exists n, Rec.get_days_to_birthday self w = (inr (Some n), tick w) /\ 364 <= n <= 365.
Proof.
  intros Hb Hs Hvd Hvt Hmo Hda Htime Hyear Hfeb.
  destruct (days_until_today _ _ _ Hs Hvd Hvt Hmo Hda Htime Hyear Hfeb) as (n & E & Hn).
  exists n. split; [|exact Hn]. now rewrite get_days_to_birthday_run, Hb, E.
Qed.

(** ** The address book *)

Lemma dict_get_missing k d : k ∉ map fst d -> dict_get k d = None.
Proof.
  induction d as [|[k0 v0] d IH]; cbn; intros H; [reflexivity|].
  rewrite decide_False; [apply IH|]; intros E; apply H; [now right | subst; left].
Qed.

(** X5: [find] never raises and changes nothing; it returns [None]
    exactly for a name that is not a key of the book, and otherwise a
    record the book holds under that name. *)
Theorem find_returns_None_for_missing_names (w : World) (nm : str) :
  exists found,
    AddressBook.find nm w = (inr found, w) /\
    (found = None <-> nm ∉ map fst (data w)) /\
    (forall record, found = Some record -> (nm, record) ∈ data w).
Proof.
  exists (dict_get nm (data w)). split; [reflexivity|]. split; [split|].
  - apply dict_get_None_keys.
  - apply dict_get_missing.
  - intros record. apply dict_get_Some_elem.
Qed.

Lemma has_birthday_heap w w' record :
  heap w' = heap w -> has_birthday w' record = has_birthday w record.
Proof. unfold has_birthday. now intros ->. Qed.

Lemma filter_has_birthday_heap w w' records :
  heap w' = heap w ->
  List.filter (has_birthday w') records = List.filter (has_birthday w) records.
Proof.
  intros H. induction records as [|a l IH]; [reflexivity|].
  cbn. now rewrite (has_birthday_heap w w' a H), IH.
Qed.

Lemma upcoming_loop_ticks today days :
  forall records upcoming w,
    (ticks w <= ticks (snd (AddressBook.upcoming_loop today days records upcoming w)) <=
       ticks w + length (List.filter (has_birthday w) records))%nat /\
    (forall l, fst (AddressBook.upcoming_loop today days records upcoming w) = inr l ->
       ticks (snd (AddressBook.upcoming_loop today days records upcoming w)) =
       (ticks w + length (List.filter (has_birthday w) records))%nat).
Proof.
  induction records as [|record rest IH]; intros upcoming w.
  - cbn. split; [lia|]. intros _ _. lia.
  - rewrite upcoming_loop_cons. cbn [List.filter].
    assert (has_birthday w record =
            match birthday (heap w !!! record) with Some _ => true | None => false end)
      as -> by reflexivity.
    destruct (birthday (heap w !!! record)) as [value|]; [|apply IH].
    cbn [length].
    assert (heap (tick w) = heap w) as Hh by reflexivity.
    destruct (upcoming_entry today (clock w (ticks w)) days (name (heap w !!! record)) value)
      as [e|[entry|]].
    + cbn. split; [lia | discriminate].
    + destruct (IH (upcoming ++ [entry]) (tick w)) as [H1 H2].
      rewrite (filter_has_birthday_heap w (tick w) rest Hh) in H1, H2. cbn [tick ticks with_ticks] in H1, H2.
      split; [lia|]. intros l Hl. rewrite (H2 l Hl). lia.
    + destruct (IH upcoming (tick w)) as [H1 H2].
      rewrite (filter_has_birthday_heap w (tick w) rest Hh) in H1, H2. cbn [tick ticks with_ticks] in H1, H2.
      split; [lia|]. intros l Hl. rewrite (H2 l Hl). lia.
Qed.

Lemma get_upcoming_birthdays_effect (w : World) (days : Z) :
  heap (snd (AddressBook.get_upcoming_birthdays days w)) = heap w /\
  data (snd (AddressBook.get_upcoming_birthdays days w)) = data w /\
  clock (snd (AddressBook.get_upcoming_birthdays days w)) = clock w /\
  (S (ticks w) <= ticks (snd (AddressBook.get_upcoming_birthdays days w)) <=
     S (ticks w) + length (List.filter (has_birthday w) (map snd (data w))))%nat /\
  forall l, fst (AddressBook.get_upcoming_birthdays days w) = inr l ->
    ticks (snd (AddressBook.get_upcoming_birthdays days w)) =
    (S (ticks w) + length (List.filter (has_birthday w) (map snd (data w))))%nat.
Proof.
  destruct (read_only_get_upcoming_birthdays days w) as (Hh & Hd & Hc).
  split; [exact Hh|]. split; [exact Hd|]. split; [exact Hc|].
  unfold AddressBook.get_upcoming_birthdays, bind, datetime_today. fold (tick w).
  destruct (upcoming_loop_ticks (clock w (ticks w)) days (map snd (data w)) [] (tick w))
    as [H1 H2].
  rewrite (filter_has_birthday_heap w (tick w) _ eq_refl) in H1, H2.
  exact (conj H1 H2).
Qed.

(** X6: [get_upcoming_birthdays] changes no record and not the book,
    whether it returns or raises; all it does to the world is to read
    the clock: once for itself and, when it returns, once more for every
    record with a birthday (each in its own call of
    [get_days_to_birthday]). *)
Theorem get_upcoming_birthdays_only_reads_the_clock (w : World) (days : Z) :
  heap (snd (AddressBook.get_upcoming_birthdays days w)) = heap w /\
  data (snd (AddressBook.get_upcoming_birthdays days w)) = data w /\
  clock (snd (AddressBook.get_upcoming_birthdays days w)) = clock w /\
  (S (ticks w) <= ticks (snd (AddressBook.get_upcoming_birthdays days w)) <=
     S (ticks w) + length (List.filter (has_birthday w) (map snd (data w))))%nat /\
  forall l, fst (AddressBook.get_upcoming_birthdays days w) = inr l ->
    ticks (snd (AddressBook.get_upcoming_birthdays days w)) =
    (S (ticks w) + length (List.filter (has_birthday w) (map snd (data w))))%nat.
Proof. apply get_upcoming_birthdays_effect. Qed.

Lemma upcoming_of_names today clk days :
  forall rs t l, upcoming_of today clk t days rs = inr l ->
    sublist (map entry_name l)
            (map name (List.filter
               (fun r => match birthday r with Some _ => true | None => false end) rs)).
Proof.
  induction rs as [|r rest IH]; intros t l H.
  - injection H as <-. constructor.
  - cbn [upcoming_of List.filter] in *. destruct (birthday r) as [value|] eqn:E; [|now apply (IH t)].
    unfold rbind in H.
    destruct (upcoming_entry today (clk t) days (name r) value) as [e|o] eqn:E1; [discriminate|].
    destruct (upcoming_of today clk (S t) days rest) as [e|entries] eqn:E2; [discriminate|].
    injection H as <-. specialize (IH _ _ E2). cbn [map].
    destruct o as [entry|].
    + cbn [map]. rewrite (upcoming_entry_name _ _ _ _ _ _ E1). now apply sublist_skip.
    + now apply sublist_cons.
Qed.

Lemma sublist_filter_l {A} (f : A -> bool) (l : list A) : sublist (List.filter f l) l.
Proof.
  induction l as [|a l IH]; [constructor|]. cbn.
  destruct (f a); [now apply sublist_skip | now apply sublist_cons].
Qed.

(** X7: the list [get_upcoming_birthdays] returns follows the order of
    the book: the names of its entries are, in this order, names of
    records with a birthday in the order of the dictionary.  In a book
    that satisfies its invariant they are keys of the book in insertion
    order, and no contact is listed twice. *)
Theorem upcoming_birthdays_follow_the_book_order
    (w : World) (days : Z) (l : list Entry) :
  fst (AddressBook.get_upcoming_birthdays days w) = inr l ->
  sublist (map entry_name l)
          (map (fun record => name (heap w !!! record))
               (List.filter (has_birthday w) (map snd (data w)))) /\
  (length l <= length (List.filter (has_birthday w) (map snd (data w))))%nat /\
  (book_invariant w ->
     sublist (map entry_name l) (map fst (data w)) /\ NoDup (map entry_name l)).
Proof.
  rewrite get_upcoming_birthdays_run. intros H.
  apply upcoming_of_names in H. rewrite filter_map_swap, map_map in H.
  change (fun a : nat => match birthday (heap w !!! a) with Some _ => true | None => false end)
    with (has_birthday w) in H.
  split; [exact H|]. split.
  - apply sublist_length in H. now rewrite !length_map in H.
  - intros Hinv.
    assert (sublist (map entry_name l) (map fst (data w))) as Hs.
    { etransitivity; [exact H|]. rewrite <- (book_names w Hinv), map_map.
      apply (fmap_sublist (fun a => name (heap w !!! a))), sublist_filter_l. }
    split; [exact Hs|]. apply (sublist_NoDup _ (map fst (data w))); [apply Hinv | exact Hs].
Qed.

Lemma upcoming_entry_mono today now days days' nm value o' :
  days <= days' ->
  upcoming_entry today now days' nm value = inr o' ->
  exists o, upcoming_entry today now days nm value = inr o /\ (o = None \/ o = o').
Proof.
  unfold upcoming_entry, rbind. intros Hle.
  destruct (days_until now value) as [e|n]; [discriminate|].
  destruct (n <=? days) eqn:E.
  - apply Z.leb_le in E. assert ((n <=? days') = true) as -> by (apply Z.leb_le; lia).
    intros ->. eauto.
  - intros _. eauto.
Qed.

Lemma upcoming_of_mono today clk days days' :
  days <= days' ->
  forall rs t l', upcoming_of today clk t days' rs = inr l' ->
    exists l, upcoming_of today clk t days rs = inr l /\ sublist l l'.
Proof.
  intros Hle. induction rs as [|r rest IH]; intros t l' H.
  - injection H as <-. exists []. split; [reflexivity | constructor].
  - cbn [upcoming_of] in *. destruct (birthday r) as [value|]; [|now apply IH].
    unfold rbind in *.
    destruct (upcoming_entry today (clk t) days' (name r) value) as [e|o'] eqn:E1; [discriminate|].
    destruct (upcoming_of today clk (S t) days' rest) as [e|entries'] eqn:E2; [discriminate|].
    injection H as <-.
    destruct (upcoming_entry_mono _ _ _ _ _ _ _ Hle E1) as (o & -> & Ho).
    destruct (IH _ _ E2) as (entries & -> & Hs).
    eexists. split; [reflexivity|].
    destruct Ho as [->| ->].
    + destruct o'; [now apply sublist_cons | exact Hs].
    + destruct o'; [now apply sublist_skip | exact Hs].
Qed.

Lemma world_eq w w' :
  heap w = heap w' -> data w = data w' -> clock w = clock w' -> ticks w = ticks w' -> w = w'.
Proof. destruct w, w'. cbn. now intros -> -> -> ->. Qed.

(** X8: a wider horizon only adds entries.  When
    [get_upcoming_birthdays(days')] returns, so does
    [get_upcoming_birthdays(days)] for every smaller [days], in the same
    world, and what it returns is the list for [days'] with some entries
    left out, the others unchanged and in the same order. *)
Theorem upcoming_birthdays_grow_with_the_horizon
    (w : World) (days days' : Z) (l' : list Entry) (w' : World) :
  days <= days' ->
  AddressBook.get_upcoming_birthdays days' w = (inr l', w') ->
  exists l, AddressBook.get_upcoming_birthdays days w = (inr l, w') /\ sublist l l'.
Proof.
  intros Hle H.
  assert (fst (AddressBook.get_upcoming_birthdays days' w) = inr l') as Hf by now rewrite H.
  pose proof Hf as Hrun. rewrite get_upcoming_birthdays_run in Hrun.
  destruct (upcoming_of_mono _ _ _ _ Hle _ _ _ Hrun) as (l & Hl & Hs).
  rewrite <- get_upcoming_birthdays_run in Hl.
  exists l. split; [|exact Hs].
  destruct (get_upcoming_birthdays_effect w days) as (A1 & A2 & A3 & _ & A4).
  destruct (get_upcoming_birthdays_effect w days') as (B1 & B2 & B3 & _ & B4).
  specialize (A4 l Hl). specialize (B4 l' Hf). rewrite H in B1, B2, B3, B4. cbn [snd] in *.
  destruct (AddressBook.get_upcoming_birthdays days w) as [r w1]. cbn [fst snd] in *.
  subst r. f_equal. apply world_eq; congruence.
Qed.

Lemma upcoming_entry_horizon today now days nm value o :
  valid_date now -> valid_time now ->
  upcoming_entry today now days nm value = inr o ->
  (days < 0 -> o = None) /\ (365 <= days -> is_Some o).
Proof.
  intros Hvd Hvt H.
  destruct (upcoming_entry_due _ _ _ _ _ _ H) as (n & Hn & Hdue).
  destruct (days_until_count _ _ _ Hvd Hvt Hn) as (_ & _ & _ & _ & _ & Hrange).
  split.
  - intros Hneg. destruct o as [entry|]; [|reflexivity].
    assert (n <= days) by (apply Hdue; eauto). lia.
  - intros Hbig. apply Hdue. lia.
Qed.

Lemma upcoming_of_horizon today clk days :
  (forall t, valid_date (clk t) /\ valid_time (clk t)) ->
  forall rs t l, upcoming_of today clk t days rs = inr l ->
    (days < 0 -> l = []) /\
    (365 <= days ->
       map entry_name l =
       map name (List.filter
         (fun r => match birthday r with Some _ => true | None => false end) rs)).
Proof.
  intros Hclk. induction rs as [|r rest IH]; intros t l H.
  - injection H as <-. now split.
  - cbn [upcoming_of List.filter] in *. destruct (birthday r) as [value|]; [|now apply (IH t)].
    unfold rbind in H.
    destruct (upcoming_entry today (clk t) days (name r) value) as [e|o] eqn:E1; [discriminate|].
    destruct (upcoming_of today clk (S t) days rest) as [e|entries] eqn:E2; [discriminate|].
    injection H as <-. destruct (IH _ _ E2) as [IH1 IH2].
    destruct (Hclk t) as [Hvd Hvt].
    destruct (upcoming_entry_horizon _ _ _ _ _ _ Hvd Hvt E1) as [H1 H2].
    split.
    + intros Hneg. rewrite (H1 Hneg). now apply IH1.
    + intros Hbig. destruct (H2 Hbig) as [entry ->]. cbn [map].
      rewrite (upcoming_entry_name _ _ _ _ _ _ E1). f_equal. now apply IH2.
Qed.

(** X9: the two ends of the horizon, for a clock that reads valid dates
    and times.  Since no day count is negative or above 365, a list
    [get_upcoming_birthdays] returns for a negative number of days is
    empty, and one it returns for 365 days or more has an entry for
    every record with a birthday, in the order of the book. *)
Theorem upcoming_birthdays_at_the_ends_of_the_horizon
    (w : World) (days : Z) (l : list Entry) :
  (forall t, valid_date (clock w t) /\ valid_time (clock w t)) ->
  fst (AddressBook.get_upcoming_birthdays days w) = inr l ->
  (days < 0 -> l = []) /\
  (365 <= days ->
     map entry_name l =
     map (fun record => name (heap w !!! record))
         (List.filter (has_birthday w) (map snd (data w)))).
Proof.
  intros Hclk. rewrite get_upcoming_birthdays_run. intros H.
  destruct (upcoming_of_horizon _ _ _ Hclk _ _ _ H) as [H1 H2].
  split; [exact H1|]. intros Hbig. rewrite (H2 Hbig), filter_map_swap, map_map.
  reflexivity.
Qed.

(** Whether a record of the book is listed: its day count decides. *)
Lemma upcoming_listed w days l pre record post value :
  fst (AddressBook.get_upcoming_birthdays days w) = inr l ->
  book_invariant w ->
  map snd (data w) = pre ++ record :: post ->
  birthday (heap w !!! record) = Some value ->
  exists n,
    days_until (clock w (ticks (asked_after w pre))) value = inr n /\
    (name (heap w !!! record) ∈ map entry_name l <-> n <= days).
Proof.
  intros H Hinv Hsplit Eb.
  rewrite get_upcoming_birthdays_run, Hsplit, map_app in H. cbn [map] in H.
  pose proof (book_names w Hinv) as Hnames.
  rewrite Hsplit, !map_app in Hnames. cbn [map] in Hnames.
  assert (NoDup (map name (map (fun a => heap w !!! a) pre) ++
                 name (heap w !!! record) ::
                 map name (map (fun a => heap w !!! a) post))) as Hnd
    by (rewrite Hnames; apply Hinv).
  apply list.NoDup_app in Hnd as (_ & Hpre & Hnd).
  apply list.NoDup_cons in Hnd as (Hpost & _).
  destruct (upcoming_of_middle _ _ _ _ _ _ _ _ H) as (before & after & Hl & Hb & Ha & Hr).
  assert (name (heap w !!! record) ∉ map entry_name before) as Hnb.
  { intros Hin. apply list_elem_of_fmap in Hin as (e & He & Hin).
    destruct (Hb e Hin) as (r' & Hr' & Hn).
    apply (Hpre (name r')); [apply list_elem_of_fmap; eauto | rewrite <- Hn, <- He; left]. }
  assert (name (heap w !!! record) ∉ map entry_name after) as Hna.
  { intros Hin. apply list_elem_of_fmap in Hin as (e & He & Hin).
    destruct (Ha e Hin) as (r' & Hr' & Hn).
    apply Hpost. rewrite He, Hn. apply list_elem_of_fmap; eauto. }
  rewrite filter_map_swap, length_map in Hl, Hr. rewrite Eb in Hl, Hr.
  destruct Hr as [o Ho]. rewrite Ho in Hl.
  destruct (upcoming_entry_due _ _ _ _ _ _ Ho) as (n & Hn & Hdue).
  exists n. split; [exact Hn|].
  rewrite <- Hdue, Hl, !map_app, !elem_of_app. split.
  - intros [Hin|[Hin|Hin]]; [contradiction| |contradiction].
    destruct o; [eauto | inversion Hin].
  - intros [e ->]. right. left. cbn.
    rewrite (upcoming_entry_name _ _ _ _ _ _ Ho). left.
Qed.

(** ** The command handlers *)

Lemma lookup_fresh (h : list RecordState) (r : RecordState) : (h ++ [r]) !!! length h = r.
Proof.
  rewrite list_lookup_total_alt, lookup_app_r by lia.
  now rewrite Nat.sub_diag.
Qed.

Lemma insert_fresh (h : list RecordState) (r r' : RecordState) :
  <[length h := r']> (h ++ [r]) = h ++ [r'].
Proof.
  rewrite insert_app_r_alt by lia. now rewrite Nat.sub_diag.
Qed.

(** What the body of [add_contact] does for a name that is not in the
    book, and for one that is. *)
Lemma add_contact_new nm phone rest w :
  dict_get nm (data w) = None ->
  add_contact__wrapped (nm :: phone :: rest) w =
  match phone with
  | [] =>
      (inr (lit "Contact added."),
       mkWorld (heap w ++ [mkRecord nm [] None]) (data w ++ [(nm, length (heap w))])
               (clock w) (ticks w))
  | _ :: _ =>
      if is_valid_phone phone then
        (inr (lit "Contact added."),
         mkWorld (heap w ++ [mkRecord nm [phone] None]) (data w ++ [(nm, length (heap w))])
                 (clock w) (ticks w))
      else
        (raise ValueError invalid_phone_message,
         mkWorld (heap w ++ [mkRecord nm [] None]) (data w ++ [(nm, length (heap w))])
                 (clock w) (ticks w))
  end.
Proof.
  intros E. cbn [add_contact__wrapped].
  unfold bind at 1. unfold AddressBook.find at 1. rewrite E.
  unfold bind at 1. unfold bind at 1. unfold Rec.init at 1.
  unfold bind at 1. unfold AddressBook.add_record, bind, get_record, ret.
  cbn [heap data clock ticks with_heap with_data fst snd].
  rewrite lookup_fresh. cbn [name]. rewrite (dict_set_new _ _ _ E).
  destruct phone as [|c phone]; [reflexivity|].
  rewrite add_phone_run. cbn [heap data clock ticks with_heap].
  destruct (is_valid_phone (c :: phone)); [|reflexivity].
  cbn [heap data clock ticks with_heap with_data].
  rewrite lookup_fresh, insert_fresh. reflexivity.
Qed.

Lemma add_contact_existing nm phone rest w record :
  dict_get nm (data w) = Some record ->
  add_contact__wrapped (nm :: phone :: rest) w =
  match phone with
  | [] => (inr (lit "Contact updated."), w)
  | _ :: _ =>
      if is_valid_phone phone then
        (inr (lit "Contact updated."),
         with_heap (<[record := mkRecord (name (heap w !!! record))
                                         (phones (heap w !!! record) ++ [phone])
                                         (birthday (heap w !!! record))]> (heap w)) w)
      else (raise ValueError invalid_phone_message, w)
  end.
Proof.
  intros E. cbn [add_contact__wrapped].
  unfold bind at 1. unfold AddressBook.find at 1. rewrite E.
  unfold bind at 1. cbn [ret fst snd].
  destruct phone as [|c phone]; [reflexivity|].
  unfold bind. rewrite add_phone_run.
  destruct (is_valid_phone (c :: phone)); reflexivity.
Qed.

Lemma input_error_returns repr_str h args w answer w' :
  h args w = (inr answer, w') -> input_error repr_str h args w = (inr answer, w').
Proof. unfold input_error. now intros ->. Qed.

Lemma input_error_ValueError repr_str h args w m w' :
  h args w = (raise ValueError m, w') -> input_error repr_str h args w = (inr m, w').
Proof. unfold input_error. now intros ->. Qed.

Section HandlerEffects.

Variable repr_str : str -> str.
Variable repr_object : nat -> str.

(** X11: [add_contact] for a name that is not in the book.  A new
    record of that name is created and goes last in the book.  With a
    valid phone the record holds that one phone and the answer is
    [Contact added.]; with an invalid one the answer is the message of
    the validation, but the contact has been added all the same, without
    a phone; with an empty string for the phone nothing is validated and
    the contact is added without a phone.  Arguments after the second
    are ignored. *)
Theorem add_contact_adds_before_validating
    (w : World) (nm phone : str) (rest : list str) :
  dict_get nm (data w) = None ->
  (exists answer ps,
     add_contact repr_str (nm :: phone :: rest) w =
       (inr answer,
        mkWorld (heap w ++ [mkRecord nm ps None]) (data w ++ [(nm, length (heap w))])
                (clock w) (ticks w)) /\
     (is_valid_phone phone = true ->
        answer = lit "Contact added." /\ ps = [phone]) /\
     (is_valid_phone phone = false -> phone <> [] ->
        answer = invalid_phone_message /\ ps = []) /\
     (phone = [] -> answer = lit "Contact added." /\ ps = [])) /\
  forall w', snd (add_contact repr_str (nm :: phone :: rest) w) = w' ->
    AddressBook.find nm w' = (inr (Some (length (heap w))), w') /\
    name (heap w' !!! length (heap w)) = nm /\
    birthday (heap w' !!! length (heap w)) = None /\
    (forall other, (other < length (heap w))%nat -> heap w' !!! other = heap w !!! other).
Proof.
  intros E. unfold add_contact.
  pose proof (add_contact_new nm phone rest w E) as Hrun.
  assert (dict_get nm (data w ++ [(nm, length (heap w))]) = Some (length (heap w)))
    as Hfind by (rewrite <- (dict_set_new _ _ _ E); apply dict_get_set_eq).
  destruct phone as [|c phone].
  - rewrite (input_error_returns _ _ _ _ _ _ Hrun). split.
    + exists (lit "Contact added."), []. split; [reflexivity|].
      split; [discriminate|]. split; [congruence | auto].
    + intros w' <-. cbn [snd]. unfold AddressBook.find. cbn [heap data].
      rewrite Hfind, lookup_fresh. repeat split.
      intros other Ho. now rewrite !list_lookup_total_alt, lookup_app_l.
  - destruct (is_valid_phone (c :: phone)) eqn:Ev; rewrite ?Ev in Hrun.
    + rewrite (input_error_returns _ _ _ _ _ _ Hrun). split.
      * exists (lit "Contact added."), [c :: phone]. split; [reflexivity|].
        split; [auto|]. split; [discriminate | discriminate].
      * intros w' <-. cbn [snd]. unfold AddressBook.find. cbn [heap data].
        rewrite Hfind, lookup_fresh. repeat split.
        intros other Ho. now rewrite !list_lookup_total_alt, lookup_app_l.
    + rewrite (input_error_ValueError _ _ _ _ _ _ Hrun). split.
      * exists invalid_phone_message, []. split; [reflexivity|].
        split; [discriminate|]. split; [auto | discriminate].
      * intros w' <-. cbn [snd]. unfold AddressBook.find. cbn [heap data].
        rewrite Hfind, lookup_fresh. repeat split.
        intros other Ho. now rewrite !list_lookup_total_alt, lookup_app_l.
Qed.

(** X12: [add_contact] for a name that is in the book adds the phone to
    the record the book holds: a valid phone goes to the end of the
    record's phones, the ones it had stay, nothing else changes and the
    answer is [Contact updated.]; an invalid phone changes nothing and
    the answer is the message of the validation.  The book itself gets
    no new entry. *)
Theorem add_contact_appends_to_an_existing_contact
    (w : World) (nm phone : str) (rest : list str) (record : nat) :
  dict_get nm (data w) = Some record ->
  (record < length (heap w))%nat ->
  (is_valid_phone phone = true ->
     exists w',
       add_contact repr_str (nm :: phone :: rest) w = (inr (lit "Contact updated."), w') /\
       phones (heap w' !!! record) = phones (heap w !!! record) ++ [phone] /\
       name (heap w' !!! record) = name (heap w !!! record) /\
       birthday (heap w' !!! record) = birthday (heap w !!! record) /\
       (forall other, other <> record -> heap w' !!! other = heap w !!! other) /\
       length (heap w') = length (heap w) /\
       same_book w w') /\
  (is_valid_phone phone = false -> phone <> [] ->
     add_contact repr_str (nm :: phone :: rest) w = (inr invalid_phone_message, w)) /\
  (phone = [] ->
     add_contact repr_str (nm :: phone :: rest) w = (inr (lit "Contact updated."), w)).
Proof.
  intros E Hrecord. unfold add_contact.
  pose proof (add_contact_existing nm phone rest w record E) as Hrun.
  split; [|split].
  - intros Ev. destruct phone as [|c phone]; [discriminate Ev|]. rewrite Ev in Hrun.
    rewrite (input_error_returns _ _ _ _ _ _ Hrun).
    eexists. split; [reflexivity|]. cbn [heap with_heap].
    rewrite lookup_set_record by exact Hrecord. cbn [name phones birthday].
    split; [reflexivity|]. split; [reflexivity|]. split; [reflexivity|].
    split; [intros other Hne; now apply lookup_set_record_other|].
    split; [apply length_insert|]. repeat split.
  - intros Ev Hne. destruct phone as [|c phone]; [congruence|]. rewrite Ev in Hrun.
    now rewrite (input_error_ValueError _ _ _ _ _ _ Hrun).
  - intros ->. now rewrite (input_error_returns _ _ _ _ _ _ Hrun).
Qed.

(** X13: the four commands that look a contact up answer that it was
    not found when the name is not in the book, and change nothing;
    nothing is validated then, so even an invalid phone or date gets
    this answer and not the message of the validation. *)
Theorem unknown_contact_is_reported (w : World) (nm : str) :
  dict_get nm (data w) = None ->
  (forall old_phone new_phone,
     change_contact repr_str [nm; old_phone; new_phone] w =
     (inr (lit "Contact not found."), w)) /\
  (forall value,
     add_birthday repr_str [nm; value] w = (inr (lit "Contact not found."), w)) /\
  (forall rest,
     show_phone repr_str (nm :: rest) w = (inr (lit "Contact not found."), w)) /\
  (forall rest,
     show_birthday repr_str (nm :: rest) w =
     (inr (lit "Contact or birthday not found."), w)).
Proof.
  intros E. repeat split; intros;
    apply input_error_returns; cbn; unfold bind, AddressBook.find; now rewrite E.
Qed.

(** X14: [change_contact] for a contact of the book.  When the old
    phone is among the contact's phones and the new one is valid, the
    first phone equal to the old one is replaced and the answer names
    the contact; when the new one is invalid, or the old one is not
    among the phones, the answer is the message of the [ValueError]
    and nothing changes. *)
Theorem change_contact_replaces_the_phone
    (w : World) (nm old_phone new_phone : str) (record : nat) :
  dict_get nm (data w) = Some record ->
  (record < length (heap w))%nat ->
  (forall i, first_at old_phone (phones (heap w !!! record)) i ->
     (is_valid_phone new_phone = true ->
        exists w',
          change_contact repr_str [nm; old_phone; new_phone] w =
            (inr (lit "Phone number updated for " ++ nm ++ lit "."), w') /\
          phones (heap w' !!! record) = <[i := new_phone]> (phones (heap w !!! record)) /\
          name (heap w' !!! record) = name (heap w !!! record) /\
          birthday (heap w' !!! record) = birthday (heap w !!! record) /\
          (forall other, other <> record -> heap w' !!! other = heap w !!! other) /\
          same_book w w') /\
     (is_valid_phone new_phone = false ->
        change_contact repr_str [nm; old_phone; new_phone] w =
        (inr invalid_phone_message, w))) /\
  (old_phone ∉ phones (heap w !!! record) ->
     change_contact repr_str [nm; old_phone; new_phone] w = (inr not_found_message, w)).
Proof.
  intros E Hrecord.
  assert (change_contact__wrapped [nm; old_phone; new_phone] w =
          match Rec.edit_phone record old_phone new_phone w with
          | (inl e, w') => (inl e, w')
          | (inr _, w') => (inr (lit "Phone number updated for " ++ nm ++ lit "."), w')
          end) as Hrun.
  { cbn [change_contact__wrapped]. unfold bind at 1. unfold AddressBook.find at 1.
    rewrite E. unfold bind at 1.
    now destruct (Rec.edit_phone record old_phone new_phone w) as [[e|a] w']. }
  unfold Rec.edit_phone, bind, get_record in Hrun. unfold change_contact. split.
  - intros i Hi. rewrite (edit_phone_loop_found _ _ _ _ 0%nat i w Hi) in Hrun.
    cbn [Nat.add] in Hrun. split; intros Ev; rewrite Ev in Hrun.
    + rewrite (input_error_returns _ _ _ _ _ _ Hrun).
      eexists. split; [reflexivity|]. cbn [heap with_heap].
      rewrite lookup_set_record by exact Hrecord. cbn [name phones birthday].
      repeat split; auto. intros other Hne. now apply lookup_set_record_other.
    + now rewrite (input_error_ValueError _ _ _ _ _ _ Hrun).
  - intros Hnot. rewrite (edit_phone_loop_missing _ _ _ _ 0%nat w Hnot) in Hrun.
    now rewrite (input_error_ValueError _ _ _ _ _ _ Hrun).
Qed.

(** X15: what [add-birthday] stores, [show-birthday] shows.  For a
    contact of the book and a string that denotes a date, [add_birthday]
    answers that the birthday was added, and [show_birthday] then
    returns that very string (as typed, not rewritten as [DD.MM.YYYY]),
    whatever follows the name in its arguments; with a string that
    denotes no date the answer is the message of the validation and
    [show_birthday] answers as before. *)
Theorem show_birthday_returns_what_add_birthday_stored
    (w : World) (nm value : str) (record : nat) :
  dict_get nm (data w) = Some record ->
  (record < length (heap w))%nat ->
  (denotes_a_date value ->
     exists w',
       add_birthday repr_str [nm; value] w =
         (inr (lit "Birthday added for " ++ nm ++ lit "."), w') /\
       (forall rest, show_birthday repr_str (nm :: rest) w' = (inr value, w'))) /\
  (~ denotes_a_date value ->
     add_birthday repr_str [nm; value] w = (inr invalid_date_message, w)).
Proof.
  intros E Hrecord.
  assert (add_birthday__wrapped [nm; value] w =
          match Rec.add_birthday record value w with
          | (inl e, w') => (inl e, w')
          | (inr _, w') => (inr (lit "Birthday added for " ++ nm ++ lit "."), w')
          end) as Hrun.
  { cbn [add_birthday__wrapped]. unfold bind at 1. unfold AddressBook.find at 1.
    rewrite E. unfold bind at 1.
    now destruct (Rec.add_birthday record value w) as [[e|a] w']. }
  rewrite add_birthday_run in Hrun. unfold add_birthday. rewrite denotes_a_date_strptime.
  split.
  - intros [dt Hdt]. rewrite Hdt in Hrun.
    rewrite (input_error_returns _ _ _ _ _ _ Hrun).
    eexists. split; [reflexivity|]. intros rest.
    apply input_error_returns. cbn [show_birthday__wrapped].
    unfold bind, AddressBook.find, get_record. cbn [data heap with_heap]. rewrite E.
    cbn [data heap with_heap]. rewrite lookup_set_record by exact Hrecord. reflexivity.
  - intros Hnot. destruct (strptime_dmY value) as [e|dt]; [|exfalso; apply Hnot; eauto].
    now rewrite (input_error_ValueError _ _ _ _ _ _ Hrun).
Qed.

(** X16: what [add] stores, [phone] shows.  After [add_contact] with a
    valid phone, for a new name or for a contact of the book,
    [show_phone] for that name returns the contact's phones in the
    order they were added, joined by a comma and a blank, the new phone
    last. *)
Theorem show_phone_lists_the_phones_added
    (w : World) (nm phone : str) :
  book_invariant w ->
  is_valid_phone phone = true ->
  exists answer w',
    add_contact repr_str [nm; phone] w = (inr answer, w') /\
    forall rest,
      show_phone repr_str (nm :: rest) w' =
      (inr (join (lit ", ")
              (match dict_get nm (data w) with
               | Some record => phones (heap w !!! record)
               | None => []
               end ++ [phone])), w').
Proof.
  intros Hinv Ev. unfold add_contact.
  assert (phone <> []) as Hne by (intros ->; discriminate Ev).
  destruct (dict_get nm (data w)) as [record|] eqn:E.
  - pose proof (add_contact_existing nm phone [] w record E) as Hrun.
    destruct phone as [|c phone]; [congruence|]. rewrite Ev in Hrun.
    rewrite (input_error_returns _ _ _ _ _ _ Hrun).
    eexists _, _. split; [reflexivity|]. intros rest.
    apply input_error_returns. cbn [show_phone__wrapped].
    unfold bind, AddressBook.find, get_record. cbn [data heap with_heap]. rewrite E.
    destruct (find_in_book _ _ _ Hinv E) as [Hrecord _].
    cbn [data heap with_heap]. rewrite lookup_set_record by exact Hrecord. reflexivity.
  - pose proof (add_contact_new nm phone [] w E) as Hrun.
    destruct phone as [|c phone]; [congruence|]. rewrite Ev in Hrun.
    rewrite (input_error_returns _ _ _ _ _ _ Hrun).
    eexists _, _. split; [reflexivity|]. intros rest.
    apply input_error_returns. cbn [show_phone__wrapped].
    unfold bind, AddressBook.find, get_record. cbn [data heap].
    rewrite <- (dict_set_new _ _ _ E), dict_get_set_eq. cbn [data heap].
    rewrite lookup_fresh. reflexivity.
Qed.

(** X17: the commands that show something change nothing.  In every
    world and for every argument list, [show_phone], [show_all] and
    [show_birthday] leave the world as it is, and [birthdays] leaves
    the records and the book as they are (it reads the clock). *)
Theorem show_commands_change_nothing (args : list str) (w : World) :
  snd (show_phone repr_str args w) = w /\
  snd (show_all repr_str repr_object args w) = w /\
  snd (show_birthday repr_str args w) = w /\
  heap (snd (birthdays repr_str args w)) = heap w /\
  data (snd (birthdays repr_str args w)) = data w /\
  clock (snd (birthdays repr_str args w)) = clock w.
Proof.
  unfold show_phone, show_all, show_birthday, birthdays. rewrite !input_error_world.
  split; [|split; [|split]].
  - destruct args as [|nm rest]; [reflexivity|]. cbn [show_phone__wrapped].
    unfold bind, AddressBook.find, get_record.
    now destruct (dict_get nm (data w)).
  - reflexivity.
  - destruct args as [|nm rest]; [reflexivity|]. cbn [show_birthday__wrapped].
    unfold bind, AddressBook.find, get_record.
    destruct (dict_get nm (data w)) as [record|]; [|reflexivity].
    now destruct (birthday (heap w !!! record)).
  - unfold birthdays__wrapped, bind.
    pose proof (read_only_get_upcoming_birthdays 7 w) as H.
    destruct (AddressBook.get_upcoming_birthdays 7 w) as [[e|[|item items]] w']; exact H.
Qed.

(** X18: a handler given too few or too many arguments answers with the
    message of the failed unpacking, or of the failed indexing, and
    changes nothing: [add_contact] needs two arguments and ignores
    further ones, [change_contact] needs exactly three,
    [add_birthday] exactly two, [show_phone] and [show_birthday] need
    one and ignore further ones. *)
Theorem wrong_number_of_arguments_changes_nothing (w : World) (args : list str) :
  ((length args < 2)%nat ->
     add_contact repr_str args w = (inr (not_enough_values true 2 (length args)), w)) /\
  ((length args < 3)%nat ->
     change_contact repr_str args w =
     (inr (not_enough_values false 3 (length args)), w)) /\
  ((3 < length args)%nat ->
     change_contact repr_str args w = (inr (too_many_values 3), w)) /\
  ((length args < 2)%nat ->
     add_birthday repr_str args w = (inr (not_enough_values false 2 (length args)), w)) /\
  ((2 < length args)%nat ->
     add_birthday repr_str args w = (inr (too_many_values 2), w)) /\
  (args = [] ->
     show_phone repr_str args w = (inr (lit "list index out of range"), w) /\
     show_birthday repr_str args w = (inr (lit "list index out of range"), w)).
Proof.
  split; [|split; [|split; [|split; [|split]]]]; intros H.
  - destruct args as [|a [|b rest]]; cbn in H; try lia; reflexivity.
  - destruct args as [|a [|b [|c rest]]]; cbn in H; try lia; reflexivity.
  - destruct args as [|a [|b [|c [|d rest]]]]; cbn in H; try lia; reflexivity.
  - destruct args as [|a [|b rest]]; cbn in H; try lia; reflexivity.
  - destruct args as [|a [|b [|c rest]]]; cbn in H; try lia; reflexivity.
  - subst. split; reflexivity.
Qed.

Lemma names_stable_fresh w r d :
  names_stable w (mkWorld (heap w ++ [r]) d (clock w) (ticks w)).
Proof.
  split; cbn [heap].
  - rewrite length_app. lia.
  - intros record H. now rewrite !list_lookup_total_alt, lookup_app_l.
Qed.

Lemma add_contact_grows args w :
  data w `prefix_of` data (snd (add_contact__wrapped args w)) /\
  (length (data (snd (add_contact__wrapped args w))) <= S (length (data w)))%nat /\
  names_stable w (snd (add_contact__wrapped args w)).
Proof.
  assert (data w `prefix_of` data w /\ (length (data w) <= S (length (data w)))%nat /\
          names_stable w w) as Hsame
    by (split; [reflexivity | split; [lia | apply names_stable_refl]]).
  destruct args as [|nm [|phone rest]]; [exact Hsame | exact Hsame |].
  destruct (dict_get nm (data w)) as [record|] eqn:E.
  - rewrite (add_contact_existing _ _ _ _ _ E).
    destruct phone as [|c phone]; [exact Hsame|].
    destruct (is_valid_phone (c :: phone)); [|exact Hsame].
    cbn [snd data with_heap]. split; [reflexivity|]. split; [lia|].
    apply names_stable_set.
  - rewrite (add_contact_new _ _ _ _ E).
    assert (forall r res,
              data w `prefix_of`
                data (snd (res, mkWorld (heap w ++ [r]) (data w ++ [(nm, length (heap w))])
                                  (clock w) (ticks w))) /\
              (length (data (snd (res : Result str,
                                  mkWorld (heap w ++ [r]) (data w ++ [(nm, length (heap w))])
                                          (clock w) (ticks w)))) <= S (length (data w)))%nat /\
              names_stable w
                (snd (res, mkWorld (heap w ++ [r]) (data w ++ [(nm, length (heap w))])
                                   (clock w) (ticks w)))) as Hnew.
    { intros r res. cbn [snd data]. split; [now apply prefix_app_r|].
      split; [rewrite length_app; cbn; lia | apply names_stable_fresh]. }
    destruct phone as [|c phone]; [apply Hnew|].
    destruct (is_valid_phone (c :: phone)); apply Hnew.
Qed.

Lemma handler_grows h args w :
  data w `prefix_of` data (snd (handler repr_str repr_object h args w)) /\
  (length (data (snd (handler repr_str repr_object h args w))) <= S (length (data w)))%nat /\
  names_stable w (snd (handler repr_str repr_object h args w)).
Proof.
  unfold handler. rewrite input_error_world.
  assert (forall c : M str, stable c ->
            data w `prefix_of` data (snd (c w)) /\
            (length (data (snd (c w))) <= S (length (data w)))%nat /\
            names_stable w (snd (c w))) as Hstable.
  { intros c Hc. destruct (Hc w) as [Hn Hd]. rewrite Hd.
    split; [reflexivity | split; [lia | exact Hn]]. }
  destruct h; cbn [wrapped].
  - apply add_contact_grows.
  - apply Hstable, stable_change_contact.
  - apply Hstable, stable_show_phone.
  - apply Hstable, stable_show_all.
  - apply Hstable, stable_add_birthday_handler.
  - apply Hstable, stable_show_birthday.
  - apply Hstable, stable_birthdays.
Qed.

(** X19: no command removes, renames or replaces a contact.  After any
    handler, on any arguments, the book starts with the entries it had,
    in their order and bound to the same record objects, with at most
    one entry more (and only [add_contact] adds one); every record is
    still there and has the name it had. *)
Theorem handlers_only_add_contacts (h : Handler) (args : list str) (w : World) :
  data w `prefix_of` data (snd (handler repr_str repr_object h args w)) /\
  (length (data (snd (handler repr_str repr_object h args w))) <= S (length (data w)))%nat /\
  names_stable w (snd (handler repr_str repr_object h args w)) /\
  (h <> AddContact -> data (snd (handler repr_str repr_object h args w)) = data w).
Proof.
  destruct (handler_grows h args w) as (H1 & H2 & H3).
  split; [exact H1|]. split; [exact H2|]. split; [exact H3|].
  intros Hne. unfold handler. rewrite input_error_world.
  destruct h; cbn [wrapped]; [congruence|..].
  - apply stable_change_contact.
  - apply stable_show_phone.
  - apply (stable_show_all repr_str repr_object).
  - apply stable_add_birthday_handler.
  - apply stable_show_birthday.
  - apply stable_birthdays.
Qed.

End HandlerEffects.

(** ** The command line *)

Lemma skip_whitespace_length s : (length (skip_whitespace s) <= length s)%nat.
Proof.
  induction s as [|c s IH]; cbn [skip_whitespace length]; [lia|].
  destruct (isspace c); cbn [length]; lia.
Qed.

Lemma skip_whitespace_head s c s' : skip_whitespace s = c :: s' -> isspace c = false.
Proof.
  induction s as [|a s IH]; cbn [skip_whitespace]; [discriminate|].
  destruct (isspace a) eqn:E; [exact IH|]. now intros [= <- _].
Qed.

Lemma skip_whitespace_idem s : skip_whitespace (skip_whitespace s) = skip_whitespace s.
Proof.
  induction s as [|c s IH]; cbn [skip_whitespace]; [reflexivity|].
  destruct (isspace c) eqn:E; [exact IH|]. cbn [skip_whitespace]. now rewrite E.
Qed.

Lemma word_and_rest_length s :
  (length (fst (word_and_rest s)) + length (snd (word_and_rest s)) = length s)%nat.
Proof.
  induction s as [|c s IH]; cbn [word_and_rest]; [reflexivity|].
  destruct (isspace c); cbn [fst snd length]; lia.
Qed.

Lemma word_nonempty c s : isspace c = false -> fst (word_and_rest (c :: s)) <> [].
Proof. cbn [word_and_rest]. now intros ->. Qed.

(** The fuel is enough from the length of the string on. *)
Lemma split_words_fuel :
  forall n m s, (length s <= n)%nat -> (length s <= m)%nat ->
    split_words n s = split_words m s.
Proof.
  induction n as [|n IH]; intros m s Hn Hm.
  - destruct s; [|cbn in Hn; lia]. now destruct m.
  - destruct m as [|m].
    + destruct s; [reflexivity | cbn in Hm; lia].
    + cbn [split_words]. destruct (skip_whitespace s) as [|c s'] eqn:E; [reflexivity|].
      f_equal. pose proof (skip_whitespace_length s) as H1. rewrite E in H1.
      pose proof (word_and_rest_length (c :: s')) as H2.
      assert (fst (word_and_rest (c :: s')) <> []) as H3
        by (apply word_nonempty; eapply skip_whitespace_head; exact E).
      assert (0 < length (fst (word_and_rest (c :: s'))))%nat
        by (destruct (fst (word_and_rest (c :: s'))); [congruence | cbn; lia]).
      apply IH; lia.
Qed.

Lemma split_words_skip n s : split_words n (skip_whitespace s) = split_words n s.
Proof. destruct n; [reflexivity|]. cbn [split_words]. now rewrite skip_whitespace_idem. Qed.

Lemma str_split_skip s : str_split (skip_whitespace s) = str_split s.
Proof.
  unfold str_split. rewrite <- (split_words_skip (length s) s).
  apply split_words_fuel; [lia | apply skip_whitespace_length].
Qed.

(** The words of a string: the first one, and the words of the rest. *)
Lemma str_split_cons s c s' :
  skip_whitespace s = c :: s' ->
  str_split s =
  fst (word_and_rest (c :: s')) :: str_split (snd (word_and_rest (c :: s'))).
Proof.
  intros E. unfold str_split.
  destruct (length s) as [|n] eqn:El.
  - destruct s; [discriminate E | discriminate El].
  - cbn [split_words]. rewrite E. f_equal.
    pose proof (skip_whitespace_length s) as H1. rewrite E in H1.
    pose proof (word_and_rest_length (c :: s')) as H2.
    assert (fst (word_and_rest (c :: s')) <> []) as H3
      by (apply word_nonempty; eapply skip_whitespace_head; exact E).
    assert (0 < length (fst (word_and_rest (c :: s'))))%nat
      by (destruct (fst (word_and_rest (c :: s'))); [congruence | cbn; lia]).
    apply split_words_fuel; lia.
Qed.

Lemma str_split_nil s : skip_whitespace s = [] -> str_split s = [].
Proof.
  intros E. unfold str_split. destruct (length s); [reflexivity|].
  cbn [split_words]. now rewrite E.
Qed.

(** [split(maxsplit=1)] by the words of the string. *)
Lemma str_split_maxsplit_1_words s :
  match str_split s with
  | [] => str_split_maxsplit_1 s = []
  | [word] => str_split_maxsplit_1 s = [word]
  | word :: words =>
      exists rest, str_split_maxsplit_1 s = [word; rest] /\ str_split rest = words
  end.
Proof.
  unfold str_split_maxsplit_1.
  destruct (skip_whitespace s) as [|c s'] eqn:E.
  - now rewrite (str_split_nil _ E).
  - rewrite (str_split_cons _ _ _ E).
    set (rest := snd (word_and_rest (c :: s'))).
    destruct (skip_whitespace rest) as [|c' rest'] eqn:E'.
    + now rewrite (str_split_nil _ E').
    + rewrite <- (str_split_skip rest), E'.
      assert (str_split (c' :: rest') <> []) as Hne.
      { rewrite <- E', str_split_skip, (str_split_cons _ _ _ E'). discriminate. }
      destruct (str_split (c' :: rest')) as [|w ws] eqn:Ew; [congruence|].
      exists (c' :: rest'). split; [reflexivity | exact Ew].
Qed.

Section CommandLine.

Variable repr_str : str -> str.
Variable lower : str -> str.

(** X20: what the loop of [main] makes of a line.  A line without a
    blank is the command, whole, with no arguments.  A line with a blank
    is split at its first run of whitespace: the first word is the
    command, and the words the handlers will get by splitting the rest
    are the other words of the line.  When such a line has no second
    word (a command followed or preceded by blanks, or blanks alone) the
    unpacking raises a [ValueError], which nothing in [main] catches. *)
Theorem command_and_args_splits_the_line (user_input : str) :
  (32%N ∉ user_input -> command_and_args user_input = ok (user_input, [])) /\
  (32%N ∈ user_input ->
     match str_split user_input with
     | command :: word :: words =>
         exists args, command_and_args user_input = ok (command, args) /\
                      str_split args = word :: words
     | few =>
         command_and_args user_input =
         raise ValueError (not_enough_values false 2 (length few))
     end).
Proof.
  unfold command_and_args. split; intros H.
  - destruct (existsb (N.eqb 32) user_input) eqn:E; [|reflexivity].
    apply existsb_exists in E as (c & Hc & Ec). apply N.eqb_eq in Ec as <-.
    exfalso. apply H. now apply list_elem_of_In.
  - assert (existsb (N.eqb 32) user_input = true) as ->.
    { apply existsb_exists. exists 32%N. split; [now apply list_elem_of_In | reflexivity]. }
    pose proof (str_split_maxsplit_1_words user_input) as Hs.
    destruct (str_split user_input) as [|command [|word words]].
    + now rewrite Hs.
    + now rewrite Hs.
    + destruct Hs as (rest & -> & Hrest). exists rest. split; [reflexivity | exact Hrest].
Qed.

(** *** One command *)

Lemma handler_returns repr_object h args w :
  exists answer,
    handler repr_str repr_object h args w =
    (inr answer, snd (handler repr_str repr_object h args w)).
Proof.
  pose proof (caught_wrapped repr_str repr_object h args w) as Hc.
  unfold handler, input_error.
  destruct (wrapped repr_str repr_object h args w) as [[e|answer] w']; [|eauto].
  destruct (Hc e w' eq_refl) as [E|E]; rewrite E; eauto.
Qed.

(** A command that has a handler shows the handler's answer. *)
Lemma process_command_handler repr_object command args h w :
  handler_of_command command = Some h ->
  exists answer,
    process_command repr_str command args w =
    (inr ([Printed answer], true),
     snd (handler repr_str repr_object h (str_split args) w)) /\
    handler repr_str repr_object h (str_split args) w =
    (inr answer, snd (handler repr_str repr_object h (str_split args) w)).
Proof.
  unfold handler_of_command, process_command.
  assert (forall h' (m : list str -> M str),
            m = handler repr_str repr_object h' ->
            exists answer,
              bind (m (str_split args))
                   (fun answer => ret (ConsoleInterface.show_message answer, true)) w =
              (inr ([Printed answer], true),
               snd (handler repr_str repr_object h' (str_split args) w)) /\
              handler repr_str repr_object h' (str_split args) w =
              (inr answer, snd (handler repr_str repr_object h' (str_split args) w)))
    as Hrun.
  { intros h' m ->. destruct (handler_returns repr_object h' (str_split args) w) as [answer E].
    exists answer. split; [|exact E]. unfold bind. now rewrite E. }
  destruct (decide (command = lit "add")) as [->|?];
    [intros [= <-]; now apply (Hrun AddContact)|].
  destruct (decide (command = lit "change")) as [->|?];
    [intros [= <-]; now apply (Hrun ChangeContact)|].
  destruct (decide (command = lit "phone")) as [->|?];
    [intros [= <-]; now apply (Hrun ShowPhone)|].
  destruct (decide (command = lit "add-birthday")) as [->|?];
    [intros [= <-]; now apply (Hrun AddBirthday)|].
  destruct (decide (command = lit "show-birthday")) as [->|?];
    [intros [= <-]; now apply (Hrun ShowBirthday)|].
  destruct (decide (command = lit "birthdays")) as [->|?];
    [intros [= <-]; now apply (Hrun Birthdays)|].
  discriminate.
Qed.

(** Any other command changes nothing. *)
Lemma process_command_other command args w :
  handler_of_command command = None ->
  exists shown,
    process_command repr_str command args w =
    (inr (shown, negb (bool_decide (command ∈ [lit "close"; lit "exit"]))), w) /\
    (command ∈ [lit "close"; lit "exit"] ->
       shown = [Printed (lit "Good bye!"); Saved (heap w) (data w)]) /\
    (command ∉ [lit "close"; lit "exit"] -> forallb (fun e => negb (is_saved e)) shown = true).
Proof.
  unfold handler_of_command, process_command.
  destruct (decide (command = lit "add")); [discriminate|].
  destruct (decide (command = lit "change")); [discriminate|].
  destruct (decide (command = lit "phone")); [discriminate|].
  destruct (decide (command = lit "add-birthday")); [discriminate|].
  destruct (decide (command = lit "show-birthday")); [discriminate|].
  destruct (decide (command = lit "birthdays")); [discriminate|].
  intros _.
  assert (forall x : str, x ∉ [lit "close"; lit "exit"] ->
            negb (bool_decide (x ∈ [lit "close"; lit "exit"])) = true) as Hstay
    by (intros x Hx; now rewrite bool_decide_eq_false_2).
  assert ((lit "hello" ∉ [lit "close"; lit "exit"]) /\
          (lit "all" ∉ [lit "close"; lit "exit"]) /\
          (lit "help" ∉ [lit "close"; lit "exit"])) as (H1 & H2 & H3).
  { repeat split; intros H;
      repeat (apply elem_of_cons in H as [H|H]; [discriminate H|]); inversion H. }
  destruct (decide (command = lit "hello")) as [->|?].
  { eexists. rewrite (Hstay _ H1). split; [reflexivity|]. split; [contradiction | reflexivity]. }
  destruct (decide (command = lit "all")) as [->|?].
  { eexists. rewrite (Hstay _ H2). split; [reflexivity|]. split; [contradiction|].
    intros _. unfold ConsoleInterface.show_contacts.
    induction (map (fun a => heap w !!! a) (map snd (data w))) as [|r l IH]; [reflexivity|].
    exact IH. }
  destruct (decide (command = lit "help")) as [->|?].
  { eexists. rewrite (Hstay _ H3). split; [reflexivity|]. split; [contradiction | reflexivity]. }
  destruct (decide (command ∈ [lit "close"; lit "exit"])) as [Hin|Hout].
  - eexists. rewrite bool_decide_eq_true_2 by exact Hin.
    split; [reflexivity|]. split; [reflexivity | contradiction].
  - eexists. rewrite (Hstay _ Hout). split; [reflexivity|]. split; [contradiction | reflexivity].
Qed.

Lemma handler_of_command_stays command h :
  handler_of_command command = Some h -> command ∉ [lit "close"; lit "exit"].
Proof.
  unfold handler_of_command. intros H Hin.
  repeat (apply elem_of_cons in Hin as [->|Hin]; [discriminate H|]). inversion Hin.
Qed.

(** X21: [process_command] raises nothing, whatever the command and its
    arguments, and in whatever state the book is: it always returns.
    It returns [False] exactly for [close] and [exit], having then
    printed the farewell and handed the book, unchanged, to [save_data];
    for every other command it returns [True] and has saved nothing. *)
Theorem process_command_always_returns (command args : str) (w : World) :
  exists shown go_on w',
    process_command repr_str command args w = (inr (shown, go_on), w') /\
    (go_on = false <-> command = lit "close" \/ command = lit "exit") /\
    (go_on = false ->
       w' = w /\ shown = [Printed (lit "Good bye!"); Saved (heap w) (data w)]) /\
    (go_on = true -> forallb (fun e => negb (is_saved e)) shown = true).
Proof.
  assert (command ∈ [lit "close"; lit "exit"] <->
          command = lit "close" \/ command = lit "exit") as Hin.
  { rewrite !elem_of_cons. split; [intros [?|[?|H]]; [auto | auto | inversion H] | tauto]. }
  destruct (handler_of_command command) as [h|] eqn:E.
  - destruct (process_command_handler (fun _ => []) command args h w E) as (answer & Hrun & _).
    eexists _, _, _. split; [exact Hrun|].
    pose proof (handler_of_command_stays _ _ E) as Hstay. rewrite <- Hin.
    split; [split; [discriminate | contradiction]|]. split; [discriminate | reflexivity].
  - destruct (process_command_other command args w E) as (shown & Hrun & Hleave & Hstay).
    eexists _, _, _. split; [exact Hrun|]. rewrite <- Hin.
    destruct (decide (command ∈ [lit "close"; lit "exit"])) as [H|H].
    + rewrite bool_decide_eq_true_2 by exact H. cbn [negb].
      split; [tauto|]. split; [auto | discriminate].
    + rewrite bool_decide_eq_false_2 by exact H. cbn [negb].
      split; [split; [discriminate | contradiction]|]. split; [discriminate | auto].
Qed.


(** *** What a command leaves alone *)

Lemma preserves_ret {X A} (f : World -> X) (a : A) : preserves f (ret a).
Proof. intros w. reflexivity. Qed.

Lemma preserves_throw {X A} (f : World -> X) c m : preserves f (@throw A c m).
Proof. intros w. reflexivity. Qed.

Lemma preserves_lift {X A} (f : World -> X) (r : Result A) : preserves f (lift r).
Proof. intros w. reflexivity. Qed.

Lemma preserves_get_record {X} (f : World -> X) self : preserves f (get_record self).
Proof. intros w. reflexivity. Qed.

Lemma preserves_find {X} (f : World -> X) k : preserves f (AddressBook.find k).
Proof. intros w. reflexivity. Qed.

Lemma preserves_bind {X A B} (f : World -> X) (c : M A) (k : A -> M B) :
  preserves f c -> (forall a, preserves f (k a)) -> preserves f (bind c k).
Proof.
  intros Hc Hk w. unfold bind. specialize (Hc w).
  destruct (c w) as [[e|a] w1]; cbn [snd] in *; [exact Hc|].
  now rewrite (Hk a w1).
Qed.

Lemma preserves_set_record {X} (f : World -> X) self r :
  apart_from_heap f -> preserves f (set_record self r).
Proof. intros Hf w. apply Hf. Qed.

Lemma preserves_add_phone {X} (f : World -> X) self phone :
  apart_from_heap f -> preserves f (Rec.add_phone self phone).
Proof.
  intros Hf. apply preserves_bind; [apply preserves_lift|]. intros p.
  apply preserves_bind; [apply preserves_get_record|]. intros r.
  now apply preserves_set_record.
Qed.

Lemma preserves_edit_phone {X} (f : World -> X) self old_phone new_phone :
  apart_from_heap f -> preserves f (Rec.edit_phone self old_phone new_phone).
Proof.
  intros Hf. apply preserves_bind; [apply preserves_get_record|]. intros r.
  generalize 0%nat. induction (phones r) as [|p ps IH]; intros i;
    cbn [Rec.edit_phone_loop]; [apply preserves_throw|].
  destruct (decide (p = old_phone)); [|apply IH].
  apply preserves_bind; [apply preserves_lift|]. intros v.
  apply preserves_bind; [apply preserves_get_record|]. intros r'.
  apply preserves_bind; [now apply preserves_set_record | intros; apply preserves_ret].
Qed.

Lemma preserves_add_birthday {X} (f : World -> X) self value :
  apart_from_heap f -> preserves f (Rec.add_birthday self value).
Proof.
  intros Hf. apply preserves_bind; [apply preserves_lift|]. intros b.
  apply preserves_bind; [apply preserves_get_record|]. intros r.
  now apply preserves_set_record.
Qed.

Lemma preserves_add_contact {X} (f : World -> X) args :
  apart_from_heap f -> apart_from_data f -> preserves f (add_contact__wrapped args).
Proof.
  intros Hh Hd. destruct args as [|nm [|phone rest]]; try apply preserves_throw.
  cbn [add_contact__wrapped].
  apply preserves_bind; [apply preserves_find|]. intros found.
  apply preserves_bind.
  - destruct found as [record|]; [apply preserves_ret|].
    apply preserves_bind; [intros w; apply Hh|]. intros record.
    apply preserves_bind; [|intros; apply preserves_ret].
    apply preserves_bind; [apply preserves_get_record|]. intros r w. apply Hd.
  - intros rm. apply preserves_bind; [|intros; apply preserves_ret].
    destruct phone; [apply preserves_ret | now apply preserves_add_phone].
Qed.

Lemma preserves_change_contact {X} (f : World -> X) args :
  apart_from_heap f -> preserves f (change_contact__wrapped args).
Proof.
  intros Hf. destruct args as [|nm [|old_phone [|new_phone [|x rest]]]];
    cbn [change_contact__wrapped]; try apply preserves_throw.
  apply preserves_bind; [apply preserves_find|].
  intros [record|]; [|apply preserves_ret].
  apply preserves_bind; [now apply preserves_edit_phone | intros; apply preserves_ret].
Qed.

Lemma preserves_add_birthday_handler {X} (f : World -> X) args :
  apart_from_heap f -> preserves f (add_birthday__wrapped args).
Proof.
  intros Hf. destruct args as [|nm [|value [|x rest]]];
    cbn [add_birthday__wrapped]; try apply preserves_throw.
  apply preserves_bind; [apply preserves_find|].
  intros [record|]; [|apply preserves_ret].
  apply preserves_bind; [now apply preserves_add_birthday | intros; apply preserves_ret].
Qed.

Lemma preserves_show_phone {X} (f : World -> X) args : preserves f (show_phone__wrapped args).
Proof.
  destruct args as [|nm rest]; cbn [show_phone__wrapped]; [apply preserves_throw|].
  apply preserves_bind; [apply preserves_find|].
  intros [record|]; [|apply preserves_ret].
  apply preserves_bind; [apply preserves_get_record | intros; apply preserves_ret].
Qed.

Lemma preserves_show_birthday {X} (f : World -> X) args :
  preserves f (show_birthday__wrapped args).
Proof.
  destruct args as [|nm rest]; cbn [show_birthday__wrapped]; [apply preserves_throw|].
  apply preserves_bind; [apply preserves_find|].
  intros [record|]; [|apply preserves_ret].
  apply preserves_bind; [apply preserves_get_record|].
  intros r. destruct (birthday r); apply preserves_ret.
Qed.

Lemma read_only_birthdays args :
  read_only (birthdays__wrapped args).
Proof.
  apply read_only_bind; [apply read_only_get_upcoming_birthdays|].
  intros [|item items]; apply read_only_ret.
Qed.

(** What the handler of each command leaves alone. *)
Lemma handler_frame repr_object h args w :
  clock (snd (handler repr_str repr_object h args w)) = clock w /\
  (h <> AddContact -> data (snd (handler repr_str repr_object h args w)) = data w) /\
  (h <> AddContact -> h <> ChangeContact -> h <> AddBirthday ->
     heap (snd (handler repr_str repr_object h args w)) = heap w) /\
  (h <> Birthdays -> ticks (snd (handler repr_str repr_object h args w)) = ticks w).
Proof.
  unfold handler. rewrite input_error_world.
  assert (apart_from_heap clock /\ apart_from_heap ticks /\ apart_from_heap data /\
          apart_from_data clock /\ apart_from_data ticks /\ apart_from_data heap)
    as (C1 & C2 & C3 & C4 & C5 & C6) by (repeat split).
  destruct h; cbn [wrapped].
  - split; [now apply preserves_add_contact|]. split; [congruence|]. split; [congruence|].
    intros _. now apply preserves_add_contact.
  - split; [now apply preserves_change_contact|].
    split; [intros _; now apply preserves_change_contact|]. split; [congruence|].
    intros _. now apply preserves_change_contact.
  - split; [apply preserves_show_phone|]. split; [intros _; apply preserves_show_phone|].
    split; intros; apply preserves_show_phone.
  - repeat split.
  - split; [now apply preserves_add_birthday_handler|].
    split; [intros _; now apply preserves_add_birthday_handler|]. split; [congruence|].
    intros _. now apply preserves_add_birthday_handler.
  - split; [apply preserves_show_birthday|]. split; [intros _; apply preserves_show_birthday|].
    split; intros; apply preserves_show_birthday.
  - destruct (read_only_birthdays args w) as (Hh & Hd & Hc).
    split; [exact Hc|]. split; [auto|]. split; [auto | congruence].
Qed.

Lemma handler_of_command_names command h :
  handler_of_command command = Some h ->
  (h = AddContact <-> command = lit "add") /\
  (h = ChangeContact <-> command = lit "change") /\
  (h = AddBirthday <-> command = lit "add-birthday") /\
  (h = Birthdays <-> command = lit "birthdays").
Proof.
  unfold handler_of_command.
  repeat match goal with
         | |- context [decide (?c = ?l)] => destruct (decide (c = l)) as [->|?]
         end; intros [= <-]; repeat split; try discriminate; try congruence.
Qed.

(** X22: what one command can change.  Only [add] can add an entry to
    the book, and it adds at most one, at the end; only [add], [change]
    and [add-birthday] can change a record; no command removes or
    renames a contact, or binds a name to another record; only
    [birthdays] reads the clock. *)
Theorem process_command_effects (command args : str) (w : World) :
  data w `prefix_of` data (snd (process_command repr_str command args w)) /\
  (length (data (snd (process_command repr_str command args w))) <= S (length (data w)))%nat /\
  names_stable w (snd (process_command repr_str command args w)) /\
  clock (snd (process_command repr_str command args w)) = clock w /\
  (command <> lit "add" ->
     data (snd (process_command repr_str command args w)) = data w) /\
  (command ∉ [lit "add"; lit "change"; lit "add-birthday"] ->
     heap (snd (process_command repr_str command args w)) = heap w) /\
  (command <> lit "birthdays" ->
     ticks (snd (process_command repr_str command args w)) = ticks w).
Proof.
  destruct (handler_of_command command) as [h|] eqn:E.
  - destruct (process_command_handler (fun _ => []) command args h w E) as (answer & -> & _).
    cbn [snd].
    destruct (handler_grows repr_str (fun _ => []) h (str_split args) w) as (H1 & H2 & H3).
    destruct (handler_frame (fun _ => []) h (str_split args) w) as (F1 & F2 & F3 & F4).
    destruct (handler_of_command_names _ _ E) as (N1 & N2 & N3 & N4).
    split; [exact H1|]. split; [exact H2|]. split; [exact H3|]. split; [exact F1|].
    split; [intros Hc; apply F2; tauto|]. split; [|intros Hc; apply F4; tauto].
    intros Hc. apply F3; intros Hh; apply Hc.
    + apply N1 in Hh as ->. left.
    + apply N2 in Hh as ->. right. left.
    + apply N3 in Hh as ->. right. right. left.
  - destruct (process_command_other command args w E) as (shown & -> & _).
    cbn [snd]. split; [reflexivity|]. split; [lia|]. split; [apply names_stable_refl|].
    repeat split.
Qed.

(** *** The loop *)

Lemma unpacking_fails_run user_input :
  unpacking_fails user_input = true ->
  command_and_args user_input =
  raise ValueError (not_enough_values false 2 (length (str_split user_input))).
Proof.
  unfold unpacking_fails, command_and_args. intros H.
  apply andb_true_iff in H as [-> H]. apply Nat.ltb_lt in H.
  pose proof (str_split_maxsplit_1_words user_input) as Hs.
  destruct (str_split user_input) as [|command [|word words]]; [| |cbn in H; lia];
    now rewrite Hs.
Qed.

Lemma command_of_run user_input :
  unpacking_fails user_input = false ->
  exists command args,
    command_of user_input = Some command /\
    command_and_args user_input = ok (command, args).
Proof.
  unfold unpacking_fails, command_and_args, command_of.
  destruct (existsb (N.eqb 32) user_input); [|eauto]. cbn [andb]. intros H.
  apply Nat.ltb_ge in H.
  pose proof (str_split_maxsplit_1_words user_input) as Hs.
  destruct (str_split user_input) as [|command [|word words]]; [cbn in H; lia..|].
  destruct Hs as (rest & -> & _). eauto.
Qed.

Lemma process_command_leaves command args w :
  command ∈ [lit "close"; lit "exit"] ->
  process_command repr_str command args w =
  (inr ([Printed (lit "Good bye!"); Saved (heap w) (data w)], false), w).
Proof.
  intros Hin.
  assert (handler_of_command command = None) as E.
  { destruct (handler_of_command command) as [h|] eqn:E; [|reflexivity].
    now destruct (handler_of_command_stays _ _ E). }
  destruct (process_command_other command args w E) as (shown & Hrun & Hleave & _).
  rewrite Hrun, (Hleave Hin). now rewrite bool_decide_eq_true_2.
Qed.

Lemma process_command_stays command args w :
  command ∉ [lit "close"; lit "exit"] ->
  exists shown,
    process_command repr_str command args w =
      (inr (shown, true), snd (process_command repr_str command args w)) /\
    forallb (fun e => negb (is_saved e)) shown = true.
Proof.
  intros Hout. destruct (handler_of_command command) as [h|] eqn:E.
  - destruct (process_command_handler (fun _ => []) command args h w E) as (answer & Hrun & _).
    exists [Printed answer]. rewrite Hrun. split; reflexivity.
  - destruct (process_command_other command args w E) as (shown & Hrun & _ & Hstay).
    exists shown. rewrite Hrun. rewrite bool_decide_eq_false_2 by exact Hout.
    split; [reflexivity | now apply Hstay].
Qed.

(** One turn of the loop, by the kind of the line. *)
Lemma main_loop_cons line lines w :
  main_loop repr_str lower (line :: lines) w =
  after [Prompted (lit "Enter a command: ")]
    (if unpacking_fails (lower line) then
       mkRun (Raised (Raise ValueError
                        (Text (not_enough_values false 2
                                 (length (str_split (lower line))))))) [] w
     else if asks_to_leave (lower line) then
       mkRun Returned [Printed (lit "Good bye!"); Saved (heap w) (data w)] w
     else
       match command_and_args (lower line) with
       | inr (command, args) =>
           match process_command repr_str command args w with
           | (inr (shown, _), w') => after shown (main_loop repr_str lower lines w')
           | (inl e, w') => mkRun (Raised e) [] w'
           end
       | inl e => mkRun (Raised e) [] w
       end).
Proof.
  cbn [main_loop]. f_equal.
  destruct (unpacking_fails (lower line)) eqn:Eu.
  - now rewrite (unpacking_fails_run _ Eu).
  - destruct (command_of_run _ Eu) as (command & args & Hc & Hrun).
    unfold asks_to_leave. rewrite Hc, Hrun. cbn [ok].
    destruct (decide (command ∈ [lit "close"; lit "exit"])) as [Hin|Hout].
    + rewrite bool_decide_eq_true_2 by exact Hin.
      now rewrite (process_command_leaves _ _ _ Hin).
    + rewrite bool_decide_eq_false_2 by exact Hout.
      destruct (process_command_stays command args w Hout) as (shown & -> & _).
      reflexivity.
Qed.

Lemma main_loop_ending :
  forall lines w,
    ending (main_loop repr_str lower lines w) =
    match List.find (fun line => unpacking_fails (lower line) || asks_to_leave (lower line))
                    lines with
    | None => EOFError
    | Some line =>
        if unpacking_fails (lower line) then
          Raised (Raise ValueError
                    (Text (not_enough_values false 2 (length (str_split (lower line))))))
        else Returned
    end.
Proof.
  induction lines as [|line lines IH]; intros w; [reflexivity|].
  rewrite main_loop_cons. cbn [List.find after ending].
  destruct (unpacking_fails (lower line)) eqn:Eu; [cbn [orb]; now rewrite Eu|]. cbn [orb].
  destruct (asks_to_leave (lower line)) eqn:El; [now rewrite Eu|].
  destruct (command_of_run _ Eu) as (command & args & Hc & Hrun). rewrite Hrun. cbn [ok].
  assert (command ∉ [lit "close"; lit "exit"]) as Hout.
  { unfold asks_to_leave in El. rewrite Hc in El. now apply bool_decide_eq_false_1 in El. }
  destruct (process_command_stays command args w Hout) as (shown & -> & _).
  cbn [after ending]. apply IH.
Qed.

(** X23: how a run of [main] ends is decided by the lines alone, not by
    the book.  The run ends at the first line that, in lower case,
    either has a blank and fewer than two words, where unpacking raises
    a [ValueError] that nothing catches, or has the command [close] or
    [exit], where [main] returns; when no line is of either kind the
    run ends with the [EOFError] of [input].  No exception of the
    handlers or of [process_command] leaves the program ([print] and
    [save_data] being taken to return). *)
Theorem main_ends_at_the_first_exit_or_blank (lines : list str) (book : World) :
  ending (main repr_str lower lines book) =
  match List.find (fun line => unpacking_fails (lower line) || asks_to_leave (lower line))
                  lines with
  | None => EOFError
  | Some line =>
      if unpacking_fails (lower line) then
        Raised (Raise ValueError
                  (Text (not_enough_values false 2 (length (str_split (lower line))))))
      else Returned
  end.
Proof. unfold main. cbn [after ending]. apply main_loop_ending. Qed.

Lemma main_loop_saves :
  forall lines w,
    match ending (main_loop repr_str lower lines w) with
    | Returned =>
        exists es,
          events (main_loop repr_str lower lines w) =
            es ++ [Printed (lit "Good bye!");
                   Saved (heap (final (main_loop repr_str lower lines w)))
                         (data (final (main_loop repr_str lower lines w)))] /\
          forallb (fun e => negb (is_saved e)) es = true
    | _ => forallb (fun e => negb (is_saved e)) (events (main_loop repr_str lower lines w)) = true
    end.
Proof.
  induction lines as [|line lines IH]; intros w; [reflexivity|].
  rewrite main_loop_cons.
  destruct (unpacking_fails (lower line)) eqn:Eu; [reflexivity|].
  destruct (asks_to_leave (lower line)) eqn:El.
  { cbn [after ending events final]. exists [Prompted (lit "Enter a command: ")].
    split; reflexivity. }
  destruct (command_of_run _ Eu) as (command & args & Hc & Hrun). rewrite Hrun. cbn [ok].
  assert (command ∉ [lit "close"; lit "exit"]) as Hout.
  { unfold asks_to_leave in El. rewrite Hc in El. now apply bool_decide_eq_false_1 in El. }
  destruct (process_command_stays command args w Hout) as (shown & -> & Hshown).
  specialize (IH (snd (process_command repr_str command args w))).
  cbn [after ending events final].
  destruct (ending (main_loop repr_str lower lines _)).
  - destruct IH as (es & -> & Hes).
    exists (Prompted (lit "Enter a command: ") :: shown ++ es).
    split; [cbn [app]; now rewrite <- app_assoc|].
    cbn [forallb is_saved negb andb]. rewrite forallb_app, Hshown. exact Hes.
  - cbn [app forallb is_saved negb andb]. rewrite forallb_app, Hshown. exact IH.
  - cbn [app forallb is_saved negb andb]. rewrite forallb_app, Hshown. exact IH.
Qed.

(** X24: the book is saved at the exit, and only there.  When [main]
    returns, the last thing it did was to print the farewell and to hand
    the book to [save_data], in the state the run leaves it in, and it
    had not saved it before; when the run ends with an exception, the
    book was never saved, so whatever the session changed is lost. *)
Theorem main_saves_only_at_the_exit (lines : list str) (book : World) :
  match ending (main repr_str lower lines book) with
  | Returned =>
      exists es,
        events (main repr_str lower lines book) =
          es ++ [Printed (lit "Good bye!");
                 Saved (heap (final (main repr_str lower lines book)))
                       (data (final (main repr_str lower lines book)))] /\
        forallb (fun e => negb (is_saved e)) es = true
  | _ => forallb (fun e => negb (is_saved e)) (events (main repr_str lower lines book)) = true
  end.
Proof.
  pose proof (main_loop_saves lines book) as H. unfold main. cbn [after ending events final].
  destruct (ending (main_loop repr_str lower lines book)).
  - destruct H as (es & -> & Hes).
    exists (Printed (lit "Welcome to the assistant bot!") :: es). split; [reflexivity | exact Hes].
  - exact H.
  - exact H.
Qed.

Lemma process_command_grows command args w :
  data w `prefix_of` data (snd (process_command repr_str command args w)) /\
  names_stable w (snd (process_command repr_str command args w)) /\
  clock (snd (process_command repr_str command args w)) = clock w /\
  (book_invariant w -> book_invariant (snd (process_command repr_str command args w))).
Proof.
  destruct (handler_of_command command) as [h|] eqn:E.
  - destruct (process_command_handler (fun _ => []) command args h w E) as (answer & -> & _).
    cbn [snd].
    destruct (handler_grows repr_str (fun _ => []) h (str_split args) w) as (H1 & H2 & H3).
    destruct (handler_frame (fun _ => []) h (str_split args) w) as (F1 & _).
    split; [exact H1|]. split; [exact H3|]. split; [exact F1|].
    apply invariant_handler.
  - destruct (process_command_other command args w E) as (shown & -> & _).
    cbn [snd]. split; [reflexivity|]. split; [apply names_stable_refl|]. split; auto.
Qed.

Lemma main_loop_grows :
  forall lines w,
    data w `prefix_of` data (final (main_loop repr_str lower lines w)) /\
    names_stable w (final (main_loop repr_str lower lines w)) /\
    clock (final (main_loop repr_str lower lines w)) = clock w /\
    (book_invariant w -> book_invariant (final (main_loop repr_str lower lines w))).
Proof.
  assert (forall w, data w `prefix_of` data w /\ names_stable w w /\ clock w = clock w /\
                    (book_invariant w -> book_invariant w)) as Hsame
    by (intros w; split; [reflexivity | split; [apply names_stable_refl | auto]]).
  induction lines as [|line lines IH]; intros w; [apply Hsame|].
  rewrite main_loop_cons. cbn [after final].
  destruct (unpacking_fails (lower line)) eqn:Eu; [apply Hsame|].
  destruct (asks_to_leave (lower line)) eqn:El; [apply Hsame|].
  destruct (command_of_run _ Eu) as (command & args & Hc & Hrun). rewrite Hrun. cbn [ok].
  assert (command ∉ [lit "close"; lit "exit"]) as Hout.
  { unfold asks_to_leave in El. rewrite Hc in El. now apply bool_decide_eq_false_1 in El. }
  destruct (process_command_stays command args w Hout) as (shown & -> & _).
  cbn [after final].
  destruct (process_command_grows command args w) as (P1 & P2 & P3 & P4).
  destruct (IH (snd (process_command repr_str command args w))) as (I1 & I2 & I3 & I4).
  split; [etransitivity; eassumption|].
  split; [eapply names_stable_trans; eassumption|].
  split; [congruence | auto].
Qed.

(** X25: a session never loses a contact.  Whatever lines are typed and
    however the run ends, the book the run leaves starts with the
    entries of the book it began with, in their order and bound to the
    same records, every record is still there under the name it had,
    and if every key was the name of its record in the beginning, it is
    so in the end: the invariant of the book holds in every book [main]
    saves. *)
Theorem main_never_loses_a_contact (lines : list str) (book : World) :
  data book `prefix_of` data (final (main repr_str lower lines book)) /\
  names_stable book (final (main repr_str lower lines book)) /\
  clock (final (main repr_str lower lines book)) = clock book /\
  (book_invariant book -> book_invariant (final (main repr_str lower lines book))).
Proof. unfold main. cbn [after final]. apply main_loop_grows. Qed.

(** *** What a session keeps *)

Lemma record_kept_refl r : record_kept r r.
Proof. repeat split; auto. Qed.

Lemma records_kept_refl w : records_kept w w.
Proof. split; [lia|]. intros; apply record_kept_refl. Qed.

Lemma records_kept_trans w1 w2 w3 :
  records_kept w1 w2 -> records_kept w2 w3 -> records_kept w1 w3.
Proof.
  intros [L1 K1] [L2 K2]. split; [lia|]. intros record H.
  destruct (K1 record H) as (A1 & A2 & A3).
  destruct (K2 record ltac:(lia)) as (B1 & B2 & B3).
  split; [congruence|]. split; [lia | auto].
Qed.

Lemma keeps_ret {A} (a : A) : keeps records_kept (ret a).
Proof. intros w. apply records_kept_refl. Qed.

Lemma keeps_throw {A} c m : keeps records_kept (@throw A c m).
Proof. intros w. apply records_kept_refl. Qed.

Lemma keeps_bind {A B} (c : M A) (k : A -> M B) :
  keeps records_kept c -> (forall a, keeps records_kept (k a)) ->
  keeps records_kept (bind c k).
Proof.
  intros Hc Hk w. unfold bind. specialize (Hc w).
  destruct (c w) as [[e|a] w1]; cbn [snd] in *; [exact Hc|].
  eapply records_kept_trans; [exact Hc | apply Hk].
Qed.

Lemma keeps_read_only {A} (c : M A) : read_only c -> keeps records_kept c.
Proof.
  intros H w. destruct (H w) as (Hh & _). split; rewrite Hh; [lia|].
  intros; apply record_kept_refl.
Qed.

(** Writing a record that keeps what the one at [self] had. *)
Lemma records_kept_set w self r :
  record_kept (heap w !!! self) r ->
  records_kept w (with_heap (<[self := r]> (heap w)) w).
Proof.
  intros Hr. split; cbn [heap with_heap]; [now rewrite length_insert|].
  intros record H. destruct (decide (record = self)) as [->|Hne].
  - now rewrite lookup_set_record.
  - rewrite lookup_set_record_other by exact Hne. apply record_kept_refl.
Qed.

Lemma keeps_add_phone self phone : keeps records_kept (Rec.add_phone self phone).
Proof.
  intros w. rewrite add_phone_run.
  destruct (is_valid_phone phone); [|apply records_kept_refl].
  apply records_kept_set. split; [reflexivity|]. split; [|auto].
  cbn [phones]. rewrite length_app. lia.
Qed.

Lemma keeps_edit_phone self old_phone new_phone :
  keeps records_kept (Rec.edit_phone self old_phone new_phone).
Proof.
  apply keeps_bind; [apply keeps_read_only, read_only_get_record|]. intros r.
  generalize 0%nat. induction (phones r) as [|p ps IH]; intros i;
    cbn [Rec.edit_phone_loop]; [apply keeps_throw|].
  destruct (decide (p = old_phone)); [|apply IH].
  intros w. unfold bind, lift, get_record, set_record, ret.
  destruct (Phone new_phone) as [err|v]; cbn [snd]; [apply records_kept_refl|].
  apply records_kept_set. split; [reflexivity|]. split; [|auto].
  cbn [phones]. now rewrite length_insert.
Qed.

Lemma keeps_add_birthday self value : keeps records_kept (Rec.add_birthday self value).
Proof.
  intros w. rewrite add_birthday_run.
  destruct (strptime_dmY value); [apply records_kept_refl|].
  apply records_kept_set. split; [reflexivity|]. split; [reflexivity|].
  intros _. cbn [birthday]. eauto.
Qed.

Lemma keeps_add_contact args : keeps records_kept (add_contact__wrapped args).
Proof.
  destruct args as [|nm [|phone rest]]; try apply keeps_throw.
  cbn [add_contact__wrapped].
  apply keeps_bind; [apply keeps_read_only, read_only_find|]. intros found.
  apply keeps_bind.
  - destruct found as [record|]; [apply keeps_ret|].
    apply keeps_bind.
    + intros w. split; cbn [snd Rec.init heap with_heap]; [rewrite length_app; lia|].
      intros record H. rewrite (list_lookup_total_alt (heap w ++ _)), lookup_app_l by exact H.
      rewrite <- list_lookup_total_alt. apply record_kept_refl.
    + intros record. apply keeps_bind; [|intros; apply keeps_ret].
      apply keeps_bind; [apply keeps_read_only, read_only_get_record|].
      intros r w. cbn [snd]. split; cbn [heap with_data]; [lia|].
      intros; apply record_kept_refl.
  - intros rm. apply keeps_bind; [|intros; apply keeps_ret].
    destruct phone; [apply keeps_ret | apply keeps_add_phone].
Qed.

Lemma keeps_handler repr_object h args :
  keeps records_kept (handler repr_str repr_object h args).
Proof.
  intros w. unfold handler. rewrite input_error_world. revert w.
  change (keeps records_kept (wrapped repr_str repr_object h args)).
  destruct h; cbn [wrapped].
  - apply keeps_add_contact.
  - destruct args as [|nm [|old_phone [|new_phone [|x rest]]]];
      cbn [change_contact__wrapped]; try apply keeps_throw.
    apply keeps_bind; [apply keeps_read_only, read_only_find|].
    intros [record|]; [|apply keeps_ret].
    apply keeps_bind; [apply keeps_edit_phone | intros; apply keeps_ret].
  - intros w. rewrite (preserves_show_phone (fun w => w) args w). apply records_kept_refl.
  - intros w. apply records_kept_refl.
  - destruct args as [|nm [|value [|x rest]]];
      cbn [add_birthday__wrapped]; try apply keeps_throw.
    apply keeps_bind; [apply keeps_read_only, read_only_find|].
    intros [record|]; [|apply keeps_ret].
    apply keeps_bind; [apply keeps_add_birthday | intros; apply keeps_ret].
  - intros w. rewrite (preserves_show_birthday (fun w => w) args w). apply records_kept_refl.
  - apply keeps_read_only, read_only_birthdays.
Qed.

Lemma keeps_process_command command args :
  keeps records_kept (process_command repr_str command args).
Proof.
  intros w. destruct (handler_of_command command) as [h|] eqn:E.
  - destruct (process_command_handler (fun _ => []) command args h w E) as (answer & -> & _).
    apply keeps_handler.
  - destruct (process_command_other command args w E) as (shown & -> & _).
    apply records_kept_refl.
Qed.

Lemma main_loop_keeps :
  forall lines w, records_kept w (final (main_loop repr_str lower lines w)).
Proof.
  induction lines as [|line lines IH]; intros w; [apply records_kept_refl|].
  rewrite main_loop_cons. cbn [after final].
  destruct (unpacking_fails (lower line)) eqn:Eu; [apply records_kept_refl|].
  destruct (asks_to_leave (lower line)) eqn:El; [apply records_kept_refl|].
  destruct (command_of_run _ Eu) as (command & args & Hc & Hrun). rewrite Hrun. cbn [ok].
  assert (command ∉ [lit "close"; lit "exit"]) as Hout.
  { unfold asks_to_leave in El. rewrite Hc in El. now apply bool_decide_eq_false_1 in El. }
  destruct (process_command_stays command args w Hout) as (shown & -> & _).
  cbn [after final].
  eapply records_kept_trans; [apply keeps_process_command | apply IH].
Qed.

(** X26: nothing a user types takes anything away.  Over a whole run
    of [main], whatever the lines and however it ends, every record
    keeps its name, has at least as many phones as before, and still
    has a birthday if it had one: the commands add and replace, none of
    them deletes ([Record.remove_phone] is called by none). *)
Theorem main_deletes_nothing (lines : list str) (book : World) (record : nat) :
  (record < length (heap book))%nat ->
  (record < length (heap (final (main repr_str lower lines book))))%nat /\
  name (heap (final (main repr_str lower lines book)) !!! record) =
    name (heap book !!! record) /\
  (length (phones (heap book !!! record)) <=
   length (phones (heap (final (main repr_str lower lines book)) !!! record)))%nat /\
  (is_Some (birthday (heap book !!! record)) ->
   is_Some (birthday (heap (final (main repr_str lower lines book)) !!! record))).
Proof.
  intros H. unfold main. cbn [after final].
  destruct (main_loop_keeps lines book) as [L K].
  split; [lia|]. exact (K record H).
Qed.

End CommandLine.

(** ** Errors at the handler boundary *)

Lemma edit_phone_loop_raises self old_phone new_phone :
  forall ps i w e w',
    Rec.edit_phone_loop self old_phone new_phone i ps w = (inl e, w') ->
    (e = Raise ValueError (Text invalid_phone_message) /\ is_valid_phone new_phone = false) \/
    e = Raise ValueError (Text not_found_message).
Proof.
  induction ps as [|p ps IH]; intros i w e w'; cbn [Rec.edit_phone_loop].
  - intros [= <- _]. now right.
  - destruct (decide (p = old_phone)) as [_|_]; [|apply IH].
    unfold bind, lift, Phone.
    destruct (is_valid_phone new_phone) eqn:Ev; cbn [negb]; [discriminate|].
    intros [= <- _]. now left.
Qed.

(** The errors the handlers other than [birthdays] raise are of the
    three kinds, each with its description. *)
Lemma wrapped_raises repr_str repr_object h args w e w' :
  wrapped repr_str repr_object h args w = (inl e, w') ->
  h <> Birthdays ->
  exists kind description,
    handler_error h args kind (exn_class e) description /\
    exn_message e = Text description.
Proof.
  destruct h; cbn [wrapped]; intros H Hne; [| | | | | |congruence].
  - destruct args as [|nm [|phone rest]].
    + injection H as <- _. eexists _, _. split; [apply add_contact_few; cbn; lia | reflexivity].
    + injection H as <- _. eexists _, _. split; [apply add_contact_few; cbn; lia | reflexivity].
    + destruct (dict_get nm (data w)) as [record|] eqn:E.
      * rewrite (add_contact_existing _ _ _ _ _ E) in H.
        destruct phone as [|c phone]; [discriminate|].
        destruct (is_valid_phone (c :: phone)) eqn:Ev; [discriminate|].
        injection H as <- _. eexists _, _. split; [now apply add_contact_phone | reflexivity].
      * rewrite (add_contact_new _ _ _ _ E) in H.
        destruct phone as [|c phone]; [discriminate|].
        destruct (is_valid_phone (c :: phone)) eqn:Ev; [discriminate|].
        injection H as <- _. eexists _, _. split; [now apply add_contact_phone | reflexivity].
  - destruct args as [|nm [|old_phone [|new_phone [|x rest]]]];
      try (injection H as <- _; eexists _, _;
           split; [first [apply change_contact_few; cbn; lia | apply change_contact_many; cbn; lia]
                  | reflexivity]).
    cbn [change_contact__wrapped] in H. unfold bind at 1 in H.
    unfold AddressBook.find at 1 in H.
    destruct (dict_get nm (data w)) as [record|]; [|discriminate].
    unfold bind at 1 in H.
    destruct (Rec.edit_phone record old_phone new_phone w) as [[e1|a] w1] eqn:E;
      [|discriminate].
    injection H as <- _. unfold Rec.edit_phone, bind, get_record in E.
    destruct (edit_phone_loop_raises _ _ _ _ _ _ _ _ E) as [[-> Ev]| ->].
    + eexists _, _. split; [now apply change_contact_phone | reflexivity].
    + eexists _, _. split; [apply change_contact_missing | reflexivity].
  - destruct args as [|nm rest].
    + injection H as <- _. eexists _, _. split; [apply show_phone_none | reflexivity].
    + cbn [show_phone__wrapped] in H. unfold bind, AddressBook.find, get_record in H.
      destruct (dict_get nm (data w)); discriminate.
  - discriminate.
  - destruct args as [|nm [|value [|x rest]]];
      try (injection H as <- _; eexists _, _;
           split; [first [apply add_birthday_few; cbn; lia | apply add_birthday_many; cbn; lia]
                  | reflexivity]).
    cbn [add_birthday__wrapped] in H. unfold bind at 1 in H.
    unfold AddressBook.find at 1 in H.
    destruct (dict_get nm (data w)) as [record|]; [|discriminate].
    unfold bind at 1 in H. rewrite add_birthday_run in H.
    destruct (strptime_dmY value) as [e1|dt] eqn:E; [|discriminate].
    injection H as <- _. eexists _, _. split; [|reflexivity].
    apply add_birthday_date. rewrite denotes_a_date_strptime, E. intros [dt H]. discriminate H.
  - destruct args as [|nm rest].
    + injection H as <- _. eexists _, _. split; [apply show_birthday_none | reflexivity].
    + cbn [show_birthday__wrapped] in H. unfold bind, AddressBook.find, get_record in H.
      destruct (dict_get nm (data w)) as [record|]; [|discriminate].
      destruct (birthday (heap w !!! record)); discriminate.
Qed.

Section HandlerErrors.

Variable repr_str : str -> str.
Variable repr_object : nat -> str.
Variable lower : str -> str.

(** C8: no error leaves a handler, and the command loop goes on.
    Every handler, on every argument list and in every world, returns a
    string.  When its body raises, the exception is a [ValueError] or an
    [IndexError] and the string returned is the description of the
    error, the very text it was raised with (for the mismatch
    [strptime] reports, the text quoting the data).  But for
    [birthdays], whose errors come from the calendar, the errors are of
    the three kinds, with these descriptions: a failed validation
    (the message of [Phone] or of [Birthday]), a phone that is not found
    ([Phone number not found]), and a wrong number of arguments (the
    message of the failed unpacking or indexing).  And whatever the
    handler did, [process_command] prints the string and returns [True],
    and the loop of [main] goes on with the next line. *)
Theorem handler_errors_become_messages (h : Handler) (args : list str) (w : World) :
  (exists answer w', handler repr_str repr_object h args w = (inr answer, w')) /\
  (forall answer w',
     wrapped repr_str repr_object h args w = (inr answer, w') ->
     handler repr_str repr_object h args w = (inr answer, w')) /\
  (forall e w',
     wrapped repr_str repr_object h args w = (inl e, w') ->
     (exn_class e = ValueError \/ exn_class e = IndexError) /\
     match exn_message e with
     | Text description =>
         handler repr_str repr_object h args w = (inr description, w')
     | TimeDataMismatch data =>
         handler repr_str repr_object h args w =
         (inr (lit "time data " ++ repr_str data ++
               lit " does not match format '%d.%m.%Y'"), w')
     | Quoted key =>
         handler repr_str repr_object h args w = (inr (repr_str key), w')
     end /\
     (h <> Birthdays ->
      exists kind description,
        handler_error h args kind (exn_class e) description /\
        exn_message e = Text description /\
        handler repr_str repr_object h args w = (inr description, w'))) /\
  (forall line lines command rest,
     command_and_args (lower line) = ok (command, rest) ->
     handler_of_command command = Some h ->
     args = str_split rest ->
     exists answer w',
       handler repr_str repr_object h args w = (inr answer, w') /\
       process_command repr_str command rest w = (inr ([Printed answer], true), w') /\
       main_loop repr_str lower (line :: lines) w =
         after [Prompted (lit "Enter a command: "); Printed answer]
               (main_loop repr_str lower lines w')).
Proof.
  pose proof (caught_wrapped repr_str repr_object h args w) as Hc.
  assert (forall e w',
            wrapped repr_str repr_object h args w = (inl e, w') ->
            handler repr_str repr_object h args w = (inr (exn_str repr_str e), w')) as Hcaught.
  { intros e w' H. unfold handler, input_error. rewrite H.
    destruct (Hc e w' H) as [E|E]; now rewrite E. }
  split; [|split; [|split]].
  - destruct (handler_returns repr_str repr_object h args w) as [answer H]. eauto.
  - intros answer w' H. unfold handler, input_error. now rewrite H.
  - intros e w' H. split; [exact (Hc e w' H)|]. specialize (Hcaught e w' H). split.
    + unfold exn_str in Hcaught. destruct (exn_message e); exact Hcaught.
    + intros Hne.
      destruct (wrapped_raises _ _ _ _ _ _ _ H Hne) as (kind & description & Herr & Hmsg).
      exists kind, description. split; [exact Herr|]. split; [exact Hmsg|].
      unfold exn_str in Hcaught. now rewrite Hmsg in Hcaught.
  - intros line lines command rest Hparse Hh ->.
    destruct (process_command_handler repr_str repr_object command rest h w Hh)
      as (answer & Hrun & Hanswer).
    exists answer, (snd (handler repr_str repr_object h (str_split rest) w)).
    split; [exact Hanswer|]. split; [exact Hrun|].
    cbn [main_loop]. rewrite Hparse. cbn [ok]. now rewrite Hrun.
Qed.

(** X10: a birthday that falls today is not in the list, unless the
    clock reads midnight.  In a book that satisfies its invariant, a
    record whose birthday has the month and the day of the reading its
    [get_days_to_birthday] gets from the clock, that reading being past
    midnight, is in no list [get_upcoming_birthdays(days)] returns for
    fewer than 364 days.  So the command [birthdays] does not show it:
    what the handler answers, and [process_command] prints, is made
    from the list for 7 days, one line for each entry or the text that
    there are none, and that list has no entry for the record. *)
Theorem birthday_today_is_not_listed
    (w : World) (days : Z) (l : list Entry) (pre : list nat) (record : nat)
    (post : list nat) (value : str) (birthday_date : datetime) :
  fst (AddressBook.get_upcoming_birthdays days w) = inr l ->
  book_invariant w ->
  map snd (data w) = pre ++ record :: post ->
  birthday (heap w !!! record) = Some value ->
  strptime_dmY value = inr birthday_date ->
  valid_date (clock w (ticks (asked_after w pre))) ->
  valid_time (clock w (ticks (asked_after w pre))) ->
  month birthday_date = month (clock w (ticks (asked_after w pre))) ->
  day birthday_date = day (clock w (ticks (asked_after w pre))) ->
  seconds_of_day (clock w (ticks (asked_after w pre))) <> 0 \/
    microsecond (clock w (ticks (asked_after w pre))) <> 0 ->
  year (clock w (ticks (asked_after w pre))) < MAXYEAR ->
  ~ (month birthday_date = 2 /\ day birthday_date = 29) ->
  days < 364 ->
  (name (heap w !!! record) ∉ map entry_name l) /\
  (days = 7 ->
   (forall args,
      birthdays repr_str args w =
      (inr (birthdays_answer l), snd (AddressBook.get_upcoming_birthdays 7 w))) /\
   (forall rest,
      process_command repr_str (lit "birthdays") rest w =
      (inr ([Printed (birthdays_answer l)], true),
       snd (AddressBook.get_upcoming_birthdays 7 w)))).
Proof.
  intros H Hinv Hsplit Eb Hs Hvd Hvt Hmo Hda Htime Hyear Hfeb Hdays. split.
  - destruct (upcoming_listed _ _ _ _ _ _ _ H Hinv Hsplit Eb) as (n & Hn & Hiff).
    rewrite Hmo, Hda in Hfeb.
    destruct (days_until_today _ _ _ Hs Hvd Hvt Hmo Hda Htime Hyear Hfeb)
      as (n' & Hn' & Hrange).
    rewrite Hn in Hn'. injection Hn' as <-. rewrite Hiff. lia.
  - intros ->.
    assert (forall args,
              birthdays repr_str args w =
              (inr (birthdays_answer l), snd (AddressBook.get_upcoming_birthdays 7 w)))
      as Hanswer.
    { intros args. apply input_error_returns. unfold birthdays__wrapped, bind.
      destruct (AddressBook.get_upcoming_birthdays 7 w) as [r w1]. cbn [fst snd] in *.
      subst r. now destruct l. }
    split; [exact Hanswer|]. intros rest.
    destruct (process_command_handler repr_str (fun _ => []) (lit "birthdays") rest Birthdays w
                eq_refl) as (answer & Hrun & Hh).
    change (handler repr_str (fun _ => []) Birthdays) with (birthdays repr_str) in Hrun, Hh.
    rewrite Hanswer in Hh, Hrun. cbn [snd] in Hh, Hrun.
    injection Hh as ->. exact Hrun.
Qed.

End HandlerErrors.

(** * Instances of the further properties *)

Lemma days_to_birthday_is_between_0_and_365_witness :
  Rec.get_days_to_birthday 0 weekend_book = (inr (Some 7), tick weekend_book) /\
  0 <= 7 <= 365.
Proof.
  split; [reflexivity|].
  apply (days_to_birthday_is_between_0_and_365 weekend_book 0 7 (tick weekend_book)).
  - vm_compute. intuition discriminate.
  - vm_compute. intuition discriminate.
  - reflexivity.
Defined.

Lemma birthday_today_counts_to_next_year_witness :
  exists n, Rec.get_days_to_birthday 5 weekend_book = (inr (Some n), tick weekend_book) /\
            364 <= n <= 365.
Proof.
  apply (birthday_today_counts_to_next_year weekend_book 5 (lit "01.03.1970")
           (mkdatetime 1970 3 1 0 0 0 0)).
  - reflexivity.
  - reflexivity.
  - vm_compute. intuition discriminate.
  - vm_compute. intuition discriminate.
  - reflexivity.
  - reflexivity.
  - left. vm_compute. discriminate.
  - reflexivity.
  - intros [H _]. discriminate H.
Defined.

Lemma upcoming_birthdays_follow_the_book_order_witness :
  sublist (map entry_name weekend_list)
          (map (fun record => name (heap weekend_book !!! record))
               (List.filter (has_birthday weekend_book) (map snd (data weekend_book)))) /\
  (length weekend_list <=
   length (List.filter (has_birthday weekend_book) (map snd (data weekend_book))))%nat /\
  sublist (map entry_name weekend_list) (map fst (data weekend_book)) /\
  NoDup (map entry_name weekend_list).
Proof.
  destruct (upcoming_birthdays_follow_the_book_order weekend_book 7 weekend_list)
    as (H1 & H2 & H3).
  - now rewrite weekend_book_run.
  - split; [exact H1|]. split; [exact H2|]. exact (H3 weekend_book_invariant).
Defined.

Lemma upcoming_birthdays_grow_with_the_horizon_witness :
  exists l, AddressBook.get_upcoming_birthdays 5 weekend_book =
              (inr l, with_ticks 6 weekend_book) /\
            sublist l weekend_list.
Proof.
  apply (upcoming_birthdays_grow_with_the_horizon weekend_book 5 7).
  - lia.
  - exact weekend_book_run.
Defined.

Lemma noon_1_march_2025_readings t :
  valid_date (noon_1_march_2025 t) /\ valid_time (noon_1_march_2025 t).
Proof. unfold valid_date, valid_time, MINYEAR, MAXYEAR. cbn. lia. Qed.

Lemma upcoming_birthdays_at_the_ends_of_the_horizon_witness :
  fst (AddressBook.get_upcoming_birthdays (-1) weekend_book) = inr [] /\
  exists l, fst (AddressBook.get_upcoming_birthdays 365 weekend_book) = inr l /\
            map entry_name l = [lit "alice"; lit "bob"; lit "dora"; lit "fred"; lit "gina"].
Proof.
  split; [reflexivity|]. eexists. split; [vm_compute; reflexivity|].
  apply (proj2 (upcoming_birthdays_at_the_ends_of_the_horizon weekend_book 365 _
                  noon_1_march_2025_readings eq_refl)).
  lia.
Defined.

Lemma add_contact_adds_before_validating_witness :
  exists answer ps,
    add_contact (fun s => s) [lit "hank"; lit "123"] weekend_book =
      (inr answer,
       mkWorld (heap weekend_book ++ [mkRecord (lit "hank") ps None])
               (data weekend_book ++ [(lit "hank", 6%nat)])
               (clock weekend_book) (ticks weekend_book)) /\
    answer = invalid_phone_message /\ ps = [].
Proof.
  destruct (proj1 (add_contact_adds_before_validating (fun s => s) weekend_book
                     (lit "hank") (lit "123") [] eq_refl))
    as (answer & ps & Hrun & _ & Hinvalid & _).
  exists answer, ps. split; [exact Hrun|].
  apply Hinvalid; [reflexivity | discriminate].
Defined.

Lemma add_contact_appends_to_an_existing_contact_witness :
  exists w',
    add_contact (fun s => s) [lit "alice"; lit "5555555555"] weekend_book =
      (inr (lit "Contact updated."), w') /\
    phones (heap w' !!! 0%nat) = [lit "0123456789"; lit "5555555555"].
Proof.
  destruct (proj1 (add_contact_appends_to_an_existing_contact (fun s => s) weekend_book
                     (lit "alice") (lit "5555555555") [] 0%nat eq_refl
                     (Nat.lt_0_succ 5)) eq_refl)
    as (w' & Hrun & Hphones & _).
  exists w'. split; [exact Hrun | exact Hphones].
Defined.

Lemma unknown_contact_is_reported_witness :
  add_birthday (fun s => s) [lit "hank"; lit "no date"] weekend_book =
  (inr (lit "Contact not found."), weekend_book).
Proof.
  apply (proj1 (proj2 (unknown_contact_is_reported (fun s => s) weekend_book (lit "hank")
                         eq_refl))).
Defined.

Lemma change_contact_replaces_the_phone_witness :
  exists w',
    change_contact (fun s => s) [lit "alice"; lit "0123456789"; lit "9876543210"]
                   weekend_book =
      (inr (lit "Phone number updated for alice."), w') /\
    phones (heap w' !!! 0%nat) = [lit "9876543210"].
Proof.
  destruct (proj1 (proj1 (change_contact_replaces_the_phone (fun s => s) weekend_book
                            (lit "alice") (lit "0123456789") (lit "9876543210") 0%nat
                            eq_refl (Nat.lt_0_succ 5))
                     0%nat (first_at_head _ _)) eq_refl)
    as (w' & Hrun & Hphones & _).
  exists w'. split; [exact Hrun | exact Hphones].
Defined.

Lemma show_birthday_returns_what_add_birthday_stored_witness :
  exists w',
    add_birthday (fun s => s) [lit "carl"; lit "1.2.2000"] weekend_book =
      (inr (lit "Birthday added for carl."), w') /\
    show_birthday (fun s => s) [lit "carl"] w' = (inr (lit "1.2.2000"), w').
Proof.
  destruct (proj1 (show_birthday_returns_what_add_birthday_stored (fun s => s) weekend_book
                     (lit "carl") (lit "1.2.2000") 2%nat eq_refl
                     (proj1 (Nat.ltb_lt 2 6) eq_refl)))
    as (w' & Hrun & Hshow).
  - apply denotes_a_date_strptime. eexists. vm_compute. reflexivity.
  - exists w'. split; [exact Hrun | apply Hshow].
Defined.

Lemma show_phone_lists_the_phones_added_witness :
  exists answer w',
    add_contact (fun s => s) [lit "alice"; lit "5555555555"] weekend_book = (inr answer, w') /\
    show_phone (fun s => s) [lit "alice"] w' = (inr (lit "0123456789, 5555555555"), w').
Proof.
  destruct (show_phone_lists_the_phones_added (fun s => s) weekend_book
              (lit "alice") (lit "5555555555") weekend_book_invariant eq_refl)
    as (answer & w' & Hrun & Hshow).
  exists answer, w'. split; [exact Hrun | apply Hshow].
Defined.

Lemma command_and_args_splits_the_line_witness :
  command_and_args (lit "hello ") =
    raise ValueError (lit "not enough values to unpack (expected 2, got 1)") /\
  exists args,
    command_and_args (lit "add  hank 0501234567") = ok (lit "add", args) /\
    str_split args = [lit "hank"; lit "0501234567"].
Proof.
  split.
  - apply (proj2 (command_and_args_splits_the_line (lit "hello "))).
    repeat first [left | right].
  - apply (proj2 (command_and_args_splits_the_line (lit "add  hank 0501234567"))).
    right. right. right. left.
Defined.

Lemma main_ends_at_the_first_exit_or_blank_witness :
  ending (main (fun s => s) (fun s => s) session_with_a_blank weekend_book) =
    Raised (Raise ValueError
              (Text (lit "not enough values to unpack (expected 2, got 1)"))) /\
  ending (main (fun s => s) (fun s => s) session weekend_book) = Returned /\
  ending (main (fun s => s) (fun s => s) [lit "exit "; lit "exit"] weekend_book) =
    Raised (Raise ValueError
              (Text (lit "not enough values to unpack (expected 2, got 1)"))).
Proof.
  rewrite !main_ends_at_the_first_exit_or_blank. repeat split.
Defined.

Lemma main_saves_only_at_the_exit_witness :
  (exists es,
     events (main (fun s => s) (fun s => s) session weekend_book) =
       es ++ [Printed (lit "Good bye!");
              Saved (heap (final (main (fun s => s) (fun s => s) session weekend_book)))
                    (data (final (main (fun s => s) (fun s => s) session weekend_book)))] /\
     forallb (fun e => negb (is_saved e)) es = true) /\
  forallb (fun e => negb (is_saved e))
          (events (main (fun s => s) (fun s => s) session_with_a_blank weekend_book)) = true.
Proof.
  split.
  - exact (main_saves_only_at_the_exit (fun s => s) (fun s => s) session weekend_book).
  - exact (main_saves_only_at_the_exit (fun s => s) (fun s => s) session_with_a_blank
             weekend_book).
Defined.

Lemma main_deletes_nothing_witness :
  name (heap (final (main (fun s => s) (fun s => s) session weekend_book)) !!! 0%nat) =
    lit "alice" /\
  (1 <= length (phones (heap (final (main (fun s => s) (fun s => s) session weekend_book))
                          !!! 0%nat)))%nat.
Proof.
  destruct (main_deletes_nothing (fun s => s) (fun s => s) session weekend_book 0%nat
              (Nat.lt_0_succ 5)) as (_ & Hname & Hphones & _).
  split; [exact Hname | exact Hphones].
Defined.

(** The two sessions, run on the example book: what is printed, and
    what is left. *)
Example session_run :
  main (fun s => s) (fun s => s) session weekend_book =
  mkRun Returned
    [ Printed (lit "Welcome to the assistant bot!");
      Prompted (lit "Enter a command: ");
      Printed (lit "Contact added.");
      Prompted (lit "Enter a command: ");
      Printed (lit "Birthday added for hank.");
      Prompted (lit "Enter a command: ");
      Printed (lit "0501234567");
      Prompted (lit "Enter a command: ");
      Printed (lit "Good bye!");
      Saved (heap weekend_book ++
               [mkRecord (lit "hank") [lit "0501234567"] (Some (lit "2.3.1990"))])
            (data weekend_book ++ [(lit "hank", 6%nat)]) ]
    (mkWorld (heap weekend_book ++
                [mkRecord (lit "hank") [lit "0501234567"] (Some (lit "2.3.1990"))])
             (data weekend_book ++ [(lit "hank", 6%nat)])
             noon_1_march_2025 0).
Proof. vm_compute. reflexivity. Qed.

Example session_with_a_blank_run :
  main (fun s => s) (fun s => s) session_with_a_blank weekend_book =
  mkRun (Raised (Raise ValueError
                   (Text (lit "not enough values to unpack (expected 2, got 1)"))))
    [ Printed (lit "Welcome to the assistant bot!");
      Prompted (lit "Enter a command: ");
      Printed (lit "Contact added.");
      Prompted (lit "Enter a command: ") ]
    (mkWorld (heap weekend_book ++ [mkRecord (lit "hank") [lit "0501234567"] None])
             (data weekend_book ++ [(lit "hank", 6%nat)])
             noon_1_march_2025 0).
Proof. vm_compute. reflexivity. Qed.

Lemma birthday_today_is_not_listed_witness :
  fst (AddressBook.get_upcoming_birthdays 7 weekend_book) = inr weekend_list /\
  (lit "gina" ∉ map entry_name weekend_list) /\
  birthdays (fun s => s) [] weekend_book =
    (inr (lit "alice: 10.03.2025" ++ [10%N] ++ lit "bob: 10.03.2025" ++ [10%N] ++
          lit "dora: 07.03.2025"),
     with_ticks 6 weekend_book).
Proof.
  assert (fst (AddressBook.get_upcoming_birthdays 7 weekend_book) = inr weekend_list) as Hrun
    by now rewrite weekend_book_run.
  split; [exact Hrun|].
  destruct (birthday_today_is_not_listed (fun s => s) weekend_book 7 weekend_list
              [0; 1; 2; 3; 4]%nat 5%nat [] (lit "01.03.1970") (mkdatetime 1970 3 1 0 0 0 0)
              Hrun weekend_book_invariant) as (Hnot & Hcommand).
  - reflexivity.
  - reflexivity.
  - reflexivity.
  - apply noon_1_march_2025_readings.
  - apply noon_1_march_2025_readings.
  - reflexivity.
  - reflexivity.
  - left. vm_compute. discriminate.
  - reflexivity.
  - intros [H _]. discriminate H.
  - lia.
  - split; [exact Hnot|]. exact (proj1 (Hcommand eq_refl) []).
Defined.

Lemma handler_errors_become_messages_witness :
  exists w',
    handler (fun s => s) (fun _ => []) AddContact [lit "hank"; lit "123"] weekend_book =
      (inr invalid_phone_message, w') /\
    main_loop (fun s => s) (fun s => s) [lit "add hank 123"; lit "exit"] weekend_book =
      after [Prompted (lit "Enter a command: "); Printed invalid_phone_message]
            (main_loop (fun s => s) (fun s => s) [lit "exit"] w').
Proof.
  pose proof (handler_errors_become_messages (fun s => s) (fun _ => []) (fun s => s)
                AddContact [lit "hank"; lit "123"] weekend_book)
    as (_ & _ & Herr & Hloop).
  destruct (Herr (Raise ValueError (Text invalid_phone_message))
                 (snd (add_contact__wrapped [lit "hank"; lit "123"] weekend_book)) eq_refl)
    as (_ & Hanswer & _).
  cbn [exn_message] in Hanswer.
  destruct (Hloop (lit "add hank 123") [lit "exit"] (lit "add") (lit "hank 123")
                  eq_refl eq_refl eq_refl)
    as (answer & w' & Hh & _ & Hrun).
  rewrite Hanswer in Hh. injection Hh as <- <-.
  eexists. split; [exact Hanswer | exact Hrun].
Defined.
